(** * ObjectManager: a shallow embedding of RAMCloud's src/ObjectManager.cc

    The object manager owns the hash table that maps every key of the
    tablets a master serves to the log reference of its newest object (or,
    during recovery, of a tombstone).  This file embeds the client
    operations (writeObject, readObject, removeObject), recovery replay
    (replaySegment), the cleaner callback (relocateObject) and the tombstone
    reaper (removeIfTombstone, RemoveTombstonePoller::poll) as functions on
    an explicit ObjectManager state, and proves the properties the
    specification states about them.

    Conventions.
    - A [uint64_t] is a [Z]; every addition the code performs on one is
      written with [wrap64], the reduction modulo 2^64.
    - [assert] is modelled as an abort: an operation returns [Exec A], which
      is [Done a], [AssertionFailure], or [Undefined] where the code reads
      memory through a pointer of the wrong type.
    - Answers of collaborators that the code cannot predict (whether the log
      has space for an append, whether the relocator has memory, each
      reading of the wall clock) are arguments of the operation.
    - Bucket locks, prefetching, the periodic replicaManager.proceed(),
      cycle counters and the byte metrics have no effect on the values
      computed and are left out. *)

From Stdlib Require Import ZArith List String Bool Lia.
Import ListNotations.
Open Scope Z_scope.

(** ** Machine integers and status codes *)

Definition wrap64 (z : Z) : Z := z mod 2 ^ 64.

Definition UINT64_MAX : Z := 2 ^ 64 - 1.

Definition VERSION_NONEXISTENT : Z := 0.

Inductive Status : Type :=
| STATUS_OK
| STATUS_UNKNOWN_TABLET
| STATUS_OBJECT_DOESNT_EXIST
| STATUS_OBJECT_EXISTS
| STATUS_WRONG_VERSION
| STATUS_RETRY.

Definition Status_eqb (a b : Status) : bool :=
  match a, b with
  | STATUS_OK, STATUS_OK
  | STATUS_UNKNOWN_TABLET, STATUS_UNKNOWN_TABLET
  | STATUS_OBJECT_DOESNT_EXIST, STATUS_OBJECT_DOESNT_EXIST
  | STATUS_OBJECT_EXISTS, STATUS_OBJECT_EXISTS
  | STATUS_WRONG_VERSION, STATUS_WRONG_VERSION
  | STATUS_RETRY, STATUS_RETRY => true
  | _, _ => false
  end.

(** The wire layout of RejectRules: one version and four independent gates. *)
Record RejectRules : Type := mkRejectRules {
  givenVersion : Z;
  doesntExist : bool;
  exists_ : bool;
  versionLeGiven : bool;
  versionNeGiven : bool
}.

(** [static RejectRules defaultRejectRules] of removeObject: zero
    initialised. *)
Definition defaultRejectRules : RejectRules :=
  mkRejectRules 0 false false false false.

(** ObjectManager::rejectOperation. *)
Definition rejectOperation (rejectRules : RejectRules) (version : Z) : Status :=
  if version =? VERSION_NONEXISTENT then
    if doesntExist rejectRules then STATUS_OBJECT_DOESNT_EXIST
    else STATUS_OK
  else if exists_ rejectRules then STATUS_OBJECT_EXISTS
  else if versionLeGiven rejectRules && (version <=? givenVersion rejectRules)
       then STATUS_WRONG_VERSION
  else if versionNeGiven rejectRules
          && negb (version =? givenVersion rejectRules)
       then STATUS_WRONG_VERSION
  else STATUS_OK.

(** The decision table of the specification (section 4.4, "Reject rule
    evaluation"), one constructor per row.  A row applies only when no row
    above it does, which is what "evaluated in that order" means. *)
Inductive RejectTable (rules : RejectRules) (version : Z) : Status -> Prop :=
| Row_nonexistent_rejected :
    version = VERSION_NONEXISTENT ->
    doesntExist rules = true ->
    RejectTable rules version STATUS_OBJECT_DOESNT_EXIST
| Row_nonexistent_ok :
    version = VERSION_NONEXISTENT ->
    doesntExist rules = false ->
    RejectTable rules version STATUS_OK
| Row_exists :
    version <> VERSION_NONEXISTENT ->
    exists_ rules = true ->
    RejectTable rules version STATUS_OBJECT_EXISTS
| Row_versionLeGiven :
    version <> VERSION_NONEXISTENT ->
    exists_ rules = false ->
    versionLeGiven rules = true ->
    version <= givenVersion rules ->
    RejectTable rules version STATUS_WRONG_VERSION
| Row_versionNeGiven :
    version <> VERSION_NONEXISTENT ->
    exists_ rules = false ->
    ~ (versionLeGiven rules = true /\ version <= givenVersion rules) ->
    versionNeGiven rules = true ->
    version <> givenVersion rules ->
    RejectTable rules version STATUS_WRONG_VERSION
| Row_otherwise :
    version <> VERSION_NONEXISTENT ->
    exists_ rules = false ->
    ~ (versionLeGiven rules = true /\ version <= givenVersion rules) ->
    ~ (versionNeGiven rules = true /\ version <> givenVersion rules) ->
    RejectTable rules version STATUS_OK.

(** ** Keys and log entries *)

(** A key is the pair (tableId, key bytes); equality is by both. *)
Record Key : Type := mkKey {
  getTableId : Z;
  getStringKey : string
}.

Definition Key_eqb (a b : Key) : bool :=
  (getTableId a =? getTableId b)
  && String.eqb (getStringKey a) (getStringKey b).

Inductive LogEntryType : Type :=
| LOG_ENTRY_TYPE_INVALID
| LOG_ENTRY_TYPE_OBJ
| LOG_ENTRY_TYPE_OBJTOMB
| LOG_ENTRY_TYPE_SAFEVERSION.

Module Object.
(** Object::SerializedForm, with keyAndData split into its two parts. *)
Record t : Type := mk {
  tableId : Z;
  key : string;
  version : Z;
  timestamp : Z;
  checksum : Z;
  data : string
}.
Definition getKey (o : t) : Key := mkKey (tableId o) (key o).
Definition getVersion (o : t) : Z := version o.
Definition getTimestamp (o : t) : Z := timestamp o.
Definition setChecksum (c : Z) (o : t) : t :=
  mk (tableId o) (key o) (version o) (timestamp o) c (data o).
End Object.

Module ObjectTombstone.
(** ObjectTombstone::SerializedForm. *)
Record t : Type := mk {
  tableId : Z;
  key : string;
  segmentId : Z;
  objectVersion : Z;
  timestamp : Z;
  checksum : Z
}.
Definition getKey (o : t) : Key := mkKey (tableId o) (key o).
Definition getObjectVersion (o : t) : Z := objectVersion o.
Definition getSegmentId (o : t) : Z := segmentId o.
Definition getTimestamp (o : t) : Z := timestamp o.
Definition setChecksum (c : Z) (o : t) : t :=
  mk (tableId o) (key o) (segmentId o) (objectVersion o) (timestamp o) c.
End ObjectTombstone.

Module ObjectSafeVersion.
Record t : Type := mk {
  safeVersion : Z;
  checksum : Z
}.
Definition getSafeVersion (o : t) : Z := safeVersion o.
End ObjectSafeVersion.

(** What a log reference resolves to: the entry type and its bytes. *)
Inductive LogEntry : Type :=
| EntryObject (o : Object.t)
| EntryTombstone (t : ObjectTombstone.t)
| EntrySafeVersion (s : ObjectSafeVersion.t).

Definition getType (e : LogEntry) : LogEntryType :=
  match e with
  | EntryObject _ => LOG_ENTRY_TYPE_OBJ
  | EntryTombstone _ => LOG_ENTRY_TYPE_OBJTOMB
  | EntrySafeVersion _ => LOG_ENTRY_TYPE_SAFEVERSION
  end.

(** [Key(type, buffer)]: only objects and tombstones carry a key. *)
Definition entryKey (e : LogEntry) : option Key :=
  match e with
  | EntryObject o => Some (Object.getKey o)
  | EntryTombstone t => Some (ObjectTombstone.getKey t)
  | EntrySafeVersion _ => None
  end.

(** A Log::Reference is an opaque token.  Here it is the position of the
    entry in the log's memory, which also serves as the start address of the
    buffer that [getEntry] hands out. *)
Definition Reference : Type := nat.

(** The functions of other classes whose code is outside ObjectManager.cc
    and whose values the object manager only passes along. *)
Class Collaborators : Type := {
  (** Key::getHash *)
  keyHash : Key -> Z;
  (** Object::computeChecksum, over every field but the checksum *)
  computeObjectChecksum : Object.t -> Z;
  (** the checksum that ObjectTombstone::checkIntegrity recomputes *)
  computeTombstoneChecksum : ObjectTombstone.t -> Z;
  (** the checksum that ObjectSafeVersion::checkIntegrity recomputes *)
  computeSafeVersionChecksum : ObjectSafeVersion.t -> Z;
  (** Log::getSegmentId *)
  getSegmentId : Reference -> Z
}.

(** ** The log substrate *)

Inductive LogId : Type := MAIN_LOG | SIDE_LOG.

Module Log.
(** Modelled from the spec: the Log and SideLog classes are not part of
    ObjectManager.cc.  Section 6 gives their interface: append returns a
    reference, getEntry resolves one to (type, bytes), free invalidates
    one while the bytes stay readable until the segment is cleaned, sync
    blocks until the appends are durable.  The memory is append-only;
    every entry remembers through which log it was appended, every free
    which log was asked, and sync is counted. *)
Record t : Type := mk {
  memory : list (LogId * LogEntry);
  freed : list (LogId * Reference);
  syncCount : nat
}.

Definition empty : t := mk [] [] 0.

Definition getEntry (l : t) (r : Reference) : option LogEntry :=
  match nth_error (memory l) r with
  | Some (_, e) => Some e
  | None => None
  end.

Definition appendedThrough (l : t) (r : Reference) : option LogId :=
  match nth_error (memory l) r with
  | Some (which, _) => Some which
  | None => None
  end.

Definition append (which : LogId) (e : LogEntry) (l : t) : Reference * t :=
  (List.length (memory l),
   mk (memory l ++ [(which, e)]) (freed l) (syncCount l)).

Definition free (which : LogId) (r : Reference) (l : t) : t :=
  mk (memory l) (freed l ++ [(which, r)]) (syncCount l).

Definition sync (l : t) : t :=
  mk (memory l) (freed l) (S (syncCount l)).
End Log.

Module LogEntryRelocator.
(** Modelled from the spec: the LogEntryRelocator class is not part of
    ObjectManager.cc.  Section 4.6 and the glossary: the relocator copies
    a live entry to a new location in the log and yields its new
    reference, or rejects the append when the cleaner is out of memory. *)
Record t : Type := mk {
  hasMemory : bool;
  appendCalls : nat;
  newReference : option Reference
}.

Definition fresh (hasMemory : bool) : t := mk hasMemory 0 None.

Definition append (e : LogEntry) (r : t) (l : Log.t) : bool * t * Log.t :=
  if hasMemory r then
    let '(reference, l') := Log.append MAIN_LOG e l in
    (true, mk (hasMemory r) (S (appendCalls r)) (Some reference), l')
  else (false, mk (hasMemory r) (S (appendCalls r)) (newReference r), l).

Definition getNewReference (r : t) : Reference :=
  match newReference r with
  | Some reference => reference
  | None => 0%nat
  end.
End LogEntryRelocator.

(** ** The hash table *)

Module HashTable.
(** Modelled from the spec: the HashTable class is not part of
    ObjectManager.cc.  Section 4.2: the table stores references, not
    values; lookup yields a cursor over the candidates, all entries whose
    bucket matches that of the key; insert adds an entry to the bucket of
    its key; forEachInBucket visits the entries of one bucket.  Every slot
    keeps the bucket it was inserted in.  The order inside a bucket is
    unspecified; insert puts the new slot last. *)
Record t : Type := mk {
  numBuckets : Z;
  slots : list (Z * Reference)
}.

Definition empty (n : Z) : t := mk n [].

Definition getNumBuckets (h : t) : Z := numBuckets h.

Definition bucketOf `{Collaborators} (h : t) (k : Key) : Z :=
  keyHash k mod numBuckets h.

Definition insert `{Collaborators} (k : Key) (r : Reference) (h : t) : t :=
  mk (numBuckets h) (slots h ++ [(bucketOf h k, r)]).

Definition setSlots (s : list (Z * Reference)) (h : t) : t :=
  mk (numBuckets h) s.

(** The references forEachInBucket hands to its callback. *)
Definition inBucket (h : t) (i : Z) : list Reference :=
  map snd (filter (fun s => fst s =? i) (slots h)).
End HashTable.

(** ** The tablet registry *)

Module TabletManager.
Inductive TabletState : Type := NORMAL | RECOVERING.

Definition TabletState_eqb (a b : TabletState) : bool :=
  match a, b with
  | NORMAL, NORMAL | RECOVERING, RECOVERING => true
  | _, _ => false
  end.

(** Modelled from the spec: the TabletManager class is not part of
    ObjectManager.cc.  Section 6: getTablet(key) yields the tablet and its
    state, or none; the glossary: a tablet is a contiguous key range of a
    table, here a range of key hashes; incrementReadCount and
    incrementWriteCount keep telemetry. *)
Record Tablet : Type := mkTablet {
  tableId : Z;
  startKeyHash : Z;
  endKeyHash : Z;
  state : TabletState;
  readCount : Z;
  writeCount : Z
}.

Definition t : Type := list Tablet.

Definition covers `{Collaborators} (k : Key) (tablet : Tablet) : bool :=
  (tableId tablet =? getTableId k)
  && (startKeyHash tablet <=? keyHash k)
  && (keyHash k <=? endKeyHash tablet).

Definition getTablet `{Collaborators} (tm : t) (k : Key) : option Tablet :=
  find (covers k) tm.

Fixpoint incrementReadCount `{Collaborators} (k : Key) (tm : t) : t :=
  match tm with
  | [] => []
  | tablet :: rest =>
      if covers k tablet
      then mkTablet (tableId tablet) (startKeyHash tablet) (endKeyHash tablet)
                    (state tablet) (wrap64 (readCount tablet + 1))
                    (writeCount tablet) :: rest
      else tablet :: incrementReadCount k rest
  end.

Fixpoint incrementWriteCount `{Collaborators} (k : Key) (tm : t) : t :=
  match tm with
  | [] => []
  | tablet :: rest =>
      if covers k tablet
      then mkTablet (tableId tablet) (startKeyHash tablet) (endKeyHash tablet)
                    (state tablet) (readCount tablet)
                    (wrap64 (writeCount tablet + 1)) :: rest
      else tablet :: incrementWriteCount k rest
  end.
End TabletManager.

(** ** Assertions, exits and messages *)

(** How a call ends: it returns, an [assert] of it fails, or it runs into
    undefined behaviour, after which C++ says nothing about the program. *)
Inductive Exec (A : Type) : Type :=
| Done (a : A)
| AssertionFailure
| Undefined.
Arguments Done {A} a.
Arguments AssertionFailure {A}.
Arguments Undefined {A}.

Definition bind {A B : Type} (m : Exec A) (f : A -> Exec B) : Exec B :=
  match m with
  | Done a => f a
  | AssertionFailure => AssertionFailure
  | Undefined => Undefined
  end.

Notation "x <- m ;; k" := (bind m (fun x => k))
  (at level 61, m at next level, right associativity).
Notation "' p <- m ;; k" := (bind m (fun x => let 'p := x in k))
  (at level 61, p pattern, m at next level, right associativity).

Definition assert (b : bool) : Exec unit :=
  if b then Done tt else AssertionFailure.

(** How control leaves a C++ scope: by return, or by an exception that
    unwinds it.  Destructors of the scope's locals run in both cases. *)
Inductive Completion (A : Type) : Type :=
| Returns (a : A)
| Throws (a : A).
Arguments Returns {A} a.
Arguments Throws {A} a.

Definition completionState {A : Type} (c : Completion A) : A :=
  match c with
  | Returns a => a
  | Throws a => a
  end.

(** The messages logged at WARNING level. *)
Inductive LogMessage : Type :=
| BadObjectChecksum (key : Key) (version : Z)
| BadTombstoneChecksum (key : Key) (version : Z)
| BadSafeVersionChecksum (version : Z).

(** The counters of metrics->master that replaySegment maintains. *)
Record Metrics : Type := mkMetrics {
  recoverySegmentEntryCount : Z;
  objectAppendCount : Z;
  tombstoneAppendCount : Z;
  liveObjectCount : Z;
  objectDiscardCount : Z;
  tombstoneDiscardCount : Z;
  safeVersionRecoveryCount : Z;
  safeVersionNonRecoveryCount : Z
}.

Definition noMetrics : Metrics := mkMetrics 0 0 0 0 0 0 0 0.

Inductive Counter : Type :=
| RecoverySegmentEntryCount
| ObjectAppendCount
| TombstoneAppendCount
| LiveObjectCount
| ObjectDiscardCount
| TombstoneDiscardCount
| SafeVersionRecoveryCount
| SafeVersionNonRecoveryCount.

Definition increment (c : Counter) (m : Metrics) : Metrics :=
  match m with
  | mkMetrics a b c0 d e f g h =>
      match c with
      | RecoverySegmentEntryCount => mkMetrics (wrap64 (a + 1)) b c0 d e f g h
      | ObjectAppendCount => mkMetrics a (wrap64 (b + 1)) c0 d e f g h
      | TombstoneAppendCount => mkMetrics a b (wrap64 (c0 + 1)) d e f g h
      | LiveObjectCount => mkMetrics a b c0 (wrap64 (d + 1)) e f g h
      | ObjectDiscardCount => mkMetrics a b c0 d (wrap64 (e + 1)) f g h
      | TombstoneDiscardCount => mkMetrics a b c0 d e (wrap64 (f + 1)) g h
      | SafeVersionRecoveryCount => mkMetrics a b c0 d e f (wrap64 (g + 1)) h
      | SafeVersionNonRecoveryCount => mkMetrics a b c0 d e f g (wrap64 (h + 1))
      end
  end.

(** ** The state of an ObjectManager *)

(** The fields of RemoveTombstonePoller. *)
Record RemoveTombstonePoller : Type := mkPoller {
  currentBucket : Z;
  passes : Z;
  lastReplaySegmentCount : Z
}.

(** The members of ObjectManager that the operations read or write.
    [safeVersion] is the version floor kept by the segment manager;
    [warnings] collects what is logged at WARNING level. *)
Record ObjectManager : Type := mkObjectManager {
  tabletManager : TabletManager.t;
  log : Log.t;
  objectMap : HashTable.t;
  safeVersion : Z;
  anyWrites : bool;
  replaySegmentReturnCount : Z;
  tombstoneRemover : RemoveTombstonePoller;
  metrics : Metrics;
  warnings : list LogMessage
}.

Definition setTabletManager (x : TabletManager.t) (om : ObjectManager) :=
  mkObjectManager x (log om) (objectMap om) (safeVersion om) (anyWrites om)
    (replaySegmentReturnCount om) (tombstoneRemover om) (metrics om)
    (warnings om).

Definition setLog (x : Log.t) (om : ObjectManager) :=
  mkObjectManager (tabletManager om) x (objectMap om) (safeVersion om)
    (anyWrites om) (replaySegmentReturnCount om) (tombstoneRemover om)
    (metrics om) (warnings om).

Definition setObjectMap (x : HashTable.t) (om : ObjectManager) :=
  mkObjectManager (tabletManager om) (log om) x (safeVersion om)
    (anyWrites om) (replaySegmentReturnCount om) (tombstoneRemover om)
    (metrics om) (warnings om).

Definition setSafeVersion (x : Z) (om : ObjectManager) :=
  mkObjectManager (tabletManager om) (log om) (objectMap om) x
    (anyWrites om) (replaySegmentReturnCount om) (tombstoneRemover om)
    (metrics om) (warnings om).

Definition setAnyWrites (x : bool) (om : ObjectManager) :=
  mkObjectManager (tabletManager om) (log om) (objectMap om) (safeVersion om)
    x (replaySegmentReturnCount om) (tombstoneRemover om) (metrics om)
    (warnings om).

Definition setReplaySegmentReturnCount (x : Z) (om : ObjectManager) :=
  mkObjectManager (tabletManager om) (log om) (objectMap om) (safeVersion om)
    (anyWrites om) x (tombstoneRemover om) (metrics om) (warnings om).

Definition setTombstoneRemover (x : RemoveTombstonePoller)
  (om : ObjectManager) :=
  mkObjectManager (tabletManager om) (log om) (objectMap om) (safeVersion om)
    (anyWrites om) (replaySegmentReturnCount om) x (metrics om) (warnings om).

Definition setMetrics (x : Metrics) (om : ObjectManager) :=
  mkObjectManager (tabletManager om) (log om) (objectMap om) (safeVersion om)
    (anyWrites om) (replaySegmentReturnCount om) (tombstoneRemover om) x
    (warnings om).

Definition LOG_WARNING (m : LogMessage) (om : ObjectManager) :=
  mkObjectManager (tabletManager om) (log om) (objectMap om) (safeVersion om)
    (anyWrites om) (replaySegmentReturnCount om) (tombstoneRemover om)
    (metrics om) (warnings om ++ [m]).

Definition count (c : Counter) (om : ObjectManager) : ObjectManager :=
  setMetrics (increment c (metrics om)) om.

(** The state the constructor leaves: nothing logged or indexed, the version
    floor at 1 (section 4.3), no replay yet, the poller at bucket 0. *)
Definition construct (tablets : TabletManager.t) (hashTableBuckets : Z)
  : ObjectManager :=
  mkObjectManager tablets Log.empty (HashTable.empty hashTableBuckets) 1 false
    0 (mkPoller 0 0 0) noMetrics [].

(** Modelled from the spec: SegmentManager::allocateVersion is not part of
    ObjectManager.cc.  Section 4.3: allocate returns the current safeVersion,
    then increments it. *)
Definition allocateVersion (om : ObjectManager) : Z * ObjectManager :=
  (safeVersion om, setSafeVersion (wrap64 (safeVersion om + 1)) om).

(** Modelled from the spec: SegmentManager::raiseSafeVersion is not part of
    ObjectManager.cc.  Section 4.3: raise(v) sets safeVersion to v and
    returns true if v is greater than safeVersion, else returns false. *)
Definition raiseSafeVersion (minimum : Z) (om : ObjectManager)
  : bool * ObjectManager :=
  if safeVersion om <? minimum
  then (true, setSafeVersion minimum om)
  else (false, om).

(** ** The private helpers: lookup, remove, replace *)

Section Operations.
Context `{Collaborators}.

(** What lookup reports through outType, buffer and outReference.  The
    reference is also the start address of the buffer. *)
Inductive LookupResult : Type :=
| FoundObject (reference : Reference) (o : Object.t)
| FoundTombstone (reference : Reference) (t : ObjectTombstone.t)
| NotFound.

(** The body of the candidate loop that lookup, remove and replace share:
    fetch the candidate's entry from the log, decode its key, compare. *)
Definition examine (l : Log.t) (h : HashTable.t) (key : Key)
  (candidate : Z * Reference) : LookupResult :=
  if fst candidate =? HashTable.bucketOf h key then
    match Log.getEntry l (snd candidate) with
    | Some (EntryObject o) =>
        if Key_eqb key (Object.getKey o)
        then FoundObject (snd candidate) o else NotFound
    | Some (EntryTombstone t) =>
        if Key_eqb key (ObjectTombstone.getKey t)
        then FoundTombstone (snd candidate) t else NotFound
    | _ => NotFound
    end
  else NotFound.

Fixpoint lookupIn (l : Log.t) (h : HashTable.t) (key : Key)
  (candidates : list (Z * Reference)) : LookupResult :=
  match candidates with
  | [] => NotFound
  | candidate :: rest =>
      match examine l h key candidate with
      | NotFound => lookupIn l h key rest
      | found => found
      end
  end.

(** ObjectManager::lookup. *)
Definition lookup (om : ObjectManager) (key : Key) : LookupResult :=
  lookupIn (log om) (objectMap om) key (HashTable.slots (objectMap om)).

(** The version lookup stores through outVersion. *)
Definition foundVersion (found : LookupResult) : Z :=
  match found with
  | FoundObject _ o => Object.getVersion o
  | FoundTombstone _ t => ObjectTombstone.getObjectVersion t
  | NotFound => 0
  end.

Fixpoint removeIn (l : Log.t) (h : HashTable.t) (key : Key)
  (candidates : list (Z * Reference)) : bool * list (Z * Reference) :=
  match candidates with
  | [] => (false, [])
  | candidate :: rest =>
      match examine l h key candidate with
      | NotFound =>
          let '(removed, rest') := removeIn l h key rest in
          (removed, candidate :: rest')
      | _ => (true, rest)
      end
  end.

(** ObjectManager::remove. *)
Definition remove (om : ObjectManager) (key : Key) : bool * ObjectManager :=
  let '(removed, slots') :=
    removeIn (log om) (objectMap om) key (HashTable.slots (objectMap om)) in
  (removed, setObjectMap (HashTable.setSlots slots' (objectMap om)) om).

Fixpoint replaceIn (l : Log.t) (h : HashTable.t) (key : Key)
  (reference : Reference) (candidates : list (Z * Reference))
  : bool * list (Z * Reference) :=
  match candidates with
  | [] => (false, [])
  | candidate :: rest =>
      match examine l h key candidate with
      | NotFound =>
          let '(replaced, rest') := replaceIn l h key reference rest in
          (replaced, candidate :: rest')
      | _ => (true, (fst candidate, reference) :: rest)
      end
  end.

(** ObjectManager::replace. *)
Definition replace (om : ObjectManager) (key : Key) (reference : Reference)
  : bool * ObjectManager :=
  let '(replaced, slots') :=
    replaceIn (log om) (objectMap om) key reference
      (HashTable.slots (objectMap om)) in
  if replaced
  then (true, setObjectMap (HashTable.setSlots slots' (objectMap om)) om)
  else (false, setObjectMap (HashTable.insert key reference (objectMap om)) om).

(** ** The tombstone reaper *)

(** ObjectManager::removeIfTombstone. *)
Definition removeIfTombstone (maybeTomb : Reference) (om : ObjectManager)
  : Exec ObjectManager :=
  match Log.getEntry (log om) maybeTomb with
  | Some (EntryTombstone tomb) =>
      let key := ObjectTombstone.getKey tomb in
      let discard :=
        match TabletManager.getTablet (tabletManager om) key with
        | None => true
        | Some tablet =>
            negb (TabletManager.TabletState_eqb
                    (TabletManager.state tablet) TabletManager.RECOVERING)
        end in
      if discard then
        let '(r, om') := remove om key in
        _ <- assert r ;;
        Done om'
      else Done om
  | _ => Done om
  end.

(** HashTable::forEachInBucket with removeIfTombstone as the callback: the
    references found in the bucket are visited one after the other. *)
Fixpoint forEachRemoveIfTombstone (references : list Reference)
  (om : ObjectManager) : Exec ObjectManager :=
  match references with
  | [] => Done om
  | r :: rest =>
      om' <- removeIfTombstone r om ;;
      forEachRemoveIfTombstone rest om'
  end.

(** ObjectManager::RemoveTombstonePoller::poll. *)
Definition poll (om : ObjectManager) : Exec ObjectManager :=
  let p := tombstoneRemover om in
  if (lastReplaySegmentCount p =? replaySegmentReturnCount om)
     && (currentBucket p =? 0)
  then Done om
  else
    let p :=
      if currentBucket p =? 0
      then mkPoller (currentBucket p) (passes p) (replaySegmentReturnCount om)
      else p in
    om <- forEachRemoveIfTombstone
            (HashTable.inBucket (objectMap om) (currentBucket p)) om ;;
    let p := mkPoller (wrap64 (currentBucket p + 1)) (passes p)
               (lastReplaySegmentCount p) in
    let p :=
      if currentBucket p =? HashTable.getNumBuckets (objectMap om)
      then mkPoller 0 (wrap64 (passes p + 1)) (lastReplaySegmentCount p)
      else p in
    Done (setTombstoneRemover p om).

(** ** Client operations *)

(** [Object newObject(key, value, version, timestamp)]. *)
Definition newObject (key : Key) (value : string) (version timestamp : Z)
  : Object.t :=
  let o := Object.mk (getTableId key) (getStringKey key) version timestamp 0
             value in
  Object.setChecksum (computeObjectChecksum o) o.

(** [ObjectTombstone tombstone(object, segmentId, timestamp)]. *)
Definition newTombstone (object : Object.t) (segmentId timestamp : Z)
  : ObjectTombstone.t :=
  let t := ObjectTombstone.mk (Object.tableId object) (Object.key object)
             segmentId (Object.getVersion object) timestamp 0 in
  ObjectTombstone.setChecksum (computeTombstoneChecksum t) t.

(** What an operation has stored through outVersion when it returns: nothing
    if the pointer is NULL or the path taken does not assign it. *)
Definition store (outVersion : bool) (v : Z) : option Z :=
  if outVersion then Some v else None.

Definition applyRejectRules (rejectRules : option RejectRules) (version : Z)
  : Status :=
  match rejectRules with
  | Some rules => rejectOperation rules version
  | None => STATUS_OK
  end.

(** ObjectManager::writeObject.  [rejectRules = None] and
    [outVersion = false] stand for NULL pointers; [now] and [later] are the
    answers of the two calls of WallTime::secondsTimestamp, the first for
    the new object and the second for the tombstone; [logHasSpace] is
    whether log.append succeeds.  The result is the status, what was stored
    through outVersion, and the new state.

    When lookup finds a tombstone the code calls
    removeIfTombstone(currentReference.toInteger(), this).  That callback
    reads its cookie as a CleanupParameters*, which an ObjectManager* is
    not, and works on the pointers it finds there: the behaviour is
    undefined. *)
Definition writeObject (om : ObjectManager) (key : Key) (value : string)
  (rejectRules : option RejectRules) (outVersion : bool) (now later : Z)
  (logHasSpace : bool) : Exec (Status * option Z * ObjectManager) :=
  let om := if anyWrites om then om else setAnyWrites true om in
  match TabletManager.getTablet (tabletManager om) key with
  | None => Done (STATUS_UNKNOWN_TABLET, None, om)
  | Some tablet =>
    if negb (TabletManager.TabletState_eqb (TabletManager.state tablet)
               TabletManager.NORMAL)
    then Done (STATUS_UNKNOWN_TABLET, None, om)
    else
      let current := lookup om key in
      ' (currentVersion, om) <-
        match current with
        | FoundTombstone _ _ => Undefined
        | FoundObject _ currentObject =>
            Done (Object.getVersion currentObject, om)
        | NotFound => Done (VERSION_NONEXISTENT, om)
        end ;;
      let status := applyRejectRules rejectRules currentVersion in
      if negb (Status_eqb status STATUS_OK)
      then Done (status, store outVersion currentVersion, om)
      else
        let '(newObjectVersion, om) :=
          if currentVersion =? VERSION_NONEXISTENT
          then allocateVersion om
          else (wrap64 (currentVersion + 1), om) in
        let newObj := newObject key value newObjectVersion now in
        _ <- assert ((currentVersion =? VERSION_NONEXISTENT)
                     || (currentVersion <? Object.getVersion newObj)) ;;
        let tombstone :=
          match current with
          | FoundObject currentReference object =>
              if negb (currentVersion =? VERSION_NONEXISTENT)
              then Some (currentReference,
                         newTombstone object (getSegmentId currentReference)
                           later)
              else None
          | _ => None
          end in
        if negb logHasSpace
        then Done (STATUS_RETRY, None, om)
        else
          let '(reference, l) :=
            Log.append MAIN_LOG (EntryObject newObj) (log om) in
          let l :=
            match tombstone with
            | Some (_, tomb) =>
                snd (Log.append MAIN_LOG (EntryTombstone tomb) l)
            | None => l
            end in
          let om := setLog l om in
          let om := snd (replace om key reference) in
          let om :=
            match tombstone with
            | Some (currentReference, _) =>
                setLog (Log.free MAIN_LOG currentReference (log om)) om
            | None => om
            end in
          let om :=
            setTabletManager
              (TabletManager.incrementWriteCount key (tabletManager om)) om in
          Done (STATUS_OK, store outVersion (Object.getVersion newObj), om)
  end.

(** ObjectManager::syncWrites. *)
Definition syncWrites (om : ObjectManager) : ObjectManager :=
  setLog (Log.sync (log om)) om.

(** ObjectManager::readObject.  The result is the status, what was stored
    through outVersion, what was appended to outBuffer, and the new state. *)
Definition readObject (om : ObjectManager) (key : Key)
  (rejectRules : option RejectRules) (outVersion : bool)
  : Status * option Z * option string * ObjectManager :=
  match TabletManager.getTablet (tabletManager om) key with
  | None => (STATUS_UNKNOWN_TABLET, None, None, om)
  | Some tablet =>
    if negb (TabletManager.TabletState_eqb (TabletManager.state tablet)
               TabletManager.NORMAL)
    then (STATUS_UNKNOWN_TABLET, None, None, om)
    else
      match lookup om key with
      | FoundObject _ object =>
          let version := Object.getVersion object in
          let status := applyRejectRules rejectRules version in
          if negb (Status_eqb status STATUS_OK)
          then (status, store outVersion version, None, om)
          else
            (STATUS_OK, store outVersion version, Some (Object.data object),
             setTabletManager
               (TabletManager.incrementReadCount key (tabletManager om)) om)
      | _ => (STATUS_OBJECT_DOESNT_EXIST, None, None, om)
      end
  end.

(** ObjectManager::removeObject. *)
Definition removeObject (om : ObjectManager) (key : Key)
  (rejectRules : option RejectRules) (outVersion : bool) (now : Z)
  (logHasSpace : bool) : Status * option Z * ObjectManager :=
  match TabletManager.getTablet (tabletManager om) key with
  | None => (STATUS_UNKNOWN_TABLET, None, om)
  | Some tablet =>
    if negb (TabletManager.TabletState_eqb (TabletManager.state tablet)
               TabletManager.NORMAL)
    then (STATUS_UNKNOWN_TABLET, None, om)
    else
      match lookup om key with
      | FoundObject reference object =>
          let status :=
            applyRejectRules rejectRules (Object.getVersion object) in
          if negb (Status_eqb status STATUS_OK)
          then (status, store outVersion (Object.getVersion object), om)
          else
            let tombstone :=
              newTombstone object (getSegmentId reference) now in
            if negb logHasSpace
            then (STATUS_RETRY, store outVersion (Object.getVersion object), om)
            else
              let om :=
                setLog (snd (Log.append MAIN_LOG (EntryTombstone tombstone)
                               (log om))) om in
              let om := setLog (Log.sync (log om)) om in
              let om :=
                snd (raiseSafeVersion (wrap64 (Object.getVersion object + 1))
                       om) in
              let om := setLog (Log.free MAIN_LOG reference (log om)) om in
              let om := snd (remove om key) in
              (STATUS_OK, store outVersion (Object.getVersion object), om)
      | _ =>
          let rules :=
            match rejectRules with
            | Some rules => rules
            | None => defaultRejectRules
            end in
          (rejectOperation rules VERSION_NONEXISTENT, None, om)
      end
  end.

(** ** Recovery replay *)

(** DelayedIncrementer<T>: the constructor stores the pointer to the
    incrementee and nothing else; the destructor increments it. *)
Definition DelayedIncrementer_construct (om : ObjectManager) : ObjectManager :=
  om.

Definition DelayedIncrementer_destroy (om : ObjectManager) : ObjectManager :=
  setReplaySegmentReturnCount (wrap64 (replaySegmentReturnCount om + 1)) om.

(** A scope that declares a DelayedIncrementer on replaySegmentReturnCount
    and then runs [body]: the destructor runs however the body is left. *)
Definition withDelayedIncrementer
  (body : ObjectManager -> Completion ObjectManager) (om : ObjectManager)
  : Completion ObjectManager :=
  match body (DelayedIncrementer_construct om) with
  | Returns om' => Returns (DelayedIncrementer_destroy om')
  | Throws om' => Throws (DelayedIncrementer_destroy om')
  end.

(** The minSuccessor and freeCurrentEntry that the OBJECT branch of
    replaySegment computes from the lookup of the replayed key. *)
Definition objectMinSuccessor (current : LookupResult) : Z * bool :=
  match current with
  | FoundTombstone _ currentTombstone =>
      (wrap64 (ObjectTombstone.getObjectVersion currentTombstone + 1), false)
  | FoundObject _ currentObject =>
      (wrap64 (Object.getVersion currentObject + 1), true)
  | NotFound => (0, false)
  end.

(** The same for the TOMBSTONE branch. *)
Definition tombstoneMinSuccessor (current : LookupResult) : Z * bool :=
  match current with
  | FoundTombstone _ currentTombstone =>
      (wrap64 (ObjectTombstone.getObjectVersion currentTombstone + 1), false)
  | FoundObject _ currentObject => (Object.getVersion currentObject, true)
  | NotFound => (0, false)
  end.

(** currentReference as lookup leaves it; a default-constructed reference
    when nothing was found (it is not used then). *)
Definition foundReference (current : LookupResult) : Reference :=
  match current with
  | FoundObject r _ => r
  | FoundTombstone r _ => r
  | NotFound => 0%nat
  end.

(** One iteration of the loop of replaySegment, entered with the iterator at
    entry [e].  The result of sideLog->append is not looked at by the code;
    the append is taken to succeed. *)
Definition replayEntry (om : ObjectManager) (e : LogEntry) : ObjectManager :=
  let om := count RecoverySegmentEntryCount om in
  match e with
  | EntryObject recoveryObj =>
      let key := Object.getKey recoveryObj in
      let checksumIsValid :=
        computeObjectChecksum recoveryObj =? Object.checksum recoveryObj in
      let om :=
        if negb checksumIsValid
        then LOG_WARNING (BadObjectChecksum key (Object.version recoveryObj)) om
        else om in
      let current := lookup om key in
      let '(minSuccessor, freeCurrentEntry) := objectMinSuccessor current in
      if minSuccessor <=? Object.version recoveryObj then
        let '(newObjReference, l) :=
          Log.append SIDE_LOG (EntryObject recoveryObj) (log om) in
        let om := setLog l om in
        let om := count ObjectAppendCount om in
        let om := snd (replace om key newObjReference) in
        if freeCurrentEntry
        then setLog (Log.free SIDE_LOG (foundReference current) (log om)) om
        else count LiveObjectCount om
      else count ObjectDiscardCount om
  | EntryTombstone recoverTomb =>
      let key := ObjectTombstone.getKey recoverTomb in
      let checksumIsValid :=
        computeTombstoneChecksum recoverTomb
        =? ObjectTombstone.checksum recoverTomb in
      let om :=
        if negb checksumIsValid
        then LOG_WARNING
               (BadTombstoneChecksum key
                  (ObjectTombstone.getObjectVersion recoverTomb)) om
        else om in
      let current := lookup om key in
      let '(minSuccessor, freeCurrentEntry) := tombstoneMinSuccessor current in
      if minSuccessor <=? ObjectTombstone.getObjectVersion recoverTomb then
        let om := count TombstoneAppendCount om in
        let '(newTombReference, l) :=
          Log.append SIDE_LOG (EntryTombstone recoverTomb) (log om) in
        let om := setLog l om in
        let om := snd (replace om key newTombReference) in
        if freeCurrentEntry
        then
          let om := count LiveObjectCount om in
          setLog (Log.free SIDE_LOG (foundReference current) (log om)) om
        else om
      else count TombstoneDiscardCount om
  | EntrySafeVersion recoverSafeVer =>
      let safeVersion := ObjectSafeVersion.getSafeVersion recoverSafeVer in
      let checksumIsValid :=
        computeSafeVersionChecksum recoverSafeVer
        =? ObjectSafeVersion.checksum recoverSafeVer in
      let om :=
        if negb checksumIsValid
        then LOG_WARNING (BadSafeVersionChecksum safeVersion) om
        else om in
      let om :=
        setLog (snd (Log.append SIDE_LOG (EntrySafeVersion recoverSafeVer)
                       (log om))) om in
      let '(raised, om) := raiseSafeVersion safeVersion om in
      if raised
      then count SafeVersionRecoveryCount om
      else count SafeVersionNonRecoveryCount om
  end.

(** The while loop of replaySegment over the entries the iterator yields. *)
Fixpoint replayLoop (om : ObjectManager) (it : list LogEntry) : ObjectManager :=
  match it with
  | [] => om
  | e :: rest => replayLoop (replayEntry om e) rest
  end.

(** ObjectManager::replaySegment.  The segment is the list of entries its
    iterator yields. *)
Definition replaySegment (om : ObjectManager) (it : list LogEntry)
  : Completion ObjectManager :=
  withDelayedIncrementer (fun om => Returns (replayLoop om it)) om.

(** ** The cleaner callback *)

(** ObjectManager::relocateObject.  [oldStart] is the start address of
    oldBuffer and [oldObject] the object stored there. *)
Definition relocateObject (om : ObjectManager) (oldStart : Reference)
  (oldObject : Object.t) (relocator : LogEntryRelocator.t)
  : Exec (LogEntryRelocator.t * ObjectManager) :=
  let key := Object.getKey oldObject in
  match TabletManager.getTablet (tabletManager om) key with
  | None => Done (relocator, snd (remove om key))
  | Some tablet =>
      match lookup om key with
      | NotFound => Done (relocator, om)
      | current =>
          _ <- assert (match current with
                       | FoundObject _ _ => true
                       | _ => false
                       end) ;;
          let keepNewObject := Nat.eqb (foundReference current) oldStart in
          if keepNewObject then
            let '(appended, relocator, l) :=
              LogEntryRelocator.append (EntryObject oldObject) relocator
                (log om) in
            if negb appended
            then Done (relocator, setLog l om)
            else
              let om := setLog l om in
              Done (relocator,
                    snd (replace om key
                           (LogEntryRelocator.getNewReference relocator)))
          else Done (relocator, om)
      end
  end.

End Operations.

(** ** Maintenance and the cleaner's other callbacks *)

Section Maintenance.
Context `{Collaborators}.

(** ObjectManager::removeIfOrphanedObject.  The one-argument getTablet(key)
    tells whether the registry has a tablet for the key. *)
Definition removeIfOrphanedObject (reference : Reference) (om : ObjectManager)
  : Exec ObjectManager :=
  match Log.getEntry (log om) reference with
  | Some (EntryObject object) =>
      let key := Object.getKey object in
      match TabletManager.getTablet (tabletManager om) key with
      | None =>
          let '(r, om') := remove om key in
          _ <- assert r ;;
          Done (setLog (Log.free MAIN_LOG reference (log om')) om')
      | Some _ => Done om
      end
  | _ => Done om
  end.

(** HashTable::forEachInBucket with removeIfOrphanedObject as the
    callback. *)
Fixpoint forEachRemoveIfOrphanedObject (references : list Reference)
  (om : ObjectManager) : Exec ObjectManager :=
  match references with
  | [] => Done om
  | r :: rest =>
      om' <- removeIfOrphanedObject r om ;;
      forEachRemoveIfOrphanedObject rest om'
  end.

(** The loop [for (uint64_t i = 0; i < objectMap.getNumBuckets(); i++)]
    that removeOrphanedObjects and removeTombstones share, at bucket [i]
    with [remaining] buckets to go.  Neither callback changes the number of
    buckets. *)
Fixpoint forBuckets (body : Z -> ObjectManager -> Exec ObjectManager)
  (i : Z) (remaining : nat) (om : ObjectManager) : Exec ObjectManager :=
  match remaining with
  | O => Done om
  | S remaining' =>
      om' <- body i om ;;
      forBuckets body (wrap64 (i + 1)) remaining' om'
  end.

(** ObjectManager::removeOrphanedObjects. *)
Definition removeOrphanedObjects (om : ObjectManager) : Exec ObjectManager :=
  forBuckets
    (fun i om =>
       forEachRemoveIfOrphanedObject (HashTable.inBucket (objectMap om) i) om)
    0 (Z.to_nat (HashTable.getNumBuckets (objectMap om))) om.

(** ObjectManager::removeTombstones. *)
Definition removeTombstones (om : ObjectManager) : Exec ObjectManager :=
  forBuckets
    (fun i om =>
       forEachRemoveIfTombstone (HashTable.inBucket (objectMap om) i) om)
    0 (Z.to_nat (HashTable.getNumBuckets (objectMap om))) om.

(** ObjectManager::getObjectTimestamp. *)
Definition getObjectTimestamp (object : Object.t) : Z :=
  Object.getTimestamp object.

(** ObjectManager::getTombstoneTimestamp. *)
Definition getTombstoneTimestamp (tomb : ObjectTombstone.t) : Z :=
  ObjectTombstone.getTimestamp tomb.

(** ObjectManager::getTimestamp.  The entry stands for the pair (type,
    buffer) the log passes. *)
Definition getTimestamp (e : LogEntry) : Z :=
  match e with
  | EntryObject object => getObjectTimestamp object
  | EntryTombstone tomb => getTombstoneTimestamp tomb
  | EntrySafeVersion _ => 0
  end.

(** ObjectManager::relocateTombstone.  [segmentExists] is the answer of
    log.segmentExists; [oldTomb] is the tombstone stored in oldBuffer. *)
Definition relocateTombstone (segmentExists : Z -> bool) (om : ObjectManager)
  (oldTomb : ObjectTombstone.t) (relocator : LogEntryRelocator.t)
  : LogEntryRelocator.t * ObjectManager :=
  let keepNewTomb := segmentExists (ObjectTombstone.getSegmentId oldTomb) in
  if keepNewTomb then
    let '(_, relocator, l) :=
      LogEntryRelocator.append (EntryTombstone oldTomb) relocator (log om) in
    (relocator, setLog l om)
  else (relocator, om).

(** ObjectManager::relocate.  [oldStart] is the start address of oldBuffer
    and [e] the entry stored there, with its type. *)
Definition relocate (segmentExists : Z -> bool) (om : ObjectManager)
  (oldStart : Reference) (e : LogEntry) (relocator : LogEntryRelocator.t)
  : Exec (LogEntryRelocator.t * ObjectManager) :=
  match e with
  | EntryObject oldObject => relocateObject om oldStart oldObject relocator
  | EntryTombstone oldTomb =>
      Done (relocateTombstone segmentExists om oldTomb relocator)
  | EntrySafeVersion _ => Done (relocator, om)
  end.

End Maintenance.

(** ** Invariants of the index *)

(** The key that the entry behind a slot of the hash table decodes to. *)
Definition slotKey (l : Log.t) (slot : Z * Reference) : option Key :=
  match Log.getEntry l (snd slot) with
  | Some e => entryKey e
  | None => None
  end.

Definition indexedKeys (l : Log.t) (slots : list (Z * Reference)) : list Key :=
  flat_map (fun slot => match slotKey l slot with
                        | Some k => [k]
                        | None => []
                        end) slots.

Fixpoint noDuplicateKey (keys : list Key) : bool :=
  match keys with
  | [] => true
  | k :: rest => negb (existsb (Key_eqb k) rest) && noDuplicateKey rest
  end.

Definition referencesResolve (l : Log.t) (slots : list (Z * Reference))
  : bool :=
  forallb (fun slot => Nat.ltb (snd slot) (List.length (Log.memory l))) slots.

(** Invariants 1 and 2 of the data model (section 3): every reference in the
    index resolves to an entry of the log, and the index holds at most one
    reference per key. *)
Definition indexInvariant (om : ObjectManager) : bool :=
  referencesResolve (log om) (HashTable.slots (objectMap om))
  && noDuplicateKey (indexedKeys (log om) (HashTable.slots (objectMap om))).

(** A slot is well placed when its reference resolves to an entry that has
    a key and the slot sits in the bucket of that key. *)
Definition slotWellPlaced `{Collaborators} (l : Log.t) (h : HashTable.t)
  (slot : Z * Reference) : bool :=
  match slotKey l slot with
  | Some k => fst slot =? HashTable.bucketOf h k
  | None => false
  end.

(** The invariant that the operations of the object manager maintain, from
    the state its constructor leaves: every slot is well placed and no key
    is indexed twice.  It implies [indexInvariant]. *)
Definition wellFormed `{Collaborators} (om : ObjectManager) : bool :=
  forallb (slotWellPlaced (log om) (objectMap om))
    (HashTable.slots (objectMap om))
  && noDuplicateKey (indexedKeys (log om) (HashTable.slots (objectMap om))).

(** What lookup reports when the candidate's entry is [e]. *)
Definition foundAt (r : Reference) (e : LogEntry) : LookupResult :=
  match e with
  | EntryObject o => FoundObject r o
  | EntryTombstone t => FoundTombstone r t
  | EntrySafeVersion _ => NotFound
  end.

(** Two logs agree on a list of slots when they resolve each slot's
    reference to the same entry. *)
Definition agreeOn (l l' : Log.t) (slots : list (Z * Reference)) : Prop :=
  forall slot,
    In slot slots -> Log.getEntry l' (snd slot) = Log.getEntry l (snd slot).

(** The version the index currently holds for a key, as writeObject
    computes it: VERSION_NONEXISTENT unless an object is indexed. *)
Definition currentVersionOf `{Collaborators} (om : ObjectManager) (key : Key)
  : Z :=
  match lookup om key with
  | FoundObject _ o => Object.getVersion o
  | _ => VERSION_NONEXISTENT
  end.

(** The effect of removeIfTombstone when it decides to discard: the index
    entry of the key goes, and nothing else changes. *)
Definition tombstoneDiscarded `{Collaborators} (om om' : ObjectManager)
  (key : Key) : Prop :=
  lookup om' key = NotFound
  /\ (forall key', key' <> key -> lookup om' key' = lookup om key')
  /\ log om' = log om
  /\ tabletManager om' = tabletManager om
  /\ safeVersion om' = safeVersion om.

(** ** Replay with and without checksum failures *)

Definition checksumIsValid `{Collaborators} (e : LogEntry) : bool :=
  match e with
  | EntryObject o => computeObjectChecksum o =? Object.checksum o
  | EntryTombstone t => computeTombstoneChecksum t =? ObjectTombstone.checksum t
  | EntrySafeVersion s =>
      computeSafeVersionChecksum s =? ObjectSafeVersion.checksum s
  end.


(** The same collaborators, except that every stored checksum verifies. *)
Definition trusting (c : Collaborators) : Collaborators :=
  {| keyHash := @keyHash c;
     computeObjectChecksum := Object.checksum;
     computeTombstoneChecksum := ObjectTombstone.checksum;
     computeSafeVersionChecksum := ObjectSafeVersion.checksum;
     getSegmentId := @getSegmentId c |}.


(** ** Vocabulary of the further properties *)

Section Vocabulary.
Context `{Collaborators}.

(** Whether the operations serve a key: its tablet exists and is NORMAL. *)
Definition served (tm : TabletManager.t) (key : Key) : bool :=
  match TabletManager.getTablet tm key with
  | Some tablet =>
      TabletManager.TabletState_eqb (TabletManager.state tablet)
        TabletManager.NORMAL
  | None => false
  end.

(** The state in which writeObject looks the key up: the first write has
    been noted. *)
Definition noted (om : ObjectManager) : ObjectManager :=
  if anyWrites om then om else setAnyWrites true om.

(** The version writeObject gives the new object. *)
Definition nextVersion (om : ObjectManager) (key : Key) : Z :=
  if currentVersionOf om key =? VERSION_NONEXISTENT
  then safeVersion om
  else wrap64 (currentVersionOf om key + 1).

(** The state in which writeObject appends: a version has been allocated
    if the key had none. *)
Definition versioned (om : ObjectManager) (key : Key) : ObjectManager :=
  if currentVersionOf om key =? VERSION_NONEXISTENT
  then setSafeVersion (wrap64 (safeVersion om + 1)) (noted om)
  else noted om.

(** The reference of the object that writeObject replaces, and the
    tombstone it writes for it, stamped with the second reading of the
    clock. *)
Definition superseded (om : ObjectManager) (key : Key) (later : Z)
  : option (Reference * ObjectTombstone.t) :=
  match lookup om key with
  | FoundObject currentReference object =>
      if negb (currentVersionOf om key =? VERSION_NONEXISTENT)
      then Some (currentReference,
                 newTombstone object (getSegmentId currentReference) later)
      else None
  | _ => None
  end.

(** The log after the append of writeObject. *)
Definition appended (om : ObjectManager) (key : Key) (value : string)
  (now later : Z) : Log.t :=
  let newObj := newObject key value (nextVersion om key) now in
  let l := snd (Log.append MAIN_LOG (EntryObject newObj) (log om)) in
  match superseded om key later with
  | Some (_, tomb) => snd (Log.append MAIN_LOG (EntryTombstone tomb) l)
  | None => l
  end.

(** The state a successful writeObject leaves. *)
Definition stored (om : ObjectManager) (key : Key) (value : string)
  (now later : Z) : ObjectManager :=
  let om3 :=
    snd (replace (setLog (appended om key value now later) (versioned om key))
           key (List.length (Log.memory (log om)))) in
  let om4 :=
    match superseded om key later with
    | Some (currentReference, _) =>
        setLog (Log.free MAIN_LOG currentReference (log om3)) om3
    | None => om3
    end in
  setTabletManager
    (TabletManager.incrementWriteCount key (tabletManager om4)) om4.

(** The entries that replaySegment has accounted for as appended or
    discarded. *)
Definition settled (m : Metrics) : Z :=
  objectAppendCount m + objectDiscardCount m + tombstoneAppendCount m
  + tombstoneDiscardCount m + safeVersionRecoveryCount m
  + safeVersionNonRecoveryCount m.

(** A version that can be incremented without wrapping around. *)
Definition versionInRange (v : Z) : bool := (0 <=? v) && (v <? UINT64_MAX).

(** An entry whose version can be incremented without wrapping around. *)
Definition entryInRange (e : LogEntry) : bool :=
  match e with
  | EntryObject o => versionInRange (Object.version o)
  | EntryTombstone t => versionInRange (ObjectTombstone.getObjectVersion t)
  | EntrySafeVersion _ => true
  end.

(** Every entry that the index refers to has its version in range. *)
Definition indexInRange (om : ObjectManager) : bool :=
  forallb (fun slot => match Log.getEntry (log om) (snd slot) with
                       | Some e => entryInRange e
                       | None => true
                       end) (HashTable.slots (objectMap om)).

(** Replaying the entry now would change neither the index nor the version
    floor: an object or tombstone is below the minSuccessor of what the
    index holds for its key, a safe version is not above the floor. *)
Definition stale (om : ObjectManager) (e : LogEntry) : bool :=
  match e with
  | EntryObject o =>
      negb (fst (objectMinSuccessor (lookup om (Object.getKey o)))
            <=? Object.version o)
  | EntryTombstone t =>
      negb (fst (tombstoneMinSuccessor
                   (lookup om (ObjectTombstone.getKey t)))
            <=? ObjectTombstone.getObjectVersion t)
  | EntrySafeVersion s =>
      ObjectSafeVersion.getSafeVersion s <=? safeVersion om
  end.

(** Whatever lookup finds has its version in range. *)
Definition lookupsInRange (om : ObjectManager) : Prop :=
  forall key, 0 <= foundVersion (lookup om key) < UINT64_MAX.

(** What a sweep of the hash table leaves as it was. *)
Definition sameExceptIndex (om om' : ObjectManager) : Prop :=
  Log.memory (log om') = Log.memory (log om)
  /\ Log.syncCount (log om') = Log.syncCount (log om)
  /\ tabletManager om' = tabletManager om
  /\ safeVersion om' = safeVersion om
  /\ anyWrites om' = anyWrites om
  /\ replaySegmentReturnCount om' = replaySegmentReturnCount om
  /\ tombstoneRemover om' = tombstoneRemover om
  /\ HashTable.numBuckets (objectMap om')
     = HashTable.numBuckets (objectMap om).

(** The entry that lookup has found. *)
Definition entryOf (found : LookupResult) : option LogEntry :=
  match found with
  | FoundObject _ o => Some (EntryObject o)
  | FoundTombstone _ t => Some (EntryTombstone t)
  | NotFound => None
  end.

(** The key of the entry at a reference. *)
Definition keyAt (l : Log.t) (r : Reference) : option Key :=
  match Log.getEntry l r with
  | Some e => entryKey e
  | None => None
  end.

(** A callback of a sweep has removed the entry of [key], found at [r];
    [frees] tells whether it has also freed the reference in the log. *)
Definition sweptOut (frees : bool) (om om1 : ObjectManager) (key : Key)
  (r : Reference) : Prop :=
  lookup om1 key = NotFound
  /\ (forall key', key' <> key -> lookup om1 key' = lookup om key')
  /\ wellFormed om1 = true
  /\ sameExceptIndex om om1
  /\ Log.freed (log om1)
     = Log.freed (log om) ++ (if frees then [(MAIN_LOG, r)] else []).

(** Whether a sweep whose callback drops the entries that [drop] selects
    removes the entry at [r]. *)
Definition dropped (drop : TabletManager.t -> LogEntry -> bool)
  (om : ObjectManager) (r : Reference) : bool :=
  match Log.getEntry (log om) r with
  | Some e => drop (tabletManager om) e
  | None => false
  end.

(** What the index holds for a key once every entry that [drop] selects
    is gone. *)
Definition swept (drop : TabletManager.t -> LogEntry -> bool)
  (om : ObjectManager) (key : Key) : LookupResult :=
  match entryOf (lookup om key) with
  | Some e => if drop (tabletManager om) e then NotFound else lookup om key
  | None => NotFound
  end.

(** HashTable::forEachInBucket over the references of a bucket, for any
    callback; forEachRemoveIfTombstone and forEachRemoveIfOrphanedObject are
    its instances. *)
Fixpoint forEach (callback : Reference -> ObjectManager -> Exec ObjectManager)
  (references : list Reference) (om : ObjectManager) : Exec ObjectManager :=
  match references with
  | [] => Done om
  | r :: rest => om' <- callback r om ;; forEach callback rest om'
  end.

(** Every reference of the list is what lookup finds for the key of its
    entry: the list is part of what the index holds. *)
Definition visitable (om : ObjectManager) (references : list Reference)
  : Prop :=
  forall r e key,
    In r references ->
    Log.getEntry (log om) r = Some e ->
    entryKey e = Some key ->
    lookup om key = foundAt r e.

(** Whether an entry of the key is among the references. *)
Definition visits (l : Log.t) (references : list Reference) (key : Key)
  : bool :=
  existsb (fun r => match keyAt l r with
                    | Some k => Key_eqb key k
                    | None => false
                    end) references.

(** The condition under which removeIfTombstone discards the tombstone of
    a key: its tablet is not in the registry, or is not RECOVERING. *)
Definition discardable (tm : TabletManager.t) (key : Key) : bool :=
  match TabletManager.getTablet tm key with
  | None => true
  | Some tablet =>
      negb (TabletManager.TabletState_eqb (TabletManager.state tablet)
              TabletManager.RECOVERING)
  end.

(** The entries that removeIfTombstone removes from the index. *)
Definition dropsTombstone (tm : TabletManager.t) (e : LogEntry) : bool :=
  match e with
  | EntryTombstone t => discardable tm (ObjectTombstone.getKey t)
  | _ => false
  end.

(** The entries that removeIfOrphanedObject removes from the index. *)
Definition dropsOrphan (tm : TabletManager.t) (e : LogEntry) : bool :=
  match e with
  | EntryObject o =>
      match TabletManager.getTablet tm (Object.getKey o) with
      | None => true
      | Some _ => false
      end
  | _ => false
  end.

(** What removeTombstones and poll do with one bucket. *)
Definition reapBucket (i : Z) (om : ObjectManager) : Exec ObjectManager :=
  forEachRemoveIfTombstone (HashTable.inBucket (objectMap om) i) om.

(** [n] invocations of poll in a row, as the dispatcher makes them. *)
Fixpoint pollTimes (n : nat) (om : ObjectManager) : Exec ObjectManager :=
  match n with
  | O => Done om
  | S n' => om' <- poll om ;; pollTimes n' om'
  end.

(** The poller after it has dealt with bucket [i] of [n]. *)
Definition advanced (p : RemoveTombstonePoller) (count i n : Z)
  : RemoveTombstonePoller :=
  let last := if currentBucket p =? 0 then count
              else lastReplaySegmentCount p in
  if i =? n then mkPoller 0 (wrap64 (passes p + 1)) last
  else mkPoller i (passes p) last.

End Vocabulary.

(** ** Concrete collaborators and states *)

Module Example.
(** Collaborators for evaluating the operations: a hash that spreads keys
    over buckets, checksums that are right exactly when they are 0, and
    segments of four entries. *)
Definition collaborators : Collaborators :=
  {| keyHash :=
       fun k => getTableId k + Z.of_nat (String.length (getStringKey k));
     computeObjectChecksum := fun _ => 0;
     computeTombstoneChecksum := fun _ => 0;
     computeSafeVersionChecksum := fun _ => 0;
     getSegmentId := fun r => Z.of_nat (r / 4) |}.

Definition T : Z := 7.

Definition k : Key := mkKey T "k".

Definition tablet (s : TabletManager.TabletState) : TabletManager.Tablet :=
  TabletManager.mkTablet T 0 UINT64_MAX s 0 0.

Definition recovering : ObjectManager :=
  construct [tablet TabletManager.RECOVERING] 8.

Definition normal : ObjectManager :=
  construct [tablet TabletManager.NORMAL] 8.

Definition object (version : Z) (value : string) : Object.t :=
  Object.mk T "k" version 0 0 value.

Definition tombstone (version : Z) : ObjectTombstone.t :=
  ObjectTombstone.mk T "k" 0 version 0 0.


(** The tablet leaves RECOVERING: what the recovery orchestrator does
    after the last replaySegment. *)
Definition finishRecovery (om : ObjectManager) : ObjectManager :=
  setTabletManager [tablet TabletManager.NORMAL] om.

(** Key k indexed as an object of version [v], tablet NORMAL: the object
    arrived by replay and recovery has finished. *)
Definition holding (v : Z) : ObjectManager :=
  finishRecovery
    (completionState
       (@replaySegment collaborators recovering
          [EntryObject (object v "old")])).

(** The state a successful writeObject leaves (the state it was given if
    the write does not complete). *)
Definition afterWrite (om : ObjectManager) (key : Key) (value : string)
  : ObjectManager :=
  match @writeObject collaborators om key value None false 0 1 true with
  | Done (_, _, om') => om'
  | _ => om
  end.

(** A second key of tablet T. *)
Definition k2 : Key := mkKey T "k2".

(** A version allocator that has wrapped around: recovery replayed a
    SAFEVERSION entry of 2^64 - 1, and the first write then took that
    version. *)
Definition exhausted : ObjectManager :=
  afterWrite
    (finishRecovery
       (completionState
          (@replaySegment collaborators recovering
             [EntrySafeVersion (ObjectSafeVersion.mk UINT64_MAX 0)])))
    k "a".

(** Key k indexed as a tombstone while a dead object of k is still in the
    log: an object and the tombstone that deletes it were replayed. *)
Definition withTombstone : ObjectManager :=
  completionState
    (@replaySegment collaborators recovering
       [EntryObject (object 1 "old"); EntryTombstone (tombstone 1)]).
End Example.

Module Scenario.
(** Key k written once into the fresh manager of a NORMAL tablet. *)
Definition written : ObjectManager :=
  Example.afterWrite Example.normal Example.k "v".

(** Key k2 written next to the object of k. *)
Definition two : ObjectManager :=
  Example.afterWrite (Example.holding 5) Example.k2 "w".

(** The object of k after its tablet has left the registry. *)
Definition orphaned : ObjectManager :=
  setTabletManager [] (Example.holding 5).

(** Recovery has finished and has left the tombstone of k in the index. *)
Definition recovered : ObjectManager :=
  Example.finishRecovery Example.withTombstone.

(** The cleaner relocates the live object of k. *)
Definition relocated : Exec (LogEntryRelocator.t * ObjectManager) :=
  @relocate Example.collaborators (fun _ => true) (Example.holding 5) 0%nat
    (EntryObject (Example.object 5 "old")) (LogEntryRelocator.fresh true).

Definition cleaned : ObjectManager :=
  match relocated with
  | Done (_, om) => om
  | _ => Example.holding 5
  end.

(** Recovery has replayed the tombstone that deletes the object of k of the
    last version, 2^64 - 1. *)
Definition deletedLast : ObjectManager :=
  completionState
    (@replaySegment Example.collaborators Example.recovering
       [EntryTombstone (Example.tombstone UINT64_MAX)]).

(** Recovery has replayed the object of k of the last version. *)
Definition holdingLast : ObjectManager :=
  completionState
    (@replaySegment Example.collaborators Example.recovering
       [EntryObject (Example.object UINT64_MAX "old")]).
End Scenario.

(** * Properties *)

(** ** Keys and reject rules *)

Lemma Key_eqb_eq (a b : Key) : Key_eqb a b = true <-> a = b.
Proof.
  destruct a as [ta ka], b as [tb kb]; unfold Key_eqb; simpl.
  rewrite andb_true_iff, Z.eqb_eq, String.eqb_eq.
  split.
  - intros [-> ->]; reflexivity.
  - intros E; inversion E; auto.
Qed.

Lemma Key_eqb_refl (a : Key) : Key_eqb a a = true.
Proof. apply Key_eqb_eq; reflexivity. Qed.

Lemma Status_eqb_eq (a b : Status) : Status_eqb a b = true <-> a = b.
Proof. destruct a, b; simpl; split; congruence. Qed.

Lemma rejectOperation_in_table (rules : RejectRules) (version : Z) :
  RejectTable rules version (rejectOperation rules version).
Proof.
  unfold rejectOperation.
  destruct (Z.eqb_spec version VERSION_NONEXISTENT) as [E | NE].
  - destruct (doesntExist rules) eqn:D;
      [apply Row_nonexistent_rejected | apply Row_nonexistent_ok];
      assumption.
  - destruct (exists_ rules) eqn:X; [apply Row_exists; assumption |].
    destruct (versionLeGiven rules) eqn:L; simpl.
    + destruct (Z.leb_spec version (givenVersion rules)) as [Le | Gt].
      * apply Row_versionLeGiven; assumption.
      * destruct (versionNeGiven rules) eqn:N; simpl.
        -- destruct (Z.eqb_spec version (givenVersion rules)) as [Eq | Ne];
             simpl.
           ++ apply Row_otherwise; auto; intros [_ ?]; lia.
           ++ apply Row_versionNeGiven; auto; intros [_ ?]; lia.
        -- apply Row_otherwise; auto; intros [? ?]; [lia | congruence].
    + destruct (versionNeGiven rules) eqn:N; simpl.
      * destruct (Z.eqb_spec version (givenVersion rules)) as [Eq | Ne]; simpl.
        -- apply Row_otherwise; auto; intros [? ?]; congruence.
        -- apply Row_versionNeGiven; auto; intros [? _]; congruence.
      * apply Row_otherwise; auto; intros [? ?]; congruence.
Qed.

Lemma RejectTable_functional (rules : RejectRules) (version : Z)
  (s1 s2 : Status) :
  RejectTable rules version s1 -> RejectTable rules version s2 -> s1 = s2.
Proof.
  intros T1 T2; inversion T1; inversion T2; subst;
    try reflexivity; try congruence; try tauto.
Qed.

(** C2.  For every RejectRules and every version, the status that
    rejectOperation returns is exactly the one the decision table of the
    specification gives, its rows taken in order: a nonexistent version is
    rejected with OBJECT_DOESNT_EXIST when doesntExist is set and accepted
    otherwise; an existing one gets OBJECT_EXISTS when exists is set, else
    WRONG_VERSION when versionLeGiven is set and version <= givenVersion,
    else WRONG_VERSION when versionNeGiven is set and version differs from
    givenVersion, else OK. *)
Theorem rejectOperation_follows_table (rules : RejectRules) (version : Z)
  (status : Status) :
  rejectOperation rules version = status <-> RejectTable rules version status.
Proof.
  split.
  - intros <-; apply rejectOperation_in_table.
  - intros T.
    apply (RejectTable_functional rules version); [| exact T].
    apply rejectOperation_in_table.
Qed.

(** ** The log *)

Lemma getEntry_append_old (which : LogId) (e : LogEntry) (l : Log.t)
  (r : Reference) :
  (r < List.length (Log.memory l))%nat ->
  Log.getEntry (snd (Log.append which e l)) r = Log.getEntry l r.
Proof.
  intros Lt; unfold Log.getEntry, Log.append; simpl.
  rewrite nth_error_app1 by exact Lt; reflexivity.
Qed.

Lemma getEntry_append_new (which : LogId) (e : LogEntry) (l : Log.t) :
  Log.getEntry (snd (Log.append which e l)) (fst (Log.append which e l))
  = Some e.
Proof.
  unfold Log.getEntry, Log.append; simpl.
  rewrite nth_error_app2 by apply Nat.le_refl.
  rewrite Nat.sub_diag; reflexivity.
Qed.

Section Properties.
Context `{Collaborators}.

(** ** The candidate loop *)

Lemma examine_cases (l : Log.t) (h : HashTable.t) (key : Key)
  (c : Z * Reference) :
  (examine l h key c = NotFound)
  \/ (exists e, fst c = HashTable.bucketOf h key
                /\ Log.getEntry l (snd c) = Some e
                /\ entryKey e = Some key
                /\ examine l h key c = foundAt (snd c) e
                /\ foundAt (snd c) e <> NotFound).
Proof.
  unfold examine.
  destruct (Z.eqb_spec (fst c) (HashTable.bucketOf h key)) as [B | B];
    [| left; reflexivity].
  destruct (Log.getEntry l (snd c)) as [[o | t | s] |] eqn:G;
    try (left; reflexivity).
  - destruct (Key_eqb key (Object.getKey o)) eqn:K; [| left; reflexivity].
    apply Key_eqb_eq in K. right; exists (EntryObject o); simpl.
    repeat split; try congruence.
  - destruct (Key_eqb key (ObjectTombstone.getKey t)) eqn:K;
      [| left; reflexivity].
    apply Key_eqb_eq in K. right; exists (EntryTombstone t); simpl.
    repeat split; try congruence.
Qed.

Lemma examine_hit (l : Log.t) (h : HashTable.t) (key : Key)
  (b : Z) (r : Reference) (e : LogEntry) :
  b = HashTable.bucketOf h key ->
  Log.getEntry l r = Some e ->
  entryKey e = Some key ->
  examine l h key (b, r) = foundAt r e /\ foundAt r e <> NotFound.
Proof.
  intros -> G K; unfold examine; simpl.
  rewrite Z.eqb_refl, G.
  destruct e as [o | t | s]; simpl in *; try discriminate;
    injection K as <-; rewrite Key_eqb_refl; split;
    solve [reflexivity | discriminate].
Qed.

Lemma examine_same_buckets (l : Log.t) (h h' : HashTable.t) (key : Key)
  (c : Z * Reference) :
  HashTable.numBuckets h' = HashTable.numBuckets h ->
  examine l h' key c = examine l h key c.
Proof.
  intros E; unfold examine, HashTable.bucketOf; rewrite E; reflexivity.
Qed.

Lemma lookupIn_same_buckets (l : Log.t) (h h' : HashTable.t) (key : Key)
  (slots : list (Z * Reference)) :
  HashTable.numBuckets h' = HashTable.numBuckets h ->
  lookupIn l h' key slots = lookupIn l h key slots.
Proof.
  intros E; induction slots as [| c rest IH]; simpl; [reflexivity |].
  rewrite (examine_same_buckets l h h' key c E), IH; reflexivity.
Qed.

Lemma examine_agree (l l' : Log.t) (h : HashTable.t) (key : Key)
  (c : Z * Reference) :
  Log.getEntry l' (snd c) = Log.getEntry l (snd c) ->
  examine l' h key c = examine l h key c.
Proof. intros E; unfold examine; rewrite E; reflexivity. Qed.

Lemma agreeOn_tail (l l' : Log.t) (c : Z * Reference)
  (rest : list (Z * Reference)) :
  agreeOn l l' (c :: rest) ->
  Log.getEntry l' (snd c) = Log.getEntry l (snd c) /\ agreeOn l l' rest.
Proof.
  intros A; split; [apply A; left; reflexivity |].
  intros s I; apply A; right; exact I.
Qed.

Lemma lookupIn_agree (l l' : Log.t) (h : HashTable.t) (key : Key)
  (slots : list (Z * Reference)) :
  agreeOn l l' slots ->
  lookupIn l' h key slots = lookupIn l h key slots.
Proof.
  induction slots as [| c rest IH]; intros A; simpl; [reflexivity |].
  apply agreeOn_tail in A as [Ec Ar].
  rewrite (examine_agree l l' h key c Ec), (IH Ar); reflexivity.
Qed.

Lemma indexedKeys_agree (l l' : Log.t) (slots : list (Z * Reference)) :
  agreeOn l l' slots ->
  indexedKeys l' slots = indexedKeys l slots.
Proof.
  induction slots as [| c rest IH]; intros A; simpl; [reflexivity |].
  apply agreeOn_tail in A as [Ec Ar].
  fold (indexedKeys l' rest); fold (indexedKeys l rest).
  rewrite (IH Ar); unfold slotKey; rewrite Ec; reflexivity.
Qed.

Lemma agreeOn_same_memory (l l' : Log.t) (slots : list (Z * Reference)) :
  Log.memory l' = Log.memory l -> agreeOn l l' slots.
Proof. intros E s _; unfold Log.getEntry; rewrite E; reflexivity. Qed.

Lemma found_or_next (found next : LookupResult) :
  found <> NotFound ->
  match found with
  | FoundObject r o => FoundObject r o
  | FoundTombstone r t => FoundTombstone r t
  | NotFound => next
  end = found.
Proof. destruct found; congruence. Qed.

Lemma lookupIn_replaceIn (l : Log.t) (h : HashTable.t) (key : Key)
  (reference : Reference) (e : LogEntry) (slots : list (Z * Reference)) :
  Log.getEntry l reference = Some e ->
  entryKey e = Some key ->
  lookupIn l h key
    (if fst (replaceIn l h key reference slots)
     then snd (replaceIn l h key reference slots)
     else slots ++ [(HashTable.bucketOf h key, reference)])
  = foundAt reference e.
Proof.
  intros G K.
  destruct (examine_hit l h key _ reference e eq_refl G K) as [Hit NN].
  induction slots as [| c rest IH]; simpl.
  - rewrite Hit; destruct (foundAt reference e); reflexivity.
  - destruct (examine_cases l h key c) as [N | (e' & B & G' & K' & E & NN')].
    + rewrite N.
      destruct (replaceIn l h key reference rest) as [[|] rest'];
        simpl in *; rewrite N; exact IH.
    + rewrite E.
      assert (R : match foundAt (snd c) e' with
                  | NotFound =>
                      let '(replaced, rest') :=
                        replaceIn l h key reference rest in
                      (replaced, c :: rest')
                  | _ => (true, (fst c, reference) :: rest)
                  end = (true, (fst c, reference) :: rest))
        by (destruct (foundAt (snd c) e'); congruence).
      rewrite R; simpl.
      rewrite (proj1 (examine_hit l h key (fst c) reference e B G K)).
      apply found_or_next, NN.
Qed.

Lemma replace_log (om : ObjectManager) (key : Key) (reference : Reference) :
  log (snd (replace om key reference)) = log om
  /\ tabletManager (snd (replace om key reference)) = tabletManager om
  /\ safeVersion (snd (replace om key reference)) = safeVersion om
  /\ HashTable.numBuckets (objectMap (snd (replace om key reference)))
     = HashTable.numBuckets (objectMap om).
Proof.
  unfold replace.
  destruct (replaceIn _ _ _ _ _) as [[|] slots']; simpl; auto.
Qed.

(** After replace, lookup of the key yields the reference just stored. *)
Lemma lookup_replace (om : ObjectManager) (key : Key) (reference : Reference)
  (e : LogEntry) :
  Log.getEntry (log om) reference = Some e ->
  entryKey e = Some key ->
  lookup (snd (replace om key reference)) key = foundAt reference e.
Proof.
  intros G K.
  pose proof (lookupIn_replaceIn (log om) (objectMap om) key reference e
                (HashTable.slots (objectMap om)) G K) as L.
  unfold lookup, replace.
  destruct (replaceIn _ _ _ _ _) as [[|] slots']; simpl in *;
    rewrite (lookupIn_same_buckets (log om) (objectMap om)) by reflexivity;
    exact L.
Qed.

Lemma indexedKeys_cons (l : Log.t) (c : Z * Reference)
  (rest : list (Z * Reference)) :
  indexedKeys l (c :: rest)
  = match slotKey l c with
    | Some k => k :: indexedKeys l rest
    | None => indexedKeys l rest
    end.
Proof. unfold indexedKeys; simpl; destruct (slotKey l c); reflexivity. Qed.

Lemma noDuplicateKey_tail (l : Log.t) (c : Z * Reference)
  (rest : list (Z * Reference)) :
  noDuplicateKey (indexedKeys l (c :: rest)) = true ->
  noDuplicateKey (indexedKeys l rest) = true.
Proof.
  rewrite indexedKeys_cons; destruct (slotKey l c); simpl; [| auto].
  rewrite andb_true_iff; tauto.
Qed.

Lemma lookupIn_hit_indexed (l : Log.t) (h : HashTable.t) (key : Key)
  (slots : list (Z * Reference)) :
  lookupIn l h key slots <> NotFound ->
  existsb (Key_eqb key) (indexedKeys l slots) = true.
Proof.
  induction slots as [| c rest IH]; [simpl; congruence |].
  rewrite indexedKeys_cons; cbn [lookupIn].
  destruct (examine_cases l h key c) as [N | (e & B & G & K & E & NN)].
  - rewrite N; intros L; specialize (IH L).
    destruct (slotKey l c); simpl; [rewrite IH; apply orb_true_r | exact IH].
  - intros _; unfold slotKey; rewrite G, K; simpl.
    rewrite Key_eqb_refl; reflexivity.
Qed.

Lemma lookupIn_removeIn (l : Log.t) (h : HashTable.t) (key : Key)
  (slots : list (Z * Reference)) :
  noDuplicateKey (indexedKeys l slots) = true ->
  lookupIn l h key (snd (removeIn l h key slots)) = NotFound.
Proof.
  induction slots as [| c rest IH]; intros ND; [reflexivity |].
  cbn [removeIn].
  destruct (examine_cases l h key c) as [N | (e & B & G & K & E & NN)].
  - rewrite N.
    specialize (IH (noDuplicateKey_tail l c rest ND)).
    destruct (removeIn l h key rest) as [b rest']; cbn [snd lookupIn] in *.
    rewrite N; exact IH.
  - rewrite E.
    assert (R : snd match foundAt (snd c) e with
                    | NotFound =>
                        let '(removed, rest') := removeIn l h key rest in
                        (removed, c :: rest')
                    | _ => (true, rest)
                    end = rest)
      by (destruct (foundAt (snd c) e); simpl; congruence).
    rewrite R.
    rewrite indexedKeys_cons in ND; unfold slotKey in ND; rewrite G, K in ND.
    simpl in ND; apply andb_true_iff in ND as [Fresh _].
    destruct (lookupIn l h key rest) eqn:L; try reflexivity; exfalso;
      assert (X : lookupIn l h key rest <> NotFound) by congruence;
      apply lookupIn_hit_indexed in X; rewrite X in Fresh; discriminate.
Qed.

Lemma removeIn_found (l : Log.t) (h : HashTable.t) (key : Key)
  (slots : list (Z * Reference)) :
  lookupIn l h key slots <> NotFound ->
  fst (removeIn l h key slots) = true.
Proof.
  induction slots as [| c rest IH]; simpl; [congruence |].
  destruct (examine l h key c) eqn:E; try reflexivity.
  intros L; specialize (IH L).
  destruct (removeIn l h key rest); exact IH.
Qed.

Lemma removeIn_not_found (l : Log.t) (h : HashTable.t) (key : Key)
  (slots : list (Z * Reference)) :
  lookupIn l h key slots = NotFound ->
  removeIn l h key slots = (false, slots).
Proof.
  induction slots as [| c rest IH]; simpl; [reflexivity |].
  destruct (examine l h key c) eqn:E; try congruence.
  intros L; rewrite (IH L); reflexivity.
Qed.

(** Removing one key leaves the entries of every other key in place. *)
Lemma lookupIn_removeIn_other (l : Log.t) (h : HashTable.t) (key key' : Key)
  (slots : list (Z * Reference)) :
  key' <> key ->
  lookupIn l h key' (snd (removeIn l h key slots)) = lookupIn l h key' slots.
Proof.
  intros NE; induction slots as [| c rest IH]; simpl; [reflexivity |].
  destruct (examine_cases l h key c) as [N | (e & B & G & K & E & NN)].
  - rewrite N. destruct (removeIn l h key rest) as [b rest']; simpl in *.
    rewrite IH; reflexivity.
  - rewrite E.
    assert (R : snd match foundAt (snd c) e with
                    | NotFound =>
                        let '(removed, rest') := removeIn l h key rest in
                        (removed, c :: rest')
                    | _ => (true, rest)
                    end = rest)
      by (destruct (foundAt (snd c) e); simpl; congruence).
    rewrite R.
    destruct (examine_cases l h key' c) as [N' | (e' & _ & G' & K' & _)].
    + rewrite N'; reflexivity.
    + congruence.
Qed.

Lemma remove_fields (om : ObjectManager) (key : Key) :
  log (snd (remove om key)) = log om
  /\ tabletManager (snd (remove om key)) = tabletManager om
  /\ safeVersion (snd (remove om key)) = safeVersion om
  /\ HashTable.numBuckets (objectMap (snd (remove om key)))
     = HashTable.numBuckets (objectMap om).
Proof.
  unfold remove; destruct (removeIn _ _ _ _); simpl; auto.
Qed.

(** After remove, lookup no longer finds the key, provided the index held at
    most one reference per key. *)
Lemma lookup_remove (om : ObjectManager) (key : Key) :
  noDuplicateKey (indexedKeys (log om) (HashTable.slots (objectMap om))) = true ->
  lookup (snd (remove om key)) key = NotFound.
Proof.
  intros ND.
  pose proof (lookupIn_removeIn (log om) (objectMap om) key _ ND) as L.
  unfold lookup, remove.
  destruct (removeIn _ _ _ _) as [b slots']; simpl in *.
  rewrite (lookupIn_same_buckets (log om) (objectMap om)) by reflexivity.
  exact L.
Qed.

Lemma lookup_remove_other (om : ObjectManager) (key key' : Key) :
  key' <> key ->
  lookup (snd (remove om key)) key' = lookup om key'.
Proof.
  intros NE.
  pose proof (lookupIn_removeIn_other (log om) (objectMap om) key key'
                (HashTable.slots (objectMap om)) NE) as L.
  unfold lookup, remove.
  destruct (removeIn _ _ _ _) as [b slots']; simpl in *.
  rewrite (lookupIn_same_buckets (log om) (objectMap om)) by reflexivity.
  exact L.
Qed.

Lemma remove_found (om : ObjectManager) (key : Key) :
  lookup om key <> NotFound -> fst (remove om key) = true.
Proof.
  intros L; apply removeIn_found in L.
  unfold remove; destruct (removeIn _ _ _ _); exact L.
Qed.

(** What lookup finds is an entry of the log with the key looked up. *)
Lemma lookup_found (om : ObjectManager) (key : Key) :
  lookup om key = NotFound
  \/ exists r e, Log.getEntry (log om) r = Some e
                 /\ entryKey e = Some key
                 /\ lookup om key = foundAt r e
                 /\ foundAt r e <> NotFound.
Proof.
  unfold lookup.
  induction (HashTable.slots (objectMap om)) as [| c rest IH]; simpl;
    [left; reflexivity |].
  destruct (examine_cases (log om) (objectMap om) key c)
    as [N | (e & B & G & K & E & NN)].
  - rewrite N; exact IH.
  - right; exists (snd c), e; rewrite E.
    repeat split; auto. apply found_or_next, NN.
Qed.

Lemma lookup_same_index (om om' : ObjectManager) (key : Key) :
  Log.memory (log om') = Log.memory (log om) ->
  objectMap om' = objectMap om ->
  lookup om' key = lookup om key.
Proof.
  intros M O; unfold lookup; rewrite O.
  apply lookupIn_agree, agreeOn_same_memory, M.
Qed.

Lemma replay_checked_state (om : ObjectManager) (valid : bool)
  (m : LogMessage) :
  let om0 := if negb valid
             then LOG_WARNING m (count RecoverySegmentEntryCount om)
             else count RecoverySegmentEntryCount om in
  log om0 = log om /\ objectMap om0 = objectMap om
  /\ forall key, lookup om0 key = lookup om key.
Proof.
  destruct valid; simpl; repeat split; reflexivity.
Qed.

Lemma appendedThrough_memory (l l' : Log.t) (which : LogId) (e : LogEntry) :
  Log.memory l' = Log.memory l ++ [(which, e)] ->
  Log.appendedThrough l' (List.length (Log.memory l)) = Some which.
Proof.
  intros M; unfold Log.appendedThrough; rewrite M.
  rewrite nth_error_app2 by apply Nat.le_refl.
  rewrite Nat.sub_diag; reflexivity.
Qed.

(** Storing under its key the reference of an entry just appended: what
    both branches of replaySegment, writeObject and relocateObject do when
    they keep an entry. *)
Lemma install_entry (om : ObjectManager) (l : Log.t) (which : LogId)
  (e : LogEntry) (key : Key) :
  log om = snd (Log.append which e l) ->
  entryKey e = Some key ->
  let newReference := List.length (Log.memory l) in
  let om' := snd (replace om key newReference) in
  lookup om' key = foundAt newReference e /\ log om' = log om.
Proof.
  intros E K newReference om'.
  split.
  - apply lookup_replace; [| exact K].
    rewrite E; exact (getEntry_append_new which e l).
  - apply replace_log.
Qed.

Ltac replay_start om :=
  unfold replayEntry;
  match goal with
  | |- context [if negb ?v then LOG_WARNING ?m ?x else ?x] =>
      let El := fresh "El" in
      let Em := fresh "Em" in
      let L0 := fresh "L0" in
      destruct (replay_checked_state om v m) as (El & Em & L0);
      set (om0 := if negb v then LOG_WARNING m x else x) in *;
      rewrite L0
  end.

Ltac replay_kept om0 e :=
  unfold Log.append; cbv zeta;
  match goal with
  | |- context [replace ?a ?k ?rf] =>
      let I1 := fresh "I1" in
      let I2 := fresh "I2" in
      assert (I1 : lookup (snd (replace a k rf)) k = foundAt rf e
                   /\ log (snd (replace a k rf)) = log a)
        by exact (install_entry a (log om0) SIDE_LOG e k eq_refl eq_refl);
      destruct I1 as (I1 & I2);
      set (om3 := snd (replace a k rf)) in *
  end;
  cbn [log setLog count setMetrics foundAt] in *.

Lemma replace_objectMap_ext (a b : ObjectManager) (key : Key) (r : Reference) :
  log a = log b ->
  objectMap a = objectMap b ->
  objectMap (snd (replace a key r)) = objectMap (snd (replace b key r)).
Proof.
  intros El Em; unfold replace; rewrite El, Em.
  destruct (replaceIn _ _ _ _ _) as [[|] slots']; reflexivity.
Qed.

(** ** Replay, one entry at a time *)

(** The OBJECT branch of replaySegment: the entry is kept exactly when its
    version reaches minSuccessor. *)
Lemma replay_object (om : ObjectManager) (o : Object.t) :
  let key := Object.getKey o in
  let current := lookup om key in
  let newReference := List.length (Log.memory (log om)) in
  let om' := replayEntry om (EntryObject o) in
  if fst (objectMinSuccessor current) <=? Object.version o
  then lookup om' key = FoundObject newReference o
       /\ objectMap om'
          = objectMap
              (snd (replace
                      (setLog (snd (Log.append SIDE_LOG (EntryObject o) (log om)))
                         om) key newReference))
       /\ Log.memory (log om')
          = Log.memory (log om) ++ [(SIDE_LOG, EntryObject o)]
       /\ Log.freed (log om')
          = Log.freed (log om)
            ++ (if snd (objectMinSuccessor current)
                then [(SIDE_LOG, foundReference current)] else [])
  else objectMap om' = objectMap om /\ log om' = log om.
Proof.
  intros key current newReference om'.
  subst om' newReference current key; replay_start om.
  destruct (objectMinSuccessor (lookup om (Object.getKey o)))
    as [minSuccessor freeCurrentEntry]; cbn [fst snd].
  destruct (minSuccessor <=? Object.version o);
    [| split; [exact Em | exact El]].
  replay_kept om0 (EntryObject o).
  assert (L3 : lookup om3 (Object.getKey o)
               = FoundObject (List.length (Log.memory (log om))) o)
    by (rewrite <- El; exact I1).
  assert (M3 : objectMap om3
               = objectMap
                   (snd (replace
                           (setLog (snd (Log.append SIDE_LOG (EntryObject o) (log om))) om)
                           (Object.getKey o)
                           (List.length (Log.memory (log om))))))
    by (subst om3; rewrite <- El; apply replace_objectMap_ext;
        [cbn [log setLog count setMetrics]; rewrite El; reflexivity
        | exact Em]).
  rewrite El in I2.
  destruct freeCurrentEntry; cbn [log setLog count setMetrics objectMap].
  - split; [| split; [| split]].
    + etransitivity; [| exact L3]. apply lookup_same_index; reflexivity.
    + exact M3.
    + cbn [Log.free Log.memory]; rewrite I2; reflexivity.
    + cbn [Log.free Log.freed]; rewrite I2; reflexivity.
  - split; [| split; [| split]].
    + exact L3.
    + exact M3.
    + rewrite I2; reflexivity.
    + rewrite I2, app_nil_r; reflexivity.
Qed.

(** The TOMBSTONE branch of replaySegment. *)
Lemma replay_tombstone (om : ObjectManager) (t : ObjectTombstone.t) :
  let key := ObjectTombstone.getKey t in
  let current := lookup om key in
  let newReference := List.length (Log.memory (log om)) in
  let om' := replayEntry om (EntryTombstone t) in
  if fst (tombstoneMinSuccessor current) <=? ObjectTombstone.getObjectVersion t
  then lookup om' key = FoundTombstone newReference t
       /\ objectMap om'
          = objectMap
              (snd (replace
                      (setLog
                         (snd (Log.append SIDE_LOG (EntryTombstone t) (log om)))
                         om) key newReference))
       /\ Log.memory (log om')
          = Log.memory (log om) ++ [(SIDE_LOG, EntryTombstone t)]
       /\ Log.freed (log om')
          = Log.freed (log om)
            ++ (if snd (tombstoneMinSuccessor current)
                then [(SIDE_LOG, foundReference current)] else [])
  else objectMap om' = objectMap om /\ log om' = log om.
Proof.
  intros key current newReference om'.
  subst om' newReference current key; replay_start om.
  destruct (tombstoneMinSuccessor (lookup om (ObjectTombstone.getKey t)))
    as [minSuccessor freeCurrentEntry]; cbn [fst snd].
  destruct (minSuccessor <=? ObjectTombstone.getObjectVersion t);
    [| split; [exact Em | exact El]].
  replay_kept om0 (EntryTombstone t).
  assert (L3 : lookup om3 (ObjectTombstone.getKey t)
               = FoundTombstone (List.length (Log.memory (log om))) t)
    by (rewrite <- El; exact I1).
  assert (M3 : objectMap om3
               = objectMap
                   (snd (replace
                           (setLog
                              (snd (Log.append SIDE_LOG (EntryTombstone t) (log om)))
                              om)
                           (ObjectTombstone.getKey t)
                           (List.length (Log.memory (log om))))))
    by (subst om3; rewrite <- El; apply replace_objectMap_ext;
        [cbn [log setLog count setMetrics]; rewrite El; reflexivity
        | exact Em]).
  rewrite El in I2.
  destruct freeCurrentEntry; cbn [log setLog count setMetrics objectMap].
  - split; [| split; [| split]].
    + etransitivity; [| exact L3]. apply lookup_same_index; reflexivity.
    + exact M3.
    + cbn [Log.free Log.memory]; rewrite I2; reflexivity.
    + cbn [Log.free Log.freed]; rewrite I2; reflexivity.
  - split; [| split; [| split]].
    + exact L3.
    + exact M3.
    + rewrite I2; reflexivity.
    + rewrite I2, app_nil_r; reflexivity.
Qed.

(** ** Replay: which entry supersedes which *)

(** The reconciliation of replaySegment, as the code computes it.  A
    replayed TOMBSTONE of object version v
    supersedes a currently indexed OBJECT exactly when v is at least the
    object's version (minSuccessor is the object's version), whereas a
    replayed OBJECT of version v supersedes a currently indexed OBJECT or
    TOMBSTONE exactly when v is at least minSuccessor = currentVersion + 1,
    the sum being the one the code computes in uint64_t.  In each kept case
    the entry is appended to the SideLog, the index entry of the key becomes
    the new SideLog reference, and the reference of an old OBJECT is freed in
    the SideLog; otherwise the replayed entry is discarded: the index and
    the log stay as they were. *)
Theorem replay_supersedes (om : ObjectManager) :
  (forall (recoverTomb : ObjectTombstone.t) (r : Reference) (o : Object.t),
     lookup om (ObjectTombstone.getKey recoverTomb) = FoundObject r o ->
     let om' := replayEntry om (EntryTombstone recoverTomb) in
     let newReference := List.length (Log.memory (log om)) in
     if Object.getVersion o <=? ObjectTombstone.getObjectVersion recoverTomb
     then lookup om' (ObjectTombstone.getKey recoverTomb)
          = FoundTombstone newReference recoverTomb
          /\ Log.appendedThrough (log om') newReference = Some SIDE_LOG
          /\ Log.freed (log om') = Log.freed (log om) ++ [(SIDE_LOG, r)]
     else objectMap om' = objectMap om /\ log om' = log om)
  /\
  (forall (recoveryObj : Object.t) (current : LookupResult),
     lookup om (Object.getKey recoveryObj) = current ->
     current <> NotFound ->
     let om' := replayEntry om (EntryObject recoveryObj) in
     let newReference := List.length (Log.memory (log om)) in
     if wrap64 (foundVersion current + 1) <=? Object.getVersion recoveryObj
     then lookup om' (Object.getKey recoveryObj)
          = FoundObject newReference recoveryObj
          /\ Log.appendedThrough (log om') newReference = Some SIDE_LOG
          /\ Log.freed (log om')
             = Log.freed (log om)
               ++ match current with
                  | FoundObject r _ => [(SIDE_LOG, r)]
                  | _ => []
                  end
     else objectMap om' = objectMap om /\ log om' = log om).
Proof.
  split.
  - intros recoverTomb r o L om' newReference.
    pose proof (replay_tombstone om recoverTomb) as S.
    cbv zeta in S; rewrite L in S; cbn [tombstoneMinSuccessor fst snd] in S.
    fold om' newReference in S.
    destruct (Object.getVersion o <=? ObjectTombstone.getObjectVersion recoverTomb);
      [| exact S].
    destruct S as (S1 & _ & S3 & S4).
    split; [exact S1 | split; [| exact S4]].
    apply (appendedThrough_memory (log om) _ SIDE_LOG _ S3).
  - intros recoveryObj current L NN om' newReference.
    pose proof (replay_object om recoveryObj) as S.
    cbv zeta in S; rewrite L in S.
    fold om' newReference in S.
    assert (E : fst (objectMinSuccessor current)
                = wrap64 (foundVersion current + 1))
      by (destruct current; [reflexivity | reflexivity | congruence]).
    rewrite E in S.
    change (Object.getVersion recoveryObj) with (Object.version recoveryObj).
    destruct (wrap64 (foundVersion current + 1) <=? Object.version recoveryObj);
      [| exact S].
    destruct S as (S1 & _ & S3 & S4).
    split; [exact S1 | split].
    + apply (appendedThrough_memory (log om) _ SIDE_LOG _ S3).
    + rewrite S4; destruct current; [reflexivity | reflexivity | congruence].
Qed.

(** ** Replay out of order: scenario S6 *)

(** C3.  Starting from the empty index of a freshly constructed object
    manager whose tablet T is RECOVERING, replaying OBJECT((T,"k"), v=5),
    then OBJECT((T,"k"), v=3), then TOMBSTONE((T,"k"), v=4) leaves the index
    holding exactly one entry, the OBJECT of version 5 for key (T,"k"): the
    object of version 3 and the tombstone of version 4 are discarded, they
    reach neither the index nor the SideLog. *)
Theorem replay_out_of_order (T lo hi rc wc n : Z)
  (ts5 cs5 ts3 cs3 seg ts4 cs4 : Z) (d5 d3 : string) :
  let key := mkKey T "k" in
  let o5 := Object.mk T "k" 5 ts5 cs5 d5 in
  let o3 := Object.mk T "k" 3 ts3 cs3 d3 in
  let t4 := ObjectTombstone.mk T "k" seg 4 ts4 cs4 in
  let om :=
    construct
      [TabletManager.mkTablet T lo hi TabletManager.RECOVERING rc wc] n in
  exists om',
    replaySegment om [EntryObject o5; EntryObject o3; EntryTombstone t4]
    = Returns om'
    /\ HashTable.slots (objectMap om')
       = [(HashTable.bucketOf (objectMap om) key, 0%nat)]
    /\ Log.memory (log om') = [(SIDE_LOG, EntryObject o5)]
    /\ Log.freed (log om') = []
    /\ lookup om' key = FoundObject 0%nat o5.
Proof.
  intros key o5 o3 t4 om.
  eexists; split; [reflexivity |].
  unfold DelayedIncrementer_construct; cbn [replayLoop].
  set (om1 := replayEntry om (EntryObject o5)).
  set (om2 := replayEntry om1 (EntryObject o3)).
  set (om3 := replayEntry om2 (EntryTombstone t4)).
  (* the object of version 5 meets an empty index *)
  pose proof (replay_object om o5) as S1; cbv zeta in S1.
  change (lookup om (Object.getKey o5)) with NotFound in S1.
  cbn [objectMinSuccessor fst snd] in S1.
  change (0 <=? Object.version o5) with true in S1; cbv iota in S1.
  fold om1 in S1; destruct S1 as (L1 & M1 & Mem1 & F1).
  change (Object.getKey o5) with key in L1.
  change (List.length (Log.memory (log om))) with 0%nat in L1.
  (* the object of version 3 meets it: minSuccessor is 6 *)
  pose proof (replay_object om1 o3) as S2; cbv zeta in S2.
  change (Object.getKey o3) with key in S2; rewrite L1 in S2.
  cbn [objectMinSuccessor fst snd] in S2.
  change (wrap64 (Object.getVersion o5 + 1) <=? Object.version o3)
    with false in S2; cbv iota in S2.
  fold om2 in S2; destruct S2 as (M2 & Log2).
  assert (L2 : lookup om2 key = FoundObject 0%nat o5).
  { rewrite <- L1; apply lookup_same_index;
      [rewrite Log2; reflexivity | exact M2]. }
  (* the tombstone of version 4 meets it: minSuccessor is 5 *)
  pose proof (replay_tombstone om2 t4) as S3; cbv zeta in S3.
  change (ObjectTombstone.getKey t4) with key in S3; rewrite L2 in S3.
  cbn [tombstoneMinSuccessor fst snd] in S3.
  change (Object.getVersion o5 <=? ObjectTombstone.getObjectVersion t4)
    with false in S3; cbv iota in S3.
  fold om3 in S3; destruct S3 as (M3 & Log3).
  cbn [log objectMap DelayedIncrementer_destroy setReplaySegmentReturnCount].
  rewrite M3, M2, Log3, Log2, M1, Mem1, F1.
  repeat split.
  rewrite <- L2; apply lookup_same_index;
    cbn [log objectMap DelayedIncrementer_destroy setReplaySegmentReturnCount];
    [rewrite Log3; reflexivity | exact M3].
Qed.

Lemma replace_setObjectMap (om : ObjectManager) (key : Key) (r : Reference) :
  snd (replace om key r)
  = setObjectMap (objectMap (snd (replace om key r))) om.
Proof.
  unfold replace; destruct (replaceIn _ _ _ _ _) as [[|] slots']; reflexivity.
Qed.

(** replaySegment touches the log, the index, the version floor, the
    metrics and the warnings, and nothing else. *)
Lemma replayEntry_frame (om : ObjectManager) (e : LogEntry) :
  tabletManager (replayEntry om e) = tabletManager om
  /\ replaySegmentReturnCount (replayEntry om e) = replaySegmentReturnCount om
  /\ anyWrites (replayEntry om e) = anyWrites om
  /\ tombstoneRemover (replayEntry om e) = tombstoneRemover om.
Proof.
  unfold replayEntry, raiseSafeVersion, Log.append.
  destruct e as [o | t | s];
    repeat match goal with
      | |- context [if ?b then _ else _] => destruct b; cbv beta iota
      | |- context [let '(_, _) := ?p in _] => destruct p; cbv beta iota
      end;
    try match goal with
      | |- context [snd (replace ?a ?k ?r)] =>
          rewrite (replace_setObjectMap a k r)
      end;
    repeat split; reflexivity.
Qed.

Lemma replayLoop_frame (it : list LogEntry) (om : ObjectManager) :
  tabletManager (replayLoop om it) = tabletManager om
  /\ replaySegmentReturnCount (replayLoop om it) = replaySegmentReturnCount om
  /\ anyWrites (replayLoop om it) = anyWrites om
  /\ tombstoneRemover (replayLoop om it) = tombstoneRemover om.
Proof.
  revert om; induction it as [| e rest IH]; intros om; simpl; [auto |].
  destruct (IH (replayEntry om e)) as (A & B & C & D).
  destruct (replayEntry_frame om e) as (A' & B' & C' & D').
  repeat split; congruence.
Qed.

(** ** The return counter of replaySegment *)

(** C8, as amended.  replaySegmentReturnCount is incremented once per call
    of replaySegment, when the call exits: constructing the
    DelayedIncrementer on entry leaves the counter as it is, and its
    destructor adds one however the scope is left, by return or by
    exception; so every call of replaySegment leaves the counter one higher
    (in uint64_t) than it found it. *)
Theorem replaySegment_counts_exits :
  (forall (om : ObjectManager),
     replaySegmentReturnCount (DelayedIncrementer_construct om)
     = replaySegmentReturnCount om)
  /\ (forall (body : ObjectManager -> Completion ObjectManager)
        (om : ObjectManager),
        replaySegmentReturnCount
          (completionState (withDelayedIncrementer body om))
        = wrap64 (replaySegmentReturnCount (completionState (body om)) + 1))
  /\ (forall (om : ObjectManager) (it : list LogEntry),
        replaySegmentReturnCount (completionState (replaySegment om it))
        = wrap64 (replaySegmentReturnCount om + 1)).
Proof.
  split; [reflexivity | split].
  - intros body om; unfold withDelayedIncrementer, DelayedIncrementer_construct.
    destruct (body om); reflexivity.
  - intros om it; unfold replaySegment, withDelayedIncrementer.
    cbn [completionState DelayedIncrementer_destroy replaySegmentReturnCount
         setReplaySegmentReturnCount].
    unfold DelayedIncrementer_construct.
    destruct (replayLoop_frame it om) as (_ & -> & _); reflexivity.
Qed.

(** ** Checksum failures during replay *)











Lemma replayEntry_valid (om : ObjectManager) (e : LogEntry) :
  checksumIsValid e = true ->
  replayEntry om e = @replayEntry (trusting H) om e.
Proof.
  intros V; unfold replayEntry.
  change (@lookup (trusting H)) with (@lookup H).
  change (@replace (trusting H)) with (@replace H).
  destruct e as [o | t | s]; cbn [checksumIsValid] in V; rewrite V;
    cbn [trusting computeObjectChecksum computeTombstoneChecksum
         computeSafeVersionChecksum];
    rewrite Z.eqb_refl; reflexivity.
Qed.


(** ** The tombstone reaper *)

Lemma indexInvariant_keys (om : ObjectManager) :
  indexInvariant om = true ->
  referencesResolve (log om) (HashTable.slots (objectMap om)) = true
  /\ noDuplicateKey (indexedKeys (log om) (HashTable.slots (objectMap om)))
     = true.
Proof. unfold indexInvariant; rewrite andb_true_iff; tauto. Qed.

(** A tombstone that the index holds for its key is discarded when asked. *)
Lemma discard_indexed_tombstone (om : ObjectManager) (key : Key) :
  lookup om key <> NotFound ->
  indexInvariant om = true ->
  (let '(r, om') := remove om key in _ <- assert r ;; Done om')
  = Done (snd (remove om key))
  /\ tombstoneDiscarded om (snd (remove om key)) key.
Proof.
  intros L I; apply indexInvariant_keys in I as [_ ND].
  pose proof (remove_found om key L) as R.
  destruct (remove_fields om key) as (Fl & Ft & Fs & _).
  split.
  - destruct (remove om key) as [r om']; simpl in *; rewrite R; reflexivity.
  - repeat split; auto.
    + apply lookup_remove, ND.
    + intros key' NE; apply lookup_remove_other, NE.
Qed.

(** What removeIfTombstone does to a reference, stated for a tombstone that
    the index holds for its key. *)
Lemma removeIfTombstone_indexed (om : ObjectManager)
  (maybeTomb : Reference) :
  (forall o : Object.t,
     Log.getEntry (log om) maybeTomb = Some (EntryObject o) ->
     removeIfTombstone maybeTomb om = Done om)
  /\
  (forall tomb : ObjectTombstone.t,
     let key := ObjectTombstone.getKey tomb in
     Log.getEntry (log om) maybeTomb = Some (EntryTombstone tomb) ->
     lookup om key = FoundTombstone maybeTomb tomb ->
     indexInvariant om = true ->
     ((TabletManager.getTablet (tabletManager om) key = None
       \/ exists tablet,
            TabletManager.getTablet (tabletManager om) key = Some tablet
            /\ TabletManager.state tablet <> TabletManager.RECOVERING) ->
      exists om',
        removeIfTombstone maybeTomb om = Done om'
        /\ tombstoneDiscarded om om' key)
     /\
     ((exists tablet,
         TabletManager.getTablet (tabletManager om) key = Some tablet
         /\ TabletManager.state tablet = TabletManager.RECOVERING) ->
      removeIfTombstone maybeTomb om = Done om)).
Proof.
  split.
  - intros o G; unfold removeIfTombstone; rewrite G; reflexivity.
  - intros tomb key G L I.
    assert (NN : lookup om key <> NotFound) by (rewrite L; discriminate).
    destruct (discard_indexed_tombstone om key NN I) as [D E].
    unfold removeIfTombstone; rewrite G; fold key.
    split.
    + intros [N | (tablet & S & NR)].
      * rewrite N; exists (snd (remove om key)); split; [exact D | exact E].
      * rewrite S.
        destruct (TabletManager.state tablet); [| congruence].
        exists (snd (remove om key)); split; [exact D | exact E].
    + intros (tablet & S & R); rewrite S, R; reflexivity.
Qed.

(** ** The cleaner callback *)

Lemma setLog_id (om : ObjectManager) : setLog (log om) om = om.
Proof. destruct om; reflexivity. Qed.

(** C6.  relocateObject, case by case.  If the tablet of the object is not
    in the tablet registry, the key is removed from the index (it is gone
    afterwards, provided the index held at most one entry for it) and the
    relocator is handed back untouched.  Otherwise, if the key is not
    indexed the call does nothing; and if it is indexed as an object, the
    object is live exactly when the start address of the buffer behind the
    index's reference is the start address of oldBuffer: a stale copy leaves
    relocator and state untouched; a live one makes exactly one append
    request to the relocator, after which the index holds the relocator's
    new reference if the append succeeded and is unchanged if the relocator
    rejected it.  (If the key is indexed as a tombstone the call stops at
    its assertion, before the relocator is consulted.) *)
Theorem relocateObject_liveness (om : ObjectManager) (oldStart : Reference)
  (oldObject : Object.t) (relocator : LogEntryRelocator.t) :
  let key := Object.getKey oldObject in
  let result := relocateObject om oldStart oldObject relocator in
  (TabletManager.getTablet (tabletManager om) key = None ->
   result = Done (relocator, snd (remove om key))
   /\ (indexInvariant om = true -> lookup (snd (remove om key)) key = NotFound))
  /\
  (forall tablet,
     TabletManager.getTablet (tabletManager om) key = Some tablet ->
     (lookup om key = NotFound -> result = Done (relocator, om))
     /\
     (forall (r : Reference) (t : ObjectTombstone.t),
        lookup om key = FoundTombstone r t -> result = AssertionFailure)
     /\
     (forall (r : Reference) (o : Object.t),
        lookup om key = FoundObject r o ->
        (r <> oldStart -> result = Done (relocator, om))
        /\
        (r = oldStart ->
         LogEntryRelocator.hasMemory relocator = false ->
         result
         = Done (LogEntryRelocator.mk false
                   (S (LogEntryRelocator.appendCalls relocator))
                   (LogEntryRelocator.newReference relocator), om))
        /\
        (r = oldStart ->
         LogEntryRelocator.hasMemory relocator = true ->
         exists relocator' om',
           result = Done (relocator', om')
           /\ LogEntryRelocator.appendCalls relocator'
              = S (LogEntryRelocator.appendCalls relocator)
           /\ LogEntryRelocator.getNewReference relocator'
              = List.length (Log.memory (log om))
           /\ Log.memory (log om')
              = Log.memory (log om) ++ [(MAIN_LOG, EntryObject oldObject)]
           /\ lookup om' key
              = FoundObject (LogEntryRelocator.getNewReference relocator')
                  oldObject))).
Proof.
  intros key result; subst result; unfold relocateObject; fold key.
  split.
  - intros N; rewrite N; split; [reflexivity |].
    intros I; apply lookup_remove, (indexInvariant_keys om I).
  - intros tablet S; rewrite S; split; [| split].
    + intros L; rewrite L; reflexivity.
    + intros r t L; rewrite L; reflexivity.
    + intros r o L; rewrite L; cbn [assert bind foundReference].
      split; [| split].
      * intros NE; apply Nat.eqb_neq in NE; rewrite NE; reflexivity.
      * intros -> M; rewrite Nat.eqb_refl.
        unfold LogEntryRelocator.append; rewrite M; cbn [negb].
        rewrite setLog_id; reflexivity.
      * intros -> M; rewrite Nat.eqb_refl.
        unfold LogEntryRelocator.append, Log.append; rewrite M; cbn [negb].
        do 2 eexists; split; [reflexivity |].
        cbn [LogEntryRelocator.appendCalls LogEntryRelocator.getNewReference
             LogEntryRelocator.newReference].
        split; [reflexivity | split; [reflexivity |]].
        match goal with
        | |- context [replace ?a ?k ?rf] =>
            destruct (install_entry a (log om) MAIN_LOG (EntryObject oldObject)
                        k eq_refl eq_refl) as (I1 & I2)
        end.
        cbv zeta in I1, I2; split; [rewrite I2; reflexivity | exact I1].
Qed.

(** ** Writing *)

(** What lookup finds is the log entry behind the reference it reports. *)
Lemma lookup_resolves (om : ObjectManager) (key : Key) :
  match lookup om key with
  | FoundObject r o =>
      Log.getEntry (log om) r = Some (EntryObject o) /\ Object.getKey o = key
  | FoundTombstone r t =>
      Log.getEntry (log om) r = Some (EntryTombstone t)
      /\ ObjectTombstone.getKey t = key
  | NotFound => True
  end.
Proof.
  destruct (lookup_found om key) as [N | (r & e & G & K & L & NN)].
  - rewrite N; exact I.
  - rewrite L; destruct e as [o | t | s]; simpl in *;
      [split; congruence | split; congruence | congruence].
Qed.

(** Past the tablet check, writeObject goes on with the current version of
    the key and the state as it is, unless lookup has found a tombstone:
    then the call of removeIfTombstone leaves defined behaviour. *)
Lemma writeObject_prepare (om : ObjectManager) (key : Key) :
  let current : Exec (Z * ObjectManager) :=
    match lookup om key with
    | FoundTombstone _ _ => Undefined
    | FoundObject _ currentObject => Done (Object.getVersion currentObject, om)
    | NotFound => Done (VERSION_NONEXISTENT, om)
    end in
  current = Done (currentVersionOf om key, om)
  \/ current = Undefined
      /\ exists r t, lookup om key = FoundTombstone r t.
Proof.
  unfold currentVersionOf.
  destruct (lookup om key) as [r o | r t |]; eauto.
Qed.

Lemma getEntry_append_second (which which' : LogId) (e e' : LogEntry)
  (l : Log.t) :
  Log.getEntry (snd (Log.append which' e' (snd (Log.append which e l))))
    (List.length (Log.memory l))
  = Some e.
Proof.
  rewrite getEntry_append_old.
  - exact (getEntry_append_new which e l).
  - cbn [Log.append snd Log.memory]; rewrite length_app; simpl; lia.
Qed.

Lemma newObject_key (key : Key) (value : string) (version timestamp : Z) :
  Object.getKey (newObject key value version timestamp) = key.
Proof. destruct key; reflexivity. Qed.

Lemma writeObject_success (om : ObjectManager) (key : Key) (value : string)
  (rejectRules : option RejectRules) (outVersion : bool) (now later : Z)
  (logHasSpace : bool) (out : option Z) (om' : ObjectManager) :
  writeObject om key value rejectRules outVersion now later logHasSpace
  = Done (STATUS_OK, out, om') ->
  let currentVersion := currentVersionOf om key in
  let newVersion :=
    if currentVersion =? VERSION_NONEXISTENT
    then safeVersion om else wrap64 (currentVersion + 1) in
  out = store outVersion newVersion
  /\ (currentVersion =? VERSION_NONEXISTENT) || (currentVersion <? newVersion)
     = true
  /\ lookup om' key
     = FoundObject (List.length (Log.memory (log om)))
         (newObject key value newVersion now)
  /\ applyRejectRules rejectRules currentVersion = STATUS_OK
  /\ logHasSpace = true
  /\ safeVersion om'
     = (if currentVersion =? VERSION_NONEXISTENT
        then wrap64 (safeVersion om + 1) else safeVersion om).
Proof.
  intros W currentVersion newVersion.
  unfold writeObject in W.
  set (om_a := if anyWrites om then om else setAnyWrites true om) in W.
  assert (A : log om_a = log om /\ objectMap om_a = objectMap om
              /\ safeVersion om_a = safeVersion om
              /\ tabletManager om_a = tabletManager om)
    by (subst om_a; destruct (anyWrites om); auto).
  destruct A as (Al & Am & As & At).
  assert (Alk : forall k, lookup om_a k = lookup om k)
    by (intros k; apply lookup_same_index;
        [rewrite Al; reflexivity | exact Am]).
  destruct (TabletManager.getTablet (tabletManager om_a) key)
    as [tablet |] eqn:S;
    [| discriminate].
  destruct (TabletManager.state tablet) eqn:N; [| discriminate].
  cbn [TabletManager.TabletState_eqb negb] in W.
  destruct (writeObject_prepare om_a key) as [P | [P _]];
    cbv zeta in P; rewrite P in W; cbn [bind] in W; [| discriminate].
  assert (CV : currentVersionOf om_a key = currentVersion)
    by (unfold currentVersionOf, currentVersion; rewrite Alk; reflexivity).
  rewrite CV in W.
  destruct (Status_eqb (applyRejectRules rejectRules currentVersion) STATUS_OK)
    eqn:R; cbn [negb] in W.
  2:{ injection W as W _ _. apply Status_eqb_eq in W. congruence. }
  apply Status_eqb_eq in R.
  set (om_v := if currentVersion =? VERSION_NONEXISTENT
               then snd (allocateVersion om_a) else om_a).
  assert (V : (if currentVersion =? VERSION_NONEXISTENT
               then allocateVersion om_a
               else (wrap64 (currentVersion + 1), om_a)) = (newVersion, om_v)).
  { subst newVersion om_v; destruct (currentVersion =? VERSION_NONEXISTENT);
      [unfold allocateVersion; cbn [snd]; rewrite As |]; reflexivity. }
  assert (Vl : log om_v = log om /\ objectMap om_v = objectMap om_a).
  { subst om_v; destruct (currentVersion =? VERSION_NONEXISTENT);
      cbn [allocateVersion snd log objectMap setSafeVersion];
      rewrite Al; auto. }
  destruct Vl as [Vl Vm].
  assert (Vs : safeVersion om_v
               = (if currentVersion =? VERSION_NONEXISTENT
                  then wrap64 (safeVersion om + 1) else safeVersion om)).
  { subst om_v; destruct (currentVersion =? VERSION_NONEXISTENT);
      cbn [allocateVersion snd safeVersion setSafeVersion];
      rewrite As; reflexivity. }
  rewrite V in W; clear V.
  change (Object.getVersion (newObject key value newVersion now))
    with newVersion in W.
  destruct ((currentVersion =? VERSION_NONEXISTENT)
            || (currentVersion <? newVersion)) eqn:Asserted;
    [| discriminate].
  cbn [assert bind] in W.
  destruct logHasSpace; [| discriminate].
  cbn [negb] in W; unfold Log.append in W; cbv zeta in W.
  injection W as Wout Wom.
  split; [auto | split; [auto | split; [| split; [auto | split; [auto |]]]]].
  2:{ rewrite <- Vs, <- Wom.
      destruct (match lookup om_a key with
                | FoundObject currentReference object =>
                    if negb (currentVersion =? VERSION_NONEXISTENT)
                    then Some (currentReference,
                               newTombstone object
                                 (getSegmentId currentReference) later)
                    else None
                | _ => None
                end) as [[currentReference tomb] |];
        cbn [safeVersion setTabletManager setLog];
        match goal with
        | |- context [replace ?a ?k ?rf] =>
            destruct (replace_log a k rf) as (_ & _ & -> & _)
        end; reflexivity. }
  set (tombstone := match lookup om_a key with
                    | FoundObject currentReference object =>
                        if negb (currentVersion =? VERSION_NONEXISTENT)
                        then Some (currentReference,
                                   newTombstone object
                                     (getSegmentId currentReference) later)
                        else None
                    | _ => None
                    end) in Wom.
  rewrite <- Vl.
  set (newObj := newObject key value newVersion now) in *.
  destruct tombstone as [[currentReference tomb] |]; subst om'.
  - etransitivity;
      [apply lookup_same_index; cbn [log objectMap setTabletManager setLog
                                      Log.free Log.memory]; reflexivity |].
    apply (lookup_replace _ key _ (EntryObject newObj));
      [| exact (f_equal Some (newObject_key key value newVersion now))].
    cbn [log setLog].
    exact (getEntry_append_second MAIN_LOG MAIN_LOG (EntryObject newObj)
             (EntryTombstone tomb) (log om_v)).
  - etransitivity;
      [apply lookup_same_index; cbn [log objectMap setTabletManager];
       reflexivity |].
    apply (lookup_replace _ key _ (EntryObject newObj));
      [| exact (f_equal Some (newObject_key key value newVersion now))].
    exact (getEntry_append_new MAIN_LOG (EntryObject newObj) (log om_v)).
Qed.


(** The assertion of writeObject can only fail when incrementing the
    current version wraps around. *)
Lemma writeObject_no_assertion (om : ObjectManager) (key : Key) (value : string)
  (rejectRules : option RejectRules) (outVersion : bool) (now later : Z)
  (logHasSpace : bool) :
  let currentVersion := currentVersionOf om key in
  (currentVersion =? VERSION_NONEXISTENT)
  || (currentVersion <? wrap64 (currentVersion + 1)) = true ->
  writeObject om key value rejectRules outVersion now later logHasSpace
  <> AssertionFailure.
Proof.
  intros currentVersion A.
  unfold writeObject.
  set (om_a := if anyWrites om then om else setAnyWrites true om).
  assert (Alk : forall k, lookup om_a k = lookup om k)
    by (intros k; subst om_a; destruct (anyWrites om); reflexivity).
  destruct (TabletManager.getTablet (tabletManager om_a) key)
    as [tablet |] eqn:S;
    [| discriminate].
  destruct (TabletManager.state tablet) eqn:N; [| discriminate].
  cbn [TabletManager.TabletState_eqb negb].
  destruct (writeObject_prepare om_a key) as [P | [P _]];
    cbv zeta in P; rewrite P; cbn [bind]; [| discriminate].
  assert (CV : currentVersionOf om_a key = currentVersion)
    by (unfold currentVersionOf, currentVersion; rewrite Alk; reflexivity).
  rewrite CV.
  destruct (negb (Status_eqb _ _)); [discriminate |].
  destruct (currentVersion =? VERSION_NONEXISTENT) eqn:Z0;
    cbn [allocateVersion orb];
    change (Object.getVersion (newObject ?k ?v ?n ?t)) with n.
  - cbn [assert bind]; destruct (negb logHasSpace); discriminate.
  - cbn [orb] in A.
    change (Object.getVersion
              (newObject key value (wrap64 (currentVersion + 1)) now))
      with (wrap64 (currentVersion + 1)).
    rewrite A; cbn [assert bind]; destruct (negb logHasSpace); discriminate.
Qed.

Lemma wrap64_small (z : Z) : 0 <= z <= UINT64_MAX -> wrap64 z = z.
Proof.
  unfold wrap64, UINT64_MAX; intros R; apply Z.mod_small; lia.
Qed.

(** Writing away from the last version.  As long as the current version of
    the key is below
    2^64 - 1 and the version allocator's safeVersion is at least 1 (that is,
    no 64-bit version has wrapped around), the assertion of writeObject
    does not fail, and every successful writeObject gives the object a new
    version that is greater than currentVersion: the value the version
    allocator hands out (the allocator moves on by one) if currentVersion is
    VERSION_NONEXISTENT, that is, if the key was absent (with a TOMBSTONE
    indexed the call does not return), and currentVersion + 1 otherwise.  The new version is what the
    index then holds for the key, and it is stored through outVersion when
    outVersion is not NULL. *)
Theorem writeObject_new_version (om : ObjectManager) (key : Key)
  (value : string) (rejectRules : option RejectRules) (outVersion : bool)
  (now later : Z) (logHasSpace : bool) :
  let currentVersion := currentVersionOf om key in
  0 <= currentVersion < UINT64_MAX ->
  0 < safeVersion om ->
  writeObject om key value rejectRules outVersion now later logHasSpace
  <> AssertionFailure
  /\
  forall (out : option Z) (om' : ObjectManager),
    writeObject om key value rejectRules outVersion now later logHasSpace
    = Done (STATUS_OK, out, om') ->
    exists newVersion : Z,
      (currentVersion = VERSION_NONEXISTENT ->
       newVersion = safeVersion om
       /\ safeVersion om' = wrap64 (safeVersion om + 1))
      /\ (currentVersion <> VERSION_NONEXISTENT ->
          newVersion = currentVersion + 1)
      /\ newVersion > currentVersion
      /\ lookup om' key
         = FoundObject (List.length (Log.memory (log om)))
             (newObject key value newVersion now)
      /\ out = (if outVersion then Some newVersion else None).
Proof.
  intros currentVersion Range Floor.
  assert (Wrap : wrap64 (currentVersion + 1) = currentVersion + 1)
    by (apply wrap64_small; lia).
  split.
  - apply writeObject_no_assertion; fold currentVersion.
    rewrite Wrap; apply orb_true_iff; right; apply Z.ltb_lt; lia.
  - intros out om' W.
    destruct (writeObject_success _ _ _ _ _ _ _ _ _ _ W)
      as (O & _ & L & _ & _ & SV).
    fold currentVersion in O, L, SV.
    exists (if currentVersion =? VERSION_NONEXISTENT
            then safeVersion om else wrap64 (currentVersion + 1)).
    destruct (Z.eqb_spec currentVersion VERSION_NONEXISTENT) as [E | NE].
    + repeat split; auto; try congruence.
      rewrite E; unfold VERSION_NONEXISTENT; lia.
    + rewrite Wrap in *; repeat split; auto; try congruence; lia.
Qed.

(** ** Removing *)

(** The state in which removeObject calls remove, after it has appended the
    tombstone, synced, raised safeVersion and freed the old reference. *)
Lemma removeObject_success (om : ObjectManager) (key : Key)
  (rejectRules : option RejectRules) (outVersion : bool) (now : Z)
  (logHasSpace : bool) (tablet : TabletManager.Tablet) (r : Reference)
  (o : Object.t) (out : option Z) (om1 : ObjectManager) :
  TabletManager.getTablet (tabletManager om) key = Some tablet ->
  TabletManager.state tablet = TabletManager.NORMAL ->
  lookup om key = FoundObject r o ->
  removeObject om key rejectRules outVersion now logHasSpace
  = (STATUS_OK, out, om1) ->
  exists om0,
    om1 = snd (remove om0 key)
    /\ objectMap om0 = objectMap om
    /\ tabletManager om0 = tabletManager om
    /\ Log.memory (log om0)
       = Log.memory (log om)
         ++ [(MAIN_LOG,
              EntryTombstone (newTombstone o (getSegmentId r) now))]
    /\ Log.syncCount (log om0) = S (Log.syncCount (log om))
    /\ Log.freed (log om0) = Log.freed (log om) ++ [(MAIN_LOG, r)]
    /\ safeVersion om0
       = Z.max (safeVersion om) (wrap64 (Object.getVersion o + 1)).
Proof.
  intros S N L W; unfold removeObject in W.
  rewrite S, N, L in W; cbn [TabletManager.TabletState_eqb negb] in W.
  destruct (Status_eqb (applyRejectRules rejectRules (Object.getVersion o))
              STATUS_OK) eqn:R; cbn [negb] in W.
  2:{ injection W as W _ _. apply Status_eqb_eq in W; congruence. }
  destruct logHasSpace; cbn [negb] in W; [| discriminate].
  injection W as _ W.
  eexists; split; [symmetry; exact W |].
  unfold raiseSafeVersion, Log.append.
  cbn [snd log setLog safeVersion].
  destruct (Z.ltb_spec (safeVersion om) (wrap64 (Object.getVersion o + 1)));
    cbn [snd log setLog objectMap tabletManager safeVersion setSafeVersion
         Log.free Log.sync Log.memory Log.freed Log.syncCount];
    repeat split; lia.
Qed.

Lemma agreeOn_extended (l l' : Log.t) (more : list (LogId * LogEntry))
  (slots : list (Z * Reference)) :
  Log.memory l' = Log.memory l ++ more ->
  referencesResolve l slots = true ->
  agreeOn l l' slots.
Proof.
  unfold referencesResolve; rewrite forallb_forall.
  intros M R slot I; unfold Log.getEntry; rewrite M.
  rewrite nth_error_app1; [reflexivity |].
  apply Nat.ltb_lt, R, I.
Qed.

(** Removal away from the last version.  In a state that satisfies the
    invariants of the index,
    for every key k indexed as an OBJECT of a version below 2^64 - 1 in a
    NORMAL tablet: if removeObject(k) returns OK, it has appended a
    tombstone for the object to the log, called the log's sync, raised
    safeVersion to the object's version + 1 (left it where it was if it was
    already that high), freed the old object reference and removed k from
    the index; a readObject(k) that follows returns OBJECT_DOESNT_EXIST and
    changes nothing, and a successful writeObject(k) that follows produces a
    version strictly greater than that of the removed object. *)
Theorem removeObject_then_read_write (om : ObjectManager) (key : Key)
  (rejectRules : option RejectRules) (outVersion : bool) (now : Z)
  (logHasSpace : bool) (tablet : TabletManager.Tablet) (r : Reference)
  (o : Object.t) (out : option Z) (om1 : ObjectManager) :
  TabletManager.getTablet (tabletManager om) key = Some tablet ->
  TabletManager.state tablet = TabletManager.NORMAL ->
  lookup om key = FoundObject r o ->
  indexInvariant om = true ->
  0 <= Object.getVersion o < UINT64_MAX ->
  removeObject om key rejectRules outVersion now logHasSpace
  = (STATUS_OK, out, om1) ->
  Log.memory (log om1)
  = Log.memory (log om)
    ++ [(MAIN_LOG, EntryTombstone (newTombstone o (getSegmentId r) now))]
  /\ Log.syncCount (log om1) = S (Log.syncCount (log om))
  /\ safeVersion om1 = Z.max (safeVersion om) (Object.getVersion o + 1)
  /\ Log.freed (log om1) = Log.freed (log om) ++ [(MAIN_LOG, r)]
  /\ lookup om1 key = NotFound
  /\ (forall (rules : option RejectRules) (wantVersion : bool),
        readObject om1 key rules wantVersion
        = (STATUS_OBJECT_DOESNT_EXIST, None, None, om1))
  /\ (forall (value : string) (rules : option RejectRules)
        (wantVersion : bool) (now2 later2 : Z) (space : bool)
        (out' : option Z) (om2 : ObjectManager),
        writeObject om1 key value rules wantVersion now2 later2 space
        = Done (STATUS_OK, out', om2) ->
        exists newVersion : Z,
          newVersion > Object.getVersion o
          /\ lookup om2 key
             = FoundObject (List.length (Log.memory (log om1)))
                 (newObject key value newVersion now2)
          /\ out' = (if wantVersion then Some newVersion else None)).
Proof.
  intros S N L I Range W.
  destruct (removeObject_success _ _ _ _ _ _ _ _ _ _ _ S N L W)
    as (om0 & -> & Em & Et & Mem & Sync & Freed & Safe).
  destruct (remove_fields om0 key) as (Fl & Ft & Fs & _).
  destruct (indexInvariant_keys om I) as [RR ND].
  rewrite wrap64_small in Safe by lia.
  assert (Gone : lookup (snd (remove om0 key)) key = NotFound).
  { apply lookup_remove; rewrite Em.
    rewrite (indexedKeys_agree (log om) (log om0));
      [exact ND | exact (agreeOn_extended _ _ _ _ Mem RR)]. }
  rewrite Fl, Fs.
  split; [exact Mem | split; [exact Sync | split; [exact Safe |
    split; [exact Freed | split; [exact Gone | split]]]]].
  - intros rules wantVersion; unfold readObject.
    rewrite Ft, Et, S, N, Gone; reflexivity.
  - intros value rules wantVersion now2 later2 space out' om2 W2.
    destruct (writeObject_success _ _ _ _ _ _ _ _ _ _ W2)
      as (O & _ & L2 & _).
    unfold currentVersionOf in O, L2; rewrite Gone in O, L2.
    cbn [Z.eqb VERSION_NONEXISTENT] in O, L2.
    rewrite Fs, Safe in O, L2; rewrite Fl in L2.
    exists (Z.max (safeVersion om) (Object.getVersion o + 1)).
    repeat split; [lia | exact L2 | exact O].
Qed.

(** A recovery tombstone in the index makes the assertion of relocateObject
    fail: once the tablet is found and lookup reports a tombstone for the
    key, no further condition is consulted. *)
Lemma relocateObject_indexed_tombstone (om : ObjectManager)
  (oldStart : Reference) (oldObject : Object.t)
  (relocator : LogEntryRelocator.t) (tablet : TabletManager.Tablet)
  (r : Reference) (t : ObjectTombstone.t) :
  TabletManager.getTablet (tabletManager om) (Object.getKey oldObject)
  = Some tablet ->
  lookup om (Object.getKey oldObject) = FoundTombstone r t ->
  relocateObject om oldStart oldObject relocator = AssertionFailure.
Proof.
  intros S L; unfold relocateObject; rewrite S, L; reflexivity.
Qed.

(** ** The index invariant is maintained *)

Lemma Key_eqb_sym (a b : Key) : Key_eqb a b = Key_eqb b a.
Proof.
  destruct (Key_eqb a b) eqn:E.
  - apply Key_eqb_eq in E; subst; symmetry; apply Key_eqb_refl.
  - destruct (Key_eqb b a) eqn:E'; [| reflexivity].
    apply Key_eqb_eq in E'; subst; rewrite Key_eqb_refl in E; discriminate.
Qed.

Lemma slotKey_resolves (l : Log.t) (slot : Z * Reference) (k : Key) :
  slotKey l slot = Some k ->
  (snd slot < List.length (Log.memory l))%nat.
Proof.
  unfold slotKey, Log.getEntry.
  destruct (nth_error (Log.memory l) (snd slot)) as [[w e] |] eqn:N;
    [| discriminate].
  intros _; apply nth_error_Some; congruence.
Qed.

Lemma wellPlaced_resolve (l : Log.t) (h : HashTable.t)
  (slots : list (Z * Reference)) :
  forallb (slotWellPlaced l h) slots = true ->
  referencesResolve l slots = true.
Proof.
  unfold referencesResolve; rewrite !forallb_forall.
  intros W slot I; specialize (W slot I); unfold slotWellPlaced in W.
  destruct (slotKey l slot) as [k |] eqn:K; [| discriminate].
  apply Nat.ltb_lt, (slotKey_resolves l slot k K).
Qed.

(** The maintained invariant gives the invariants the theorems assume. *)
Lemma wellFormed_indexInvariant (om : ObjectManager) :
  wellFormed om = true -> indexInvariant om = true.
Proof.
  unfold wellFormed, indexInvariant; rewrite !andb_true_iff.
  intros [W N]; split; [apply (wellPlaced_resolve _ _ _ W) | exact N].
Qed.

Lemma wellFormed_construct (tablets : TabletManager.t) (n : Z) :
  wellFormed (construct tablets n) = true.
Proof. reflexivity. Qed.

Lemma wellPlaced_agree (l l' : Log.t) (h : HashTable.t)
  (slots : list (Z * Reference)) :
  agreeOn l l' slots ->
  forallb (slotWellPlaced l' h) slots = forallb (slotWellPlaced l h) slots.
Proof.
  induction slots as [| c rest IH]; intros A; simpl; [reflexivity |].
  apply agreeOn_tail in A as [Ec Ar].
  rewrite (IH Ar); unfold slotWellPlaced, slotKey; rewrite Ec; reflexivity.
Qed.

Lemma wellPlaced_same_buckets (l : Log.t) (h h' : HashTable.t)
  (slots : list (Z * Reference)) :
  HashTable.numBuckets h' = HashTable.numBuckets h ->
  forallb (slotWellPlaced l h') slots = forallb (slotWellPlaced l h) slots.
Proof.
  intros E; induction slots as [| c rest IH]; simpl; [reflexivity |].
  rewrite IH; unfold slotWellPlaced, HashTable.bucketOf; rewrite E.
  reflexivity.
Qed.

(** Appending to the log keeps the invariant. *)
Lemma wellFormed_extend (om : ObjectManager) (l' : Log.t)
  (more : list (LogId * LogEntry)) :
  Log.memory l' = Log.memory (log om) ++ more ->
  wellFormed om = true ->
  wellFormed (setLog l' om) = true.
Proof.
  intros M W; unfold wellFormed in *; cbn [log objectMap setLog].
  apply andb_true_iff in W as [P N].
  assert (A : agreeOn (log om) l' (HashTable.slots (objectMap om)))
    by (apply (agreeOn_extended _ _ more); [exact M |];
        apply (wellPlaced_resolve _ _ _ P)).
  rewrite (wellPlaced_agree _ _ _ _ A), (indexedKeys_agree _ _ _ A), P, N.
  reflexivity.
Qed.

Lemma removeIn_wellPlaced (l : Log.t) (h : HashTable.t) (key : Key)
  (slots : list (Z * Reference)) :
  forallb (slotWellPlaced l h) slots = true ->
  forallb (slotWellPlaced l h) (snd (removeIn l h key slots)) = true.
Proof.
  induction slots as [| c rest IH]; simpl; [auto |].
  rewrite andb_true_iff; intros [Pc Pr].
  destruct (examine l h key c); simpl; auto;
    destruct (removeIn l h key rest) as [b rest']; simpl in *;
    rewrite Pc; auto.
Qed.

Lemma existsb_indexedKeys_removeIn (l : Log.t) (h : HashTable.t)
  (key k : Key) (slots : list (Z * Reference)) :
  existsb (Key_eqb k) (indexedKeys l slots) = false ->
  existsb (Key_eqb k) (indexedKeys l (snd (removeIn l h key slots))) = false.
Proof.
  induction slots as [| c rest IH]; [auto |].
  rewrite indexedKeys_cons; cbn [removeIn].
  intros E.
  assert (Er : existsb (Key_eqb k) (indexedKeys l rest) = false).
  { destruct (slotKey l c); [| exact E].
    simpl in E; apply orb_false_iff in E; tauto. }
  destruct (examine l h key c); cbn [snd]; auto;
    destruct (removeIn l h key rest) as [b rest']; cbn [snd] in *.
  rewrite indexedKeys_cons.
  destruct (slotKey l c); [| auto].
  simpl in *; apply orb_false_iff in E as [E1 _]; rewrite E1; auto.
Qed.

Lemma removeIn_noDuplicateKey (l : Log.t) (h : HashTable.t) (key : Key)
  (slots : list (Z * Reference)) :
  noDuplicateKey (indexedKeys l slots) = true ->
  noDuplicateKey (indexedKeys l (snd (removeIn l h key slots))) = true.
Proof.
  induction slots as [| c rest IH]; [auto |]; intros N.
  pose proof (noDuplicateKey_tail l c rest N) as Nr.
  cbn [removeIn].
  destruct (examine l h key c); cbn [snd]; auto.
  specialize (IH Nr).
  pose proof (existsb_indexedKeys_removeIn l h key) as X.
  destruct (removeIn l h key rest) as [b rest'] eqn:R; cbn [snd] in *.
  rewrite indexedKeys_cons in *.
  destruct (slotKey l c) as [k |]; [| exact IH].
  simpl in *; apply andb_true_iff in N as [F _].
  apply negb_true_iff in F.
  specialize (X k rest F); rewrite R in X; cbn [snd] in X.
  rewrite X, IH; reflexivity.
Qed.

(** ObjectManager::remove keeps the invariant. *)
Lemma wellFormed_remove (om : ObjectManager) (key : Key) :
  wellFormed om = true -> wellFormed (snd (remove om key)) = true.
Proof.
  unfold wellFormed, remove; intros W.
  apply andb_true_iff in W as [P N].
  pose proof (removeIn_wellPlaced (log om) (objectMap om) key _ P) as P'.
  pose proof (removeIn_noDuplicateKey (log om) (objectMap om) key _ N) as N'.
  destruct (removeIn _ _ _ _) as [b slots']; cbn [snd log objectMap setObjectMap
    HashTable.slots HashTable.setSlots] in *.
  rewrite (wellPlaced_same_buckets (log om) (objectMap om)) by reflexivity.
  rewrite P', N'; reflexivity.
Qed.

Lemma slotKey_hit (l : Log.t) (b : Z) (r : Reference) (e : LogEntry)
  (key : Key) :
  Log.getEntry l r = Some e -> entryKey e = Some key ->
  slotKey l (b, r) = Some key.
Proof. intros G K; unfold slotKey; cbn [snd]; rewrite G; exact K. Qed.

Lemma replaceIn_replaced (l : Log.t) (h : HashTable.t) (key : Key)
  (reference : Reference) (e : LogEntry) (slots : list (Z * Reference)) :
  Log.getEntry l reference = Some e ->
  entryKey e = Some key ->
  fst (replaceIn l h key reference slots) = true ->
  indexedKeys l (snd (replaceIn l h key reference slots))
  = indexedKeys l slots
  /\ (forallb (slotWellPlaced l h) slots = true ->
      forallb (slotWellPlaced l h) (snd (replaceIn l h key reference slots))
      = true).
Proof.
  intros G K.
  induction slots as [| c rest IH]; cbn [replaceIn]; [discriminate |].
  destruct (examine_cases l h key c) as [N | (e' & B & G' & K' & E & NN)].
  - rewrite N.
    destruct (replaceIn l h key reference rest) as [b rest'];
      cbn [fst snd] in *.
    intros F; destruct (IH F) as [I P].
    rewrite !indexedKeys_cons, I; split; [reflexivity |].
    cbn [forallb]; rewrite !andb_true_iff; intros [Pc Pr]; auto.
  - rewrite E; intros _.
    assert (R : match foundAt (snd c) e' with
                | NotFound =>
                    let '(replaced, rest') :=
                      replaceIn l h key reference rest in
                    (replaced, c :: rest')
                | _ => (true, (fst c, reference) :: rest)
                end = (true, (fst c, reference) :: rest))
      by (destruct (foundAt (snd c) e'); congruence).
    rewrite R; cbn [snd].
    rewrite !indexedKeys_cons.
    rewrite (slotKey_hit l (fst c) reference e key G K).
    assert (Kc : slotKey l c = Some key)
      by (unfold slotKey; rewrite G'; exact K').
    rewrite Kc; split; [reflexivity |].
    cbn [forallb]; rewrite !andb_true_iff; intros [Pc Pr]; split; [| exact Pr].
    unfold slotWellPlaced.
    rewrite (slotKey_hit l (fst c) reference e key G K); cbn [fst].
    rewrite B; apply Z.eqb_refl.
Qed.

Lemma replaceIn_absent (l : Log.t) (h : HashTable.t) (key : Key)
  (reference : Reference) (slots : list (Z * Reference)) :
  forallb (slotWellPlaced l h) slots = true ->
  fst (replaceIn l h key reference slots) = false ->
  existsb (Key_eqb key) (indexedKeys l slots) = false.
Proof.
  induction slots as [| c rest IH]; [reflexivity |].
  cbn [forallb replaceIn]; rewrite andb_true_iff; intros [Pc Pr].
  destruct (examine l h key c) eqn:E; cbn [fst]; try discriminate.
  destruct (replaceIn l h key reference rest) as [b rest']; cbn [fst] in *.
  intros F; specialize (IH Pr F).
  rewrite indexedKeys_cons.
  unfold slotWellPlaced in Pc.
  destruct (slotKey l c) as [k |] eqn:Kc; [| exact IH].
  cbn [existsb]; rewrite IH, orb_false_r.
  destruct (Key_eqb key k) eqn:Q; [| reflexivity].
  apply Key_eqb_eq in Q; subst k.
  unfold slotKey in Kc.
  destruct (Log.getEntry l (snd c)) as [e |] eqn:G; [| discriminate].
  destruct c as [b0 r0]; cbn [fst snd] in *.
  apply Z.eqb_eq in Pc.
  destruct (examine_hit l h key b0 r0 e Pc G Kc) as [X NN].
  congruence.
Qed.

Lemma noDuplicateKey_snoc (keys : list Key) (k : Key) :
  noDuplicateKey keys = true ->
  existsb (Key_eqb k) keys = false ->
  noDuplicateKey (keys ++ [k]) = true.
Proof.
  induction keys as [| k0 rest IH]; [reflexivity |].
  cbn [noDuplicateKey existsb app]; rewrite andb_true_iff, orb_false_iff.
  intros [F N] [Q E].
  rewrite (IH N E), andb_true_r.
  rewrite existsb_app; cbn [existsb].
  apply negb_true_iff in F; rewrite F, Key_eqb_sym, Q; reflexivity.
Qed.

Lemma indexedKeys_snoc (l : Log.t) (slots : list (Z * Reference))
  (slot : Z * Reference) :
  indexedKeys l (slots ++ [slot])
  = indexedKeys l slots ++ indexedKeys l [slot].
Proof. unfold indexedKeys; apply flat_map_app. Qed.

(** ObjectManager::replace keeps the invariant when it is given the
    reference of an entry of the key. *)
Lemma wellFormed_replace (om : ObjectManager) (key : Key)
  (reference : Reference) (e : LogEntry) :
  Log.getEntry (log om) reference = Some e ->
  entryKey e = Some key ->
  wellFormed om = true ->
  wellFormed (snd (replace om key reference)) = true.
Proof.
  intros G K W; unfold wellFormed in *.
  apply andb_true_iff in W as [P N].
  pose proof (replaceIn_replaced (log om) (objectMap om) key reference e
                (HashTable.slots (objectMap om)) G K) as R.
  pose proof (replaceIn_absent (log om) (objectMap om) key reference
                (HashTable.slots (objectMap om)) P) as A.
  unfold replace.
  destruct (replaceIn _ _ _ _ _) as [[|] slots']; cbn [fst snd] in *;
    cbn [log objectMap setObjectMap HashTable.slots HashTable.setSlots
         HashTable.insert];
    rewrite (wellPlaced_same_buckets (log om) (objectMap om)) by reflexivity.
  - destruct (R eq_refl) as [I P']; rewrite I, (P' P), N; reflexivity.
  - rewrite forallb_app, P, indexedKeys_snoc.
    cbn [forallb]; unfold slotWellPlaced at 1.
    rewrite (slotKey_hit _ _ _ _ _ G K); cbn [fst].
    rewrite Z.eqb_refl; cbn [andb].
    unfold indexedKeys at 2; cbn [flat_map].
    rewrite (slotKey_hit _ _ _ _ _ G K), app_nil_r.
    apply noDuplicateKey_snoc; [exact N | apply A; reflexivity].
Qed.

(** The invariant only reads the memory of the log and the hash table. *)
Lemma wellFormed_same (om om' : ObjectManager) :
  Log.memory (log om') = Log.memory (log om) ->
  objectMap om' = objectMap om ->
  wellFormed om' = wellFormed om.
Proof.
  intros M O; unfold wellFormed; rewrite O.
  assert (A : agreeOn (log om) (log om') (HashTable.slots (objectMap om)))
    by (apply agreeOn_same_memory, M).
  rewrite (indexedKeys_agree _ _ _ A), (wellPlaced_agree _ _ _ _ A).
  reflexivity.
Qed.

(** Appending an entry and storing its reference under its key keeps the
    invariant. *)
Lemma wellFormed_install (om : ObjectManager) (which : LogId) (e : LogEntry)
  (key : Key) :
  entryKey e = Some key ->
  wellFormed om = true ->
  wellFormed
    (snd (replace (setLog (snd (Log.append which e (log om))) om) key
            (List.length (Log.memory (log om)))))
  = true.
Proof.
  intros K W.
  apply (wellFormed_replace _ key _ e); [| exact K |].
  - exact (getEntry_append_new which e (log om)).
  - apply (wellFormed_extend om _ [(which, e)]); [reflexivity | exact W].
Qed.

(** One iteration of replaySegment keeps the invariant. *)
Lemma wellFormed_replayEntry (om : ObjectManager) (e : LogEntry) :
  wellFormed om = true -> wellFormed (replayEntry om e) = true.
Proof.
  intros W; destruct e as [o | t | s].
  - pose proof (replay_object om o) as S; cbv zeta in S.
    destruct (_ <=? _).
    + destruct S as (_ & M & Mem & _).
      rewrite <- (wellFormed_install om SIDE_LOG (EntryObject o)
                    (Object.getKey o) eq_refl W).
      apply wellFormed_same; [| exact M].
      rewrite Mem; destruct (replace_log
        (setLog (snd (Log.append SIDE_LOG (EntryObject o) (log om))) om)
        (Object.getKey o) (List.length (Log.memory (log om)))) as (-> & _).
      reflexivity.
    + destruct S as (M & L); rewrite <- W.
      apply wellFormed_same; [rewrite L; reflexivity | exact M].
  - pose proof (replay_tombstone om t) as S; cbv zeta in S.
    destruct (_ <=? _).
    + destruct S as (_ & M & Mem & _).
      rewrite <- (wellFormed_install om SIDE_LOG (EntryTombstone t)
                    (ObjectTombstone.getKey t) eq_refl W).
      apply wellFormed_same; [| exact M].
      rewrite Mem; destruct (replace_log
        (setLog (snd (Log.append SIDE_LOG (EntryTombstone t) (log om))) om)
        (ObjectTombstone.getKey t) (List.length (Log.memory (log om))))
        as (-> & _).
      reflexivity.
    + destruct S as (M & L); rewrite <- W.
      apply wellFormed_same; [rewrite L; reflexivity | exact M].
  - rewrite <- (wellFormed_extend om
                  (snd (Log.append SIDE_LOG (EntrySafeVersion s) (log om)))
                  [(SIDE_LOG, EntrySafeVersion s)] eq_refl W).
    unfold replayEntry, raiseSafeVersion.
    repeat match goal with
      | |- context [if ?b then _ else _] => destruct b; cbv beta iota
      end;
      apply wellFormed_same; reflexivity.
Qed.

(** replaySegment keeps the invariant. *)
Lemma wellFormed_replaySegment (it : list LogEntry) (om : ObjectManager) :
  wellFormed om = true ->
  wellFormed (completionState (replaySegment om it)) = true.
Proof.
  intros W; unfold replaySegment, withDelayedIncrementer.
  cbn [completionState]; unfold DelayedIncrementer_construct.
  change (wellFormed (replayLoop om it) = true).
  revert om W; induction it as [| e rest IH]; intros om W; [exact W |].
  apply IH, wellFormed_replayEntry, W.
Qed.

(** removeIfTombstone keeps the invariant. *)
Lemma wellFormed_removeIfTombstone (maybeTomb : Reference)
  (om om' : ObjectManager) :
  wellFormed om = true ->
  removeIfTombstone maybeTomb om = Done om' ->
  wellFormed om' = true.
Proof.
  intros W; unfold removeIfTombstone.
  destruct (Log.getEntry (log om) maybeTomb) as [[o | t | s] |];
    try (intros D; injection D as <-; exact W).
  destruct (match TabletManager.getTablet _ _ with
            | Some _ => _
            | None => _
            end);
    [| intros D; injection D as <-; exact W].
  pose proof (wellFormed_remove om (ObjectTombstone.getKey t) W) as R.
  destruct (remove om (ObjectTombstone.getKey t)) as [[|] om1];
    cbn [assert bind snd] in *; [| discriminate].
  intros D; injection D as <-; exact R.
Qed.

Lemma wellFormed_forEachRemoveIfTombstone (references : list Reference)
  (om om' : ObjectManager) :
  wellFormed om = true ->
  forEachRemoveIfTombstone references om = Done om' ->
  wellFormed om' = true.
Proof.
  revert om; induction references as [| r rest IH]; intros om W; simpl.
  - intros D; injection D as <-; exact W.
  - destruct (removeIfTombstone r om) as [om1 | |] eqn:R; [| discriminate ..].
    cbn [bind]; apply IH, (wellFormed_removeIfTombstone r om om1 W R).
Qed.

(** A tick of the tombstone reaper keeps the invariant. *)
Lemma wellFormed_poll (om om' : ObjectManager) :
  wellFormed om = true -> poll om = Done om' -> wellFormed om' = true.
Proof.
  intros W; unfold poll.
  destruct (_ && _); [intros D; injection D as <-; exact W |].
  destruct (forEachRemoveIfTombstone _ om) as [om1 | |] eqn:F; [| discriminate ..].
  cbn [bind]; intros D; injection D as <-.
  apply (wellFormed_forEachRemoveIfTombstone _ om om1 W) in F.
  rewrite <- F; apply wellFormed_same; reflexivity.
Qed.

(** relocateObject keeps the invariant. *)
Lemma wellFormed_relocateObject (om om' : ObjectManager) (oldStart : Reference)
  (oldObject : Object.t) (relocator relocator' : LogEntryRelocator.t) :
  wellFormed om = true ->
  relocateObject om oldStart oldObject relocator = Done (relocator', om') ->
  wellFormed om' = true.
Proof.
  intros W; unfold relocateObject.
  destruct (TabletManager.getTablet _ _) as [tablet |].
  2:{ intros D; injection D as _ <-; apply wellFormed_remove, W. }
  destruct (lookup om (Object.getKey oldObject)) as [r o | r t |];
    cbn [assert bind]; try discriminate;
    [| intros D; injection D as _ <-; exact W].
  destruct (Nat.eqb _ _); [| intros D; injection D as _ <-; exact W].
  unfold LogEntryRelocator.append.
  destruct (LogEntryRelocator.hasMemory relocator); cbn [negb].
  - unfold Log.append; cbv zeta.
    intros D; injection D as _ <-.
    exact (wellFormed_install om MAIN_LOG (EntryObject oldObject)
             (Object.getKey oldObject) eq_refl W).
  - intros D; injection D as _ <-; rewrite setLog_id; exact W.
Qed.

(** writeObject keeps the invariant, whatever status it returns. *)
Lemma wellFormed_writeObject (om om' : ObjectManager) (key : Key)
  (value : string) (rejectRules : option RejectRules) (outVersion : bool)
  (now later : Z) (logHasSpace : bool) (status : Status) (out : option Z) :
  wellFormed om = true ->
  writeObject om key value rejectRules outVersion now later logHasSpace
  = Done (status, out, om') ->
  wellFormed om' = true.
Proof.
  intros W0; unfold writeObject.
  set (om_a := if anyWrites om then om else setAnyWrites true om).
  assert (W : wellFormed om_a = true)
    by (subst om_a; destruct (anyWrites om); exact W0).
  clearbody om_a; clear W0 om.
  destruct (TabletManager.getTablet (tabletManager om_a) key)
    as [tablet |] eqn:S;
    [| intros D; injection D as _ _ <-; exact W].
  destruct (TabletManager.state tablet) eqn:N;
    cbn [TabletManager.TabletState_eqb negb];
    [| intros D; injection D as _ _ <-; exact W].
  destruct (writeObject_prepare om_a key) as [P | [P _]];
    cbv zeta in P; rewrite P; cbn [bind]; [| discriminate].
  pose proof W as W1.
  destruct (negb (Status_eqb _ _));
    [intros D; injection D as _ _ <-; exact W1 |].
  set (cv := currentVersionOf om_a key).
  set (om_v := if cv =? VERSION_NONEXISTENT
               then snd (allocateVersion om_a) else om_a).
  assert (Wv : wellFormed om_v = true)
    by (subst om_v; destruct (cv =? VERSION_NONEXISTENT); exact W1).
  assert (V : exists newVersion,
                (if cv =? VERSION_NONEXISTENT
                 then allocateVersion om_a
                 else (wrap64 (cv + 1), om_a)) = (newVersion, om_v))
    by (subst om_v; destruct (cv =? VERSION_NONEXISTENT); eexists; reflexivity).
  destruct V as [newVersion ->]; clearbody om_v.
  destruct (assert _); cbn [bind]; [| discriminate ..].
  destruct logHasSpace; cbn [negb];
    [| intros D; injection D as _ _ <-; exact Wv].
  unfold Log.append; cbv zeta.
  set (newObj := newObject key value newVersion now).
  destruct (match lookup om_a key with
            | FoundObject currentReference object =>
                if negb (cv =? VERSION_NONEXISTENT)
                then Some (currentReference,
                           newTombstone object (getSegmentId currentReference)
                             later)
                else None
            | _ => None
            end) as [[currentReference tomb] |];
    intros D; injection D as _ _ <-.
  - erewrite wellFormed_same;
      [| cbn [log setTabletManager setLog Log.free Log.memory]; reflexivity
       | reflexivity].
    apply (wellFormed_replace _ key _ (EntryObject newObj)).
    + exact (getEntry_append_second MAIN_LOG MAIN_LOG (EntryObject newObj)
               (EntryTombstone tomb) (log om_v)).
    + exact (f_equal Some (newObject_key key value newVersion now)).
    + apply (wellFormed_extend om_v _
               [(MAIN_LOG, EntryObject newObj); (MAIN_LOG, EntryTombstone tomb)]);
        [| exact Wv].
      cbn [snd Log.memory]; rewrite <- app_assoc; reflexivity.
  - erewrite wellFormed_same;
      [| cbn [log setTabletManager]; reflexivity | reflexivity].
    apply (wellFormed_replace _ key _ (EntryObject newObj)).
    + exact (getEntry_append_new MAIN_LOG (EntryObject newObj) (log om_v)).
    + exact (f_equal Some (newObject_key key value newVersion now)).
    + apply (wellFormed_extend om_v _ [(MAIN_LOG, EntryObject newObj)]);
        [reflexivity | exact Wv].
Qed.

(** readObject keeps the invariant. *)
Lemma wellFormed_readObject (om : ObjectManager) (key : Key)
  (rejectRules : option RejectRules) (outVersion : bool) :
  wellFormed om = true ->
  wellFormed (snd (readObject om key rejectRules outVersion)) = true.
Proof.
  intros W; unfold readObject.
  destruct (TabletManager.getTablet _ _) as [tablet |]; [| exact W].
  destruct (negb _); [exact W |].
  destruct (lookup om key) as [r o | r t |]; try exact W.
  destruct (negb _); exact W.
Qed.

(** removeObject keeps the invariant, whatever status it returns. *)
Lemma wellFormed_removeObject (om : ObjectManager) (key : Key)
  (rejectRules : option RejectRules) (outVersion : bool) (now : Z)
  (logHasSpace : bool) :
  wellFormed om = true ->
  wellFormed (snd (removeObject om key rejectRules outVersion now logHasSpace))
  = true.
Proof.
  intros W; unfold removeObject.
  destruct (TabletManager.getTablet _ _) as [tablet |]; [| exact W].
  destruct (negb _); [exact W |].
  destruct (lookup om key) as [r o | r t |]; try exact W.
  destruct (negb _); [exact W |].
  destruct (negb logHasSpace); [exact W |].
  cbn [snd]; apply wellFormed_remove.
  unfold raiseSafeVersion, Log.append; cbn [snd log setLog safeVersion].
  rewrite <- (wellFormed_extend om
                (snd (Log.append MAIN_LOG
                        (EntryTombstone
                           (newTombstone o (getSegmentId r) now)) (log om)))
                [(MAIN_LOG,
                  EntryTombstone (newTombstone o (getSegmentId r) now))]
                eq_refl W).
  destruct (_ <? _); apply wellFormed_same; reflexivity.
Qed.


Lemma indexedKeys_member (l : Log.t) (slots : list (Z * Reference))
  (slot : Z * Reference) (k : Key) :
  In slot slots ->
  slotKey l slot = Some k ->
  existsb (Key_eqb k) (indexedKeys l slots) = true.
Proof.
  induction slots as [| c rest IH]; [contradiction |].
  intros [-> | I] K; rewrite indexedKeys_cons.
  - rewrite K; cbn [existsb]; rewrite Key_eqb_refl; reflexivity.
  - specialize (IH I K).
    destruct (slotKey l c); cbn [existsb]; rewrite IH;
      [apply orb_true_r | reflexivity].
Qed.

Lemma lookupIn_slot (l : Log.t) (h : HashTable.t) (key : Key)
  (slots : list (Z * Reference)) (b : Z) (r : Reference) (e : LogEntry) :
  forallb (slotWellPlaced l h) slots = true ->
  noDuplicateKey (indexedKeys l slots) = true ->
  In (b, r) slots ->
  Log.getEntry l r = Some e ->
  entryKey e = Some key ->
  lookupIn l h key slots = foundAt r e.
Proof.
  intros P N I G K.
  pose proof (slotKey_hit l b r e key G K) as Kr.
  induction slots as [| c rest IH]; [contradiction |].
  cbn [forallb] in P; apply andb_true_iff in P as [Pc Pr].
  cbn [lookupIn].
  destruct I as [-> | I].
  - unfold slotWellPlaced in Pc; rewrite Kr in Pc; cbn [fst] in Pc.
    apply Z.eqb_eq in Pc.
    destruct (examine_hit l h key b r e Pc G K) as [X NN].
    rewrite X; apply found_or_next, NN.
  - destruct (examine_cases l h key c) as [X | (e' & _ & G' & K' & _)].
    + rewrite X; apply IH; [exact Pr | exact (noDuplicateKey_tail l c rest N)
                           | exact I].
    + exfalso.
      rewrite indexedKeys_cons in N; unfold slotKey at 1 in N.
      rewrite G', K' in N; cbn [noDuplicateKey] in N.
      apply andb_true_iff in N as [F _]; apply negb_true_iff in F.
      rewrite (indexedKeys_member l rest (b, r) key I Kr) in F.
      discriminate.
Qed.

(** In a well-formed index, every reference that forEachInBucket hands to
    its callback is the reference the index holds for the key of its
    entry. *)
Lemma visited_is_indexed (om : ObjectManager) (i : Z) (r : Reference)
  (e : LogEntry) (key : Key) :
  wellFormed om = true ->
  In r (HashTable.inBucket (objectMap om) i) ->
  Log.getEntry (log om) r = Some e ->
  entryKey e = Some key ->
  lookup om key = foundAt r e.
Proof.
  unfold wellFormed, HashTable.inBucket, lookup; rewrite andb_true_iff.
  intros [P N] I G K.
  apply in_map_iff in I as ([b r'] & E & I); cbn [snd] in E; subst r'.
  apply filter_In in I as [I _].
  exact (lookupIn_slot _ _ key _ b r e P N I G K).
Qed.

(** C7.  For every index entry that the tombstone reaper visits in a
    bucket of a well-formed index, removeIfTombstone removes the entry from
    the index if and only if it is a TOMBSTONE and its tablet is either not
    found in the tablet registry or in a state other than RECOVERING.  An
    OBJECT entry is left alone, and so is the tombstone of a RECOVERING
    tablet; a tombstone that is removed only leaves the index: the entries
    of other keys stay, and the log is not touched, so the tombstone is not
    freed. *)
Theorem removeIfTombstone_discards (om : ObjectManager) (bucket : Z)
  (maybeTomb : Reference) :
  wellFormed om = true ->
  In maybeTomb (HashTable.inBucket (objectMap om) bucket) ->
  (forall o : Object.t,
     Log.getEntry (log om) maybeTomb = Some (EntryObject o) ->
     removeIfTombstone maybeTomb om = Done om)
  /\
  (forall tomb : ObjectTombstone.t,
     let key := ObjectTombstone.getKey tomb in
     Log.getEntry (log om) maybeTomb = Some (EntryTombstone tomb) ->
     ((TabletManager.getTablet (tabletManager om) key = None
       \/ exists tablet,
            TabletManager.getTablet (tabletManager om) key = Some tablet
            /\ TabletManager.state tablet <> TabletManager.RECOVERING) ->
      exists om',
        removeIfTombstone maybeTomb om = Done om'
        /\ tombstoneDiscarded om om' key)
     /\
     ((exists tablet,
         TabletManager.getTablet (tabletManager om) key = Some tablet
         /\ TabletManager.state tablet = TabletManager.RECOVERING) ->
      removeIfTombstone maybeTomb om = Done om
      /\ lookup om key = FoundTombstone maybeTomb tomb)).
Proof.
  intros W V.
  destruct (removeIfTombstone_indexed om maybeTomb) as [Obj Tomb].
  split; [exact Obj |].
  intros tomb key G.
  pose proof (visited_is_indexed om bucket maybeTomb (EntryTombstone tomb) key
                W V G eq_refl) as L.
  cbn [foundAt] in L.
  destruct (Tomb tomb G L (wellFormed_indexInvariant om W)) as [Discard Keep].
  split; [exact Discard |].
  intros R; split; [exact (Keep R) | exact L].
Qed.

End Properties.

(** * The theorems at concrete inputs *)

(** Replaying a tombstone of version 5 over the indexed object of version
    5: the tombstone supersedes the object. *)
Lemma replay_supersedes_witness :
  @lookup Example.collaborators (Example.holding 5) Example.k
  = FoundObject 0%nat (Example.object 5 "old")
  /\ @lookup Example.collaborators
       (@replayEntry Example.collaborators (Example.holding 5)
          (EntryTombstone (Example.tombstone 5)))
       Example.k
     = FoundTombstone 1%nat (Example.tombstone 5).
Proof.
  assert (L : @lookup Example.collaborators (Example.holding 5) Example.k
              = FoundObject 0%nat (Example.object 5 "old"))
    by (vm_compute; reflexivity).
  split; [exact L |].
  exact (proj1 (proj1 (@replay_supersedes Example.collaborators
                         (Example.holding 5))
                  (Example.tombstone 5) 0%nat (Example.object 5 "old") L)).
Defined.

(** Removing the object of version 5: afterwards its key is not indexed. *)
Lemma removeObject_then_read_write_witness :
  @removeObject Example.collaborators (Example.holding 5) Example.k None true
    0 true
  = (STATUS_OK, Some 5,
     snd (@removeObject Example.collaborators (Example.holding 5) Example.k
            None true 0 true))
  /\ @lookup Example.collaborators
       (snd (@removeObject Example.collaborators (Example.holding 5)
               Example.k None true 0 true))
       Example.k
     = NotFound.
Proof.
  assert (W : @removeObject Example.collaborators (Example.holding 5)
                Example.k None true 0 true
              = (STATUS_OK, Some 5,
                 snd (@removeObject Example.collaborators (Example.holding 5)
                        Example.k None true 0 true)))
    by (vm_compute; reflexivity).
  split; [exact W |].
  assert (S : @TabletManager.getTablet Example.collaborators
                (tabletManager (Example.holding 5)) Example.k
              = Some (Example.tablet TabletManager.NORMAL))
    by (vm_compute; reflexivity).
  assert (L : @lookup Example.collaborators (Example.holding 5) Example.k
              = FoundObject 0%nat (Example.object 5 "old"))
    by (vm_compute; reflexivity).
  assert (I : indexInvariant (Example.holding 5) = true)
    by (vm_compute; reflexivity).
  assert (R : 0 <= Object.getVersion (Example.object 5 "old") < UINT64_MAX)
    by (unfold UINT64_MAX; simpl; lia).
  exact (proj1 (proj2 (proj2 (proj2 (proj2
           (@removeObject_then_read_write Example.collaborators
              (Example.holding 5) Example.k None true 0 true
              (Example.tablet TabletManager.NORMAL) 0%nat
              (Example.object 5 "old") (Some 5) _ S eq_refl L I R W)))))).
Defined.

(** Overwriting the object of version 5: the assertion holds. *)
Lemma writeObject_new_version_witness :
  @writeObject Example.collaborators (Example.holding 5) Example.k "new" None
    true 0 1 true
  <> AssertionFailure.
Proof.
  assert (C : @currentVersionOf Example.collaborators (Example.holding 5)
                Example.k = 5)
    by (vm_compute; reflexivity).
  assert (R : 0 <= @currentVersionOf Example.collaborators (Example.holding 5)
                     Example.k < UINT64_MAX)
    by (rewrite C; unfold UINT64_MAX; lia).
  assert (F : 0 < safeVersion (Example.holding 5))
    by (vm_compute; reflexivity).
  exact (proj1 (@writeObject_new_version Example.collaborators
                  (Example.holding 5) Example.k "new" None true 0 1 true R
                  F)).
Defined.

(** Relocating the indexed object of version 5 with a relocator that has
    memory: one append, and the index follows the relocator. *)
Lemma relocateObject_liveness_witness :
  exists (relocator' : LogEntryRelocator.t) (om' : ObjectManager),
    @relocateObject Example.collaborators (Example.holding 5) 0%nat
      (Example.object 5 "old") (LogEntryRelocator.fresh true)
    = Done (relocator', om')
    /\ LogEntryRelocator.appendCalls relocator' = 1%nat
    /\ @lookup Example.collaborators om' Example.k
       = FoundObject 1%nat (Example.object 5 "old").
Proof.
  assert (S : @TabletManager.getTablet Example.collaborators
                (tabletManager (Example.holding 5))
                (Object.getKey (Example.object 5 "old"))
              = Some (Example.tablet TabletManager.NORMAL))
    by (vm_compute; reflexivity).
  assert (L : @lookup Example.collaborators (Example.holding 5)
                (Object.getKey (Example.object 5 "old"))
              = FoundObject 0%nat (Example.object 5 "old"))
    by (vm_compute; reflexivity).
  destruct (proj2 (proj2 (proj2 (proj2 (proj2
              (@relocateObject_liveness Example.collaborators
                 (Example.holding 5) 0%nat (Example.object 5 "old")
                 (LogEntryRelocator.fresh true))
              (Example.tablet TabletManager.NORMAL) S))
              0%nat (Example.object 5 "old") L)) eq_refl eq_refl)
    as (relocator' & om' & D & A & N & _ & L').
  exists relocator', om'.
  split; [exact D | split; [exact A |]].
  rewrite N in L'; exact L'.
Defined.

(** Once recovery has finished, the reaper discards the recovery
    tombstone of key k. *)
Lemma removeIfTombstone_discards_witness :
  exists om' : ObjectManager,
    @removeIfTombstone Example.collaborators 1%nat
      (Example.finishRecovery Example.withTombstone)
    = Done om'
    /\ @lookup Example.collaborators om' Example.k = NotFound
    /\ log om' = log Example.withTombstone.
Proof.
  assert (W : @wellFormed Example.collaborators
                (Example.finishRecovery Example.withTombstone) = true)
    by (vm_compute; reflexivity).
  assert (V : In 1%nat
                (HashTable.inBucket
                   (objectMap (Example.finishRecovery Example.withTombstone))
                   0))
    by (vm_compute; left; reflexivity).
  assert (G : Log.getEntry (log (Example.finishRecovery Example.withTombstone))
                1%nat
              = Some (EntryTombstone (Example.tombstone 1)))
    by (vm_compute; reflexivity).
  assert (T : exists tablet,
                @TabletManager.getTablet Example.collaborators
                  (tabletManager (Example.finishRecovery Example.withTombstone))
                  (ObjectTombstone.getKey (Example.tombstone 1))
                = Some tablet
                /\ TabletManager.state tablet <> TabletManager.RECOVERING).
  { exists (Example.tablet TabletManager.NORMAL); split;
      [vm_compute; reflexivity | discriminate]. }
  destruct (proj1 (proj2 (@removeIfTombstone_discards Example.collaborators
                            (Example.finishRecovery Example.withTombstone)
                            0 1%nat W V)
                     (Example.tombstone 1) G) (or_intror T))
    as (om' & D & Gone & _ & Log & _).
  exists om'; split; [exact D | split; [exact Gone | exact Log]].
Defined.


(** * Where the specification and the code part ways *)

(** C1.  Recovery has replayed the tombstone of k with object version
    2^64 - 1, and the index refers to it.  For a replayed OBJECT the code
    computes minSuccessor = currentVersion + 1 in uint64_t, which wraps to
    0: the replayed object of version 3, older than the deletion, passes
    the test, is appended to the SideLog and installed in the index, and
    the deleted key is back.  In the same way a replayed object of version
    0 replaces an indexed object of version 2^64 - 1 and has the reference
    of the newer object freed. *)
Lemma replay_at_last_version :
  (@lookup Example.collaborators Scenario.deletedLast Example.k
   = FoundTombstone 0%nat (Example.tombstone UINT64_MAX)
   /\ wrap64 (UINT64_MAX + 1) = 0
   /\ @lookup Example.collaborators
        (completionState
           (@replaySegment Example.collaborators Scenario.deletedLast
              [EntryObject (Example.object 3 "stale")]))
        Example.k
      = FoundObject 1%nat (Example.object 3 "stale")
   /\ ~ Object.version (Example.object 3 "stale") >= UINT64_MAX + 1)
  /\
  (@lookup Example.collaborators Scenario.holdingLast Example.k
   = FoundObject 0%nat (Example.object UINT64_MAX "old")
   /\ @lookup Example.collaborators
        (completionState
           (@replaySegment Example.collaborators Scenario.holdingLast
              [EntryObject (Example.object 0 "stale")]))
        Example.k
      = FoundObject 1%nat (Example.object 0 "stale")
   /\ Log.freed
        (log (completionState
                (@replaySegment Example.collaborators Scenario.holdingLast
                   [EntryObject (Example.object 0 "stale")])))
      = [(SIDE_LOG, 0%nat)]).
Proof.
  split.
  - split; [vm_compute; reflexivity |].
    split; [vm_compute; reflexivity |].
    split; [vm_compute; reflexivity |].
    vm_compute; intros G; apply G; reflexivity.
  - split; [vm_compute; reflexivity |].
    split; vm_compute; reflexivity.
Qed.

(** C4.  Key k is indexed as an object of version 2^64 - 1 in a NORMAL
    tablet.  removeObject returns OK, but the version + 1 that it hands to
    raiseSafeVersion wraps to 0, so safeVersion stays at 1; the write that
    follows succeeds with version 1, which is not greater than the version
    of the removed object. *)
Lemma removeObject_at_last_version :
  @lookup Example.collaborators (Example.holding UINT64_MAX) Example.k
  = FoundObject 0%nat (Example.object UINT64_MAX "old")
  /\ @TabletManager.getTablet Example.collaborators
       (tabletManager (Example.holding UINT64_MAX)) Example.k
     = Some (Example.tablet TabletManager.NORMAL)
  /\ indexInvariant (Example.holding UINT64_MAX) = true
  /\ exists om1 om2 : ObjectManager,
       @removeObject Example.collaborators (Example.holding UINT64_MAX)
         Example.k None false 0 true
       = (STATUS_OK, None, om1)
       /\ safeVersion om1 = 1
       /\ @writeObject Example.collaborators om1 Example.k "new" None true 0
            1 true
          = Done (STATUS_OK, Some 1, om2)
       /\ @lookup Example.collaborators om2 Example.k
          = FoundObject 2%nat
              (@newObject Example.collaborators Example.k "new" 1 0)
       /\ ~ 1 > Object.getVersion (Example.object UINT64_MAX "old").
Proof.
  split; [vm_compute; reflexivity |].
  split; [vm_compute; reflexivity |].
  split; [vm_compute; reflexivity |].
  eexists; eexists.
  split; [vm_compute; reflexivity |].
  split; [vm_compute; reflexivity |].
  split; [vm_compute; reflexivity |].
  split; [vm_compute; reflexivity |].
  vm_compute; discriminate.
Qed.

(** C5.  Key k is indexed as an object of version 2^64 - 1 in a NORMAL
    tablet.  The new version currentVersion + 1 wraps to 0, and the
    assertion of writeObject fails.  The same missing treatment of
    wrap-around shows once the version allocator has wrapped to 0: a write
    to an absent key succeeds with the new version 0, which is
    VERSION_NONEXISTENT itself and not greater than it.  And with the key
    indexed as a TOMBSTONE, as recovery leaves it, no version is allocated
    at all: the call of removeIfTombstone with this as its cookie has
    undefined behaviour. *)
Lemma writeObject_at_last_version :
  (@currentVersionOf Example.collaborators (Example.holding UINT64_MAX)
     Example.k
   = UINT64_MAX
   /\ wrap64 (UINT64_MAX + 1) = 0
   /\ @writeObject Example.collaborators (Example.holding UINT64_MAX)
        Example.k "new" None true 0 1 true
      = AssertionFailure)
  /\
  (safeVersion Example.exhausted = 0
   /\ @currentVersionOf Example.collaborators Example.exhausted Example.k2
      = VERSION_NONEXISTENT
   /\ exists om' : ObjectManager,
        @writeObject Example.collaborators Example.exhausted Example.k2 "new"
          None true 0 1 true
        = Done (STATUS_OK, Some 0, om')
        /\ @lookup Example.collaborators om' Example.k2
           = FoundObject 2%nat
               (@newObject Example.collaborators Example.k2 "new" 0 0)
        /\ ~ 0 > VERSION_NONEXISTENT)
  /\
  (@lookup Example.collaborators Scenario.recovered Example.k
   = FoundTombstone 1%nat (Example.tombstone 1)
   /\ @writeObject Example.collaborators Scenario.recovered Example.k "new"
        None true 0 1 true
      = Undefined).
Proof.
  split; [| split].
  - split; [vm_compute; reflexivity |].
    split; vm_compute; reflexivity.
  - split; [vm_compute; reflexivity |].
    split; [vm_compute; reflexivity |].
    eexists.
    split; [vm_compute; reflexivity |].
    split; [vm_compute; reflexivity |].
    vm_compute; discriminate.
  - split; vm_compute; reflexivity.
Qed.

(** C8 as stated fails on any call: entering replaySegment, which
    constructs the DelayedIncrementer, leaves the counter at 0, and the whole
    call, here over an empty segment, takes it from 0 to 1, not to 2. *)
Lemma replaySegment_entry_not_counted :
  replaySegmentReturnCount Example.recovering = 0
  /\ replaySegmentReturnCount
       (DelayedIncrementer_construct Example.recovering)
     <> wrap64 (replaySegmentReturnCount Example.recovering + 1)
  /\ replaySegmentReturnCount
       (completionState
          (@replaySegment Example.collaborators Example.recovering []))
     = 1
  /\ replaySegmentReturnCount
       (completionState
          (@replaySegment Example.collaborators Example.recovering []))
     <> wrap64 (wrap64 (replaySegmentReturnCount Example.recovering + 1) + 1).
Proof.
  split; [reflexivity |].
  split; [vm_compute; discriminate |].
  split; [reflexivity |].
  vm_compute; discriminate.
Qed.

(** C10.  A fresh object manager whose tablet is RECOVERING replays an
    object of key k and then the tombstone that deletes it.  The index now
    holds the tombstone, while the dead object is still in the log, at
    reference 0.  When the cleaner reaches that object and calls
    relocateObject for it, the tablet is found, lookup reports the
    tombstone, and the assertion currentType == LOG_ENTRY_TYPE_OBJ fails. *)
Lemma relocateObject_meets_tombstone :
  @replaySegment Example.collaborators
    (construct [Example.tablet TabletManager.RECOVERING] 8)
    [EntryObject (Example.object 1 "old"); EntryTombstone (Example.tombstone 1)]
  = Returns Example.withTombstone
  /\ Log.getEntry (log Example.withTombstone) 0%nat
     = Some (EntryObject (Example.object 1 "old"))
  /\ @lookup Example.collaborators Example.withTombstone Example.k
     = FoundTombstone 1%nat (Example.tombstone 1)
  /\ @relocateObject Example.collaborators Example.withTombstone 0%nat
       (Example.object 1 "old") (LogEntryRelocator.fresh true)
     = AssertionFailure.
Proof.
  split; [reflexivity |].
  split; [vm_compute; reflexivity |].
  split; vm_compute; reflexivity.
Qed.

(** * Further properties of the operations *)

Section Further.
Context `{Collaborators}.

Lemma wellFormed_slots (om : ObjectManager) :
  wellFormed om = true ->
  forallb (slotWellPlaced (log om) (objectMap om))
    (HashTable.slots (objectMap om)) = true
  /\ noDuplicateKey (indexedKeys (log om) (HashTable.slots (objectMap om)))
     = true.
Proof. unfold wellFormed; rewrite andb_true_iff; tauto. Qed.

Lemma examine_other_key (l : Log.t) (h : HashTable.t) (key key' : Key)
  (c : Z * Reference) :
  key' <> key ->
  examine l h key c <> NotFound ->
  examine l h key' c = NotFound.
Proof.
  intros NE F.
  destruct (examine_cases l h key c) as [N | (e & B & G & K & _)];
    [congruence |].
  destruct (examine_cases l h key' c) as [N' | (e' & _ & G' & K' & _)];
    [exact N' |].
  congruence.
Qed.

Lemma lookupIn_replaceIn_other (l : Log.t) (h : HashTable.t) (key key' : Key)
  (reference : Reference) (e : LogEntry) (slots : list (Z * Reference)) :
  Log.getEntry l reference = Some e ->
  entryKey e = Some key ->
  key' <> key ->
  lookupIn l h key'
    (if fst (replaceIn l h key reference slots)
     then snd (replaceIn l h key reference slots)
     else slots ++ [(HashTable.bucketOf h key, reference)])
  = lookupIn l h key' slots.
Proof.
  intros G K NE.
  assert (New : forall b, examine l h key' (b, reference) = NotFound).
  { intros b.
    destruct (examine_cases l h key' (b, reference))
      as [N | (e' & _ & G' & K' & _)]; [exact N |].
    cbn [snd] in G'; congruence. }
  induction slots as [| c rest IH]; cbn [replaceIn fst snd app lookupIn].
  - rewrite New; reflexivity.
  - destruct (examine l h key c) eqn:E.
    1,2: cbn [fst snd lookupIn]; rewrite New;
      rewrite (examine_other_key l h key key' c NE) by congruence;
      reflexivity.
    destruct (replaceIn l h key reference rest) as [replaced rest'];
      cbn [fst snd] in *.
    destruct replaced; cbn [lookupIn app]; rewrite IH; reflexivity.
Qed.

Lemma lookup_replace_other (om : ObjectManager) (key key' : Key)
  (reference : Reference) (e : LogEntry) :
  Log.getEntry (log om) reference = Some e ->
  entryKey e = Some key ->
  key' <> key ->
  lookup (snd (replace om key reference)) key' = lookup om key'.
Proof.
  intros G K NE.
  pose proof (lookupIn_replaceIn_other (log om) (objectMap om) key key'
                reference e (HashTable.slots (objectMap om)) G K NE) as L.
  unfold lookup, replace.
  destruct (replaceIn _ _ _ _ _) as [[|] slots']; simpl in *;
    rewrite (lookupIn_same_buckets (log om) (objectMap om)) by reflexivity;
    exact L.
Qed.

Lemma remove_setObjectMap (om : ObjectManager) (key : Key) :
  snd (remove om key) = setObjectMap (objectMap (snd (remove om key))) om.
Proof.
  unfold remove; destruct (removeIn _ _ _ _); reflexivity.
Qed.

Lemma lookup_noted (om : ObjectManager) (key : Key) :
  lookup (noted om) key = lookup om key.
Proof. unfold noted; destruct (anyWrites om); reflexivity. Qed.

Lemma noted_fields (om : ObjectManager) :
  log (noted om) = log om
  /\ tabletManager (noted om) = tabletManager om
  /\ safeVersion (noted om) = safeVersion om
  /\ objectMap (noted om) = objectMap om
  /\ wellFormed (noted om) = wellFormed om.
Proof. unfold noted; destruct (anyWrites om); auto 6. Qed.

(** writeObject on a key that it serves and finds indexed as a tombstone:
    it calls removeIfTombstone with a cookie of the wrong type. *)
Lemma writeObject_indexed_tombstone (om : ObjectManager) (key : Key)
  (value : string) (rejectRules : option RejectRules) (outVersion : bool)
  (now later : Z) (logHasSpace : bool) (r : Reference)
  (t : ObjectTombstone.t) :
  served (tabletManager om) key = true ->
  lookup om key = FoundTombstone r t ->
  writeObject om key value rejectRules outVersion now later logHasSpace
  = Undefined.
Proof.
  intros S L; unfold served in S; unfold writeObject; fold (noted om).
  destruct (noted_fields om) as (_ & -> & _).
  destruct (TabletManager.getTablet (tabletManager om) key) as [tablet |];
    [| discriminate].
  rewrite S, lookup_noted, L; reflexivity.
Qed.

(** writeObject past the tablet check and the lookup, with the version
    allocation resolved. *)
Lemma writeObject_cases (om : ObjectManager) (key : Key) (value : string)
  (rejectRules : option RejectRules) (outVersion : bool) (now later : Z)
  (logHasSpace : bool) (tablet : TabletManager.Tablet) :
  TabletManager.getTablet (tabletManager om) key = Some tablet ->
  TabletManager.state tablet = TabletManager.NORMAL ->
  (forall r t, lookup om key <> FoundTombstone r t) ->
  let currentVersion := currentVersionOf om key in
  writeObject om key value rejectRules outVersion now later logHasSpace
  = if negb (Status_eqb (applyRejectRules rejectRules currentVersion)
               STATUS_OK)
    then Done (applyRejectRules rejectRules currentVersion,
               store outVersion currentVersion, noted om)
    else if (currentVersion =? VERSION_NONEXISTENT)
            || (currentVersion <? nextVersion om key)
    then if negb logHasSpace
         then Done (STATUS_RETRY, None, versioned om key)
         else Done (STATUS_OK, store outVersion (nextVersion om key),
                    stored om key value now later)
    else AssertionFailure.
Proof.
  intros S N NT currentVersion.
  unfold writeObject; fold (noted om).
  destruct (noted_fields om) as (Al & At & As & _).
  rewrite At, S, N; cbn [TabletManager.TabletState_eqb negb].
  rewrite lookup_noted.
  assert (P : match lookup om key with
              | FoundTombstone _ _ => Undefined
              | FoundObject _ currentObject =>
                  Done (Object.getVersion currentObject, noted om)
              | NotFound => Done (VERSION_NONEXISTENT, noted om)
              end = Done (currentVersion, noted om)).
  { subst currentVersion; unfold currentVersionOf.
    revert NT; destruct (lookup om key) as [r o | r t |]; intros NT;
      [reflexivity | exfalso; exact (NT r t eq_refl) | reflexivity]. }
  rewrite P; cbn [bind].
  destruct (negb (Status_eqb (applyRejectRules rejectRules currentVersion)
                    STATUS_OK)); [reflexivity |].
  assert (V : (if currentVersion =? VERSION_NONEXISTENT
               then allocateVersion (noted om)
               else (wrap64 (currentVersion + 1), noted om))
              = (nextVersion om key, versioned om key)).
  { unfold nextVersion, versioned; fold currentVersion.
    destruct (currentVersion =? VERSION_NONEXISTENT);
      [unfold allocateVersion; rewrite As |]; reflexivity. }
  rewrite V.
  change (Object.getVersion (newObject key value (nextVersion om key) now))
    with (nextVersion om key).
  destruct ((currentVersion =? VERSION_NONEXISTENT)
            || (currentVersion <? nextVersion om key)); [| reflexivity].
  cbn [assert bind].
  destruct (negb logHasSpace); [reflexivity |].
  assert (L2 : log (versioned om key) = log om)
    by (unfold versioned; destruct (_ =? _); exact Al).
  rewrite L2.
  unfold stored, appended; fold currentVersion.
  change (match lookup om key with
          | FoundObject currentReference object =>
              if negb (currentVersion =? VERSION_NONEXISTENT)
              then Some (currentReference,
                         newTombstone object (getSegmentId currentReference)
                           later)
              else None
          | _ => None
          end) with (superseded om key later).
  unfold Log.append at 1; cbv zeta.
  destruct (superseded om key later) as [[currentReference tomb] |];
    reflexivity.
Qed.

(** The parts of the state that a successful writeObject leaves. *)
Lemma stored_fields (om : ObjectManager) (key : Key) (value : string)
  (now later : Z) :
  let newObj := newObject key value (nextVersion om key) now in
  tabletManager (stored om key value now later)
  = TabletManager.incrementWriteCount key (tabletManager om)
  /\ safeVersion (stored om key value now later) = safeVersion (versioned om key)
  /\ Log.syncCount (log (stored om key value now later)) = Log.syncCount (log om)
  /\ Log.memory (log (stored om key value now later))
     = Log.memory (log om)
       ++ (MAIN_LOG, EntryObject newObj)
          :: match superseded om key later with
             | Some (_, tomb) => [(MAIN_LOG, EntryTombstone tomb)]
             | None => []
             end
  /\ Log.freed (log (stored om key value now later))
     = Log.freed (log om)
       ++ match superseded om key later with
          | Some (currentReference, _) => [(MAIN_LOG, currentReference)]
          | None => []
          end
  /\ objectMap (stored om key value now later)
     = objectMap
         (snd (replace (setLog (appended om key value now later) (noted om))
                 key (List.length (Log.memory (log om))))).
Proof.
  intros newObj.
  destruct (noted_fields om) as (Pl & Pt & _).
  assert (V : tabletManager (versioned om key) = tabletManager om
              /\ objectMap (versioned om key) = objectMap (noted om)
              /\ log (versioned om key) = log om).
  { unfold versioned; destruct (_ =? _);
      cbn [tabletManager objectMap log setSafeVersion]; auto. }
  destruct V as (Vt & Vm & Vl).
  unfold stored; cbv zeta.
  set (x := setLog (appended om key value now later) (versioned om key)).
  destruct (replace_log x key (List.length (Log.memory (log om))))
    as (Rl & Rt & Rs & _).
  assert (Rm : objectMap (snd (replace x key (List.length (Log.memory (log om)))))
               = objectMap
                   (snd (replace
                           (setLog (appended om key value now later)
                              (noted om))
                           key (List.length (Log.memory (log om))))))
    by (apply replace_objectMap_ext; [reflexivity | exact Vm]).
  set (om3 := snd (replace x key (List.length (Log.memory (log om))))) in *.
  assert (A : Log.syncCount (appended om key value now later)
              = Log.syncCount (log om)
              /\ Log.memory (appended om key value now later)
                 = Log.memory (log om)
                   ++ (MAIN_LOG, EntryObject newObj)
                      :: match superseded om key later with
                         | Some (_, tomb) => [(MAIN_LOG, EntryTombstone tomb)]
                         | None => []
                         end
              /\ Log.freed (appended om key value now later) = Log.freed (log om)).
  { unfold appended; fold newObj.
    destruct (superseded om key later) as [[r tomb] |];
      cbn [Log.append snd Log.syncCount Log.memory Log.freed];
      rewrite <- ?app_assoc; auto. }
  destruct A as (Asy & Am & Af).
  subst x; cbn [log setLog tabletManager safeVersion] in Rl, Rt, Rs.
  destruct (superseded om key later) as [[r tomb] |];
    cbn [tabletManager setTabletManager setLog log safeVersion objectMap
         Log.free Log.syncCount Log.memory Log.freed];
    rewrite ?Rl, ?Rt, ?Rs, ?Vt, ?Asy, ?Am, ?Af, ?app_nil_r; auto 7.
Qed.

(** ** The tablet registry under the access counters *)

Lemma covers_incrementWriteCount (key key' : Key)
  (tm : TabletManager.t) :
  option_map TabletManager.state
    (TabletManager.getTablet (TabletManager.incrementWriteCount key tm) key')
  = option_map TabletManager.state (TabletManager.getTablet tm key').
Proof.
  unfold TabletManager.getTablet.
  induction tm as [| tablet rest IH]; [reflexivity |].
  cbn [TabletManager.incrementWriteCount find].
  destruct (TabletManager.covers key tablet).
  - cbn [find]; unfold TabletManager.covers at 1 3;
      cbn [TabletManager.tableId TabletManager.startKeyHash
           TabletManager.endKeyHash].
    destruct (_ && _); reflexivity.
  - cbn [find]; destruct (TabletManager.covers key' tablet);
      [reflexivity | exact IH].
Qed.

Lemma covers_incrementReadCount (key key' : Key)
  (tm : TabletManager.t) :
  option_map TabletManager.state
    (TabletManager.getTablet (TabletManager.incrementReadCount key tm) key')
  = option_map TabletManager.state (TabletManager.getTablet tm key').
Proof.
  unfold TabletManager.getTablet.
  induction tm as [| tablet rest IH]; [reflexivity |].
  cbn [TabletManager.incrementReadCount find].
  destruct (TabletManager.covers key tablet).
  - cbn [find]; unfold TabletManager.covers at 1 3;
      cbn [TabletManager.tableId TabletManager.startKeyHash
           TabletManager.endKeyHash].
    destruct (_ && _); reflexivity.
  - cbn [find]; destruct (TabletManager.covers key' tablet);
      [reflexivity | exact IH].
Qed.

Lemma served_state (tm tm' : TabletManager.t) (key : Key) :
  option_map TabletManager.state (TabletManager.getTablet tm' key)
  = option_map TabletManager.state (TabletManager.getTablet tm key) ->
  served tm' key = served tm key.
Proof.
  unfold served; intros E.
  destruct (TabletManager.getTablet tm' key),
    (TabletManager.getTablet tm key); simpl in E; congruence.
Qed.

Lemma served_tablet (tm : TabletManager.t) (key : Key) :
  served tm key = true ->
  exists tablet,
    TabletManager.getTablet tm key = Some tablet
    /\ TabletManager.state tablet = TabletManager.NORMAL.
Proof.
  unfold served; destruct (TabletManager.getTablet tm key) as [tablet |];
    [| discriminate].
  destruct (TabletManager.state tablet) eqn:S; [| discriminate].
  eauto.
Qed.

Lemma readObject_served (om : ObjectManager) (key : Key)
  (rejectRules : option RejectRules) (outVersion : bool) :
  readObject om key rejectRules outVersion
  = if served (tabletManager om) key then
      match lookup om key with
      | FoundObject _ object =>
          let version := Object.getVersion object in
          let status := applyRejectRules rejectRules version in
          if negb (Status_eqb status STATUS_OK)
          then (status, store outVersion version, None, om)
          else
            (STATUS_OK, store outVersion version, Some (Object.data object),
             setTabletManager
               (TabletManager.incrementReadCount key (tabletManager om)) om)
      | _ => (STATUS_OBJECT_DOESNT_EXIST, None, None, om)
      end
    else (STATUS_UNKNOWN_TABLET, None, None, om).
Proof.
  unfold readObject, served.
  destruct (TabletManager.getTablet (tabletManager om) key) as [tablet |];
    [| reflexivity].
  destruct (TabletManager.state tablet); reflexivity.
Qed.

Lemma writeObject_unserved (om : ObjectManager) (key : Key) (value : string)
  (rejectRules : option RejectRules) (outVersion : bool) (now later : Z)
  (logHasSpace : bool) :
  served (tabletManager om) key = false ->
  writeObject om key value rejectRules outVersion now later logHasSpace
  = Done (STATUS_UNKNOWN_TABLET, None, noted om).
Proof.
  unfold served, writeObject; fold (noted om).
  replace (tabletManager (noted om)) with (tabletManager om)
    by (unfold noted; destruct (anyWrites om); reflexivity).
  destruct (TabletManager.getTablet (tabletManager om) key) as [tablet |];
    [| reflexivity].
  destruct (TabletManager.state tablet); [discriminate | reflexivity].
Qed.

Lemma applyRejectRules_known (rejectRules : option RejectRules)
  (version : Z) :
  applyRejectRules rejectRules version <> STATUS_UNKNOWN_TABLET
  /\ applyRejectRules rejectRules version <> STATUS_RETRY.
Proof.
  destruct rejectRules as [rules |]; [| split; discriminate].
  unfold applyRejectRules, rejectOperation.
  repeat match goal with
         | |- context [if ?c then _ else _] => destruct c
         end; split; discriminate.
Qed.

(** ** Writing, then reading *)

Lemma appended_memory (om : ObjectManager) (key : Key) (value : string)
  (now later : Z) :
  exists more,
    Log.memory (appended om key value now later) = Log.memory (log om) ++ more
    /\ Log.getEntry (appended om key value now later)
         (List.length (Log.memory (log om)))
       = Some (EntryObject (newObject key value (nextVersion om key) now)).
Proof.
  unfold appended; cbv zeta.
  destruct (superseded om key later) as [[r tomb] |].
  - eexists; split;
      [cbn [Log.append snd Log.memory]; rewrite <- app_assoc; reflexivity |].
    apply getEntry_append_second.
  - eexists; split; [reflexivity |].
    exact (getEntry_append_new MAIN_LOG _ (log om)).
Qed.

(** What the index holds once writeObject has stored the object. *)
Lemma stored_lookup (om : ObjectManager) (key : Key) (value : string)
  (now later : Z) :
  lookup (stored om key value now later) key
  = FoundObject (List.length (Log.memory (log om)))
      (newObject key value (nextVersion om key) now)
  /\ (wellFormed om = true ->
      forall key', key' <> key ->
        lookup (stored om key value now later) key' = lookup om key').
Proof.
  destruct (stored_fields om key value now later)
    as (_ & _ & _ & Sm & _ & So).
  destruct (appended_memory om key value now later) as (more & Am & Ag).
  destruct (noted_fields om) as (Pl & _ & _ & Pm & Pw).
  set (x := setLog (appended om key value now later) (noted om)) in *.
  set (newRef := List.length (Log.memory (log om))) in *.
  assert (E : forall k,
             lookup (stored om key value now later) k
             = lookup (snd (replace x key newRef)) k).
  { intros k; apply lookup_same_index; [| exact So].
    destruct (replace_log x key newRef) as (-> & _).
    subst x; cbn [log setLog].
    rewrite Sm; unfold appended; cbv zeta.
    destruct (superseded om key later) as [[r tomb] |];
      cbn [Log.append snd Log.memory]; rewrite <- ?app_assoc; reflexivity. }
  split.
  - rewrite E.
    apply (lookup_replace x key newRef
             (EntryObject (newObject key value (nextVersion om key) now)));
      [exact Ag | exact (f_equal Some (newObject_key _ _ _ _))].
  - intros W key' NE.
    rewrite E.
    rewrite (lookup_replace_other x key key' newRef
               (EntryObject (newObject key value (nextVersion om key) now)))
      by (auto; exact (f_equal Some (newObject_key _ _ _ _))).
    rewrite <- (lookup_noted om key').
    unfold lookup; subst x; cbn [log objectMap setLog].
    apply lookupIn_agree.
    apply (agreeOn_extended _ _ more); [rewrite Pl; exact Am |].
    rewrite <- Pw in W.
    apply wellFormed_indexInvariant, indexInvariant_keys in W.
    exact (proj1 W).
Qed.

Lemma stored_served (om : ObjectManager) (key key' : Key) (value : string)
  (now later : Z) :
  served (tabletManager (stored om key value now later)) key'
  = served (tabletManager om) key'.
Proof.
  destruct (stored_fields om key value now later) as (-> & _).
  apply served_state, covers_incrementWriteCount.
Qed.

(** The outcomes of a writeObject that returns. *)
Lemma writeObject_outcome (om om' : ObjectManager) (key : Key)
  (value : string) (rejectRules : option RejectRules) (outVersion : bool)
  (now later : Z) (logHasSpace : bool) (status : Status) (out : option Z) :
  writeObject om key value rejectRules outVersion now later logHasSpace
  = Done (status, out, om') ->
  (status = STATUS_UNKNOWN_TABLET /\ out = None /\ om' = noted om
   /\ served (tabletManager om) key = false)
  \/ (served (tabletManager om) key = true
      /\ status = applyRejectRules rejectRules (currentVersionOf om key)
      /\ status <> STATUS_OK
      /\ out = store outVersion (currentVersionOf om key)
      /\ om' = noted om)
  \/ (served (tabletManager om) key = true
      /\ applyRejectRules rejectRules (currentVersionOf om key) = STATUS_OK
      /\ status = STATUS_RETRY /\ logHasSpace = false /\ out = None
      /\ om' = versioned om key)
  \/ (served (tabletManager om) key = true
      /\ applyRejectRules rejectRules (currentVersionOf om key) = STATUS_OK
      /\ status = STATUS_OK /\ logHasSpace = true
      /\ out = store outVersion (nextVersion om key)
      /\ om' = stored om key value now later).
Proof.
  intros W.
  destruct (served (tabletManager om) key) eqn:S.
  2:{ rewrite writeObject_unserved in W by exact S.
      injection W as <- <- <-; left; auto. }
  right.
  assert (NT : forall r t, lookup om key <> FoundTombstone r t).
  { intros r t L.
    rewrite (writeObject_indexed_tombstone om key value rejectRules
               outVersion now later logHasSpace r t S L) in W.
    discriminate. }
  destruct (served_tablet _ _ S) as (tablet & G & N).
  rewrite (writeObject_cases om key value rejectRules outVersion now later
             logHasSpace tablet G N NT) in W.
  cbv zeta in W.
  destruct (Status_eqb (applyRejectRules rejectRules (currentVersionOf om key))
              STATUS_OK) eqn:R; cbn [negb] in W.
  2:{ injection W as <- <- <-; left; repeat split; auto.
      intros E; apply Status_eqb_eq in E; congruence. }
  apply Status_eqb_eq in R.
  right.
  destruct (_ || _); [| discriminate].
  destruct logHasSpace; cbn [negb] in W; injection W as <- <- <-;
    [right | left]; auto 8.
Qed.

(** A writeObject that returns with a status other than
    STATUS_UNKNOWN_TABLET has not found a tombstone for the key. *)
Lemma writeObject_no_tombstone (om om' : ObjectManager) (key : Key)
  (value : string) (rejectRules : option RejectRules) (outVersion : bool)
  (now later : Z) (logHasSpace : bool) (status : Status) (out : option Z) :
  writeObject om key value rejectRules outVersion now later logHasSpace
  = Done (status, out, om') ->
  status <> STATUS_UNKNOWN_TABLET ->
  forall r t, lookup om key <> FoundTombstone r t.
Proof.
  intros W NU r t L.
  destruct (served (tabletManager om) key) eqn:S.
  - rewrite (writeObject_indexed_tombstone om key value rejectRules
               outVersion now later logHasSpace r t S L) in W.
    discriminate.
  - rewrite writeObject_unserved in W by exact S.
    injection W as <- _ _; congruence.
Qed.

(** X1.  A writeObject that returns STATUS_OK, followed by a readObject of
    the same key without reject rules: the read returns STATUS_OK and the
    value just written, under the version that the write stored through
    outVersion, and counts one read for the tablet. *)
Theorem writeObject_then_readObject (om om' : ObjectManager) (key : Key)
  (value : string) (rejectRules : option RejectRules) (outVersion : bool)
  (now later : Z) (logHasSpace : bool) (out : option Z) :
  writeObject om key value rejectRules outVersion now later logHasSpace
  = Done (STATUS_OK, out, om') ->
  exists version : Z,
    out = store outVersion version
    /\ forall wantVersion : bool,
         readObject om' key None wantVersion
         = (STATUS_OK, store wantVersion version, Some value,
            setTabletManager
              (TabletManager.incrementReadCount key (tabletManager om'))
              om').
Proof.
  intros W.
  destruct (writeObject_outcome _ _ _ _ _ _ _ _ _ _ _ W)
    as [(E & _) | [(_ & _ & E & _) | [(_ & _ & E & _) |
        (S & _ & _ & _ & O & ->)]]]; try congruence.
  exists (nextVersion om key); split; [exact O |].
  intros wantVersion.
  rewrite readObject_served, stored_served, S.
  rewrite (proj1 (stored_lookup om key value now later)).
  reflexivity.
Qed.

Lemma readObject_depends (om om' : ObjectManager) (key : Key)
  (rejectRules : option RejectRules) (outVersion : bool) :
  served (tabletManager om') key = served (tabletManager om) key ->
  lookup om' key = lookup om key ->
  fst (readObject om' key rejectRules outVersion)
  = fst (readObject om key rejectRules outVersion).
Proof.
  intros S L; rewrite !readObject_served, S, L.
  destruct (served (tabletManager om) key); [| reflexivity].
  destruct (lookup om key) as [r o | |]; try reflexivity.
  cbv zeta; destruct (negb _); reflexivity.
Qed.

Lemma versioned_fields (om : ObjectManager) (key : Key) :
  log (versioned om key) = log om
  /\ tabletManager (versioned om key) = tabletManager om
  /\ objectMap (versioned om key) = objectMap om
  /\ (forall key', lookup (versioned om key) key' = lookup om key')
  /\ safeVersion (versioned om key)
     = if currentVersionOf om key =? VERSION_NONEXISTENT
       then wrap64 (safeVersion om + 1) else safeVersion om.
Proof.
  destruct (noted_fields om) as (Pl & Pt & Ps & Pm & _).
  unfold versioned; destruct (_ =? _);
    cbn [log tabletManager safeVersion objectMap setSafeVersion];
    repeat split; auto; intros key'; exact (lookup_noted om key').
Qed.

(** X2.  A writeObject on a well-formed index, whatever its outcome,
    leaves what lookup finds for every other key, and so the status,
    version and data that a readObject of any other key returns. *)
Theorem writeObject_other_keys (om om' : ObjectManager) (key key' : Key)
  (value : string) (rejectRules : option RejectRules) (outVersion : bool)
  (now later : Z) (logHasSpace : bool) (status : Status) (out : option Z) :
  wellFormed om = true ->
  key' <> key ->
  writeObject om key value rejectRules outVersion now later logHasSpace
  = Done (status, out, om') ->
  lookup om' key' = lookup om key'
  /\ forall (rules : option RejectRules) (wantVersion : bool),
       fst (readObject om' key' rules wantVersion)
       = fst (readObject om key' rules wantVersion).
Proof.
  intros WF NE W.
  destruct (noted_fields om) as (_ & Pt & _).
  destruct (versioned_fields om key) as (_ & Vt & _ & Vo & _).
  assert (E : lookup om' key' = lookup om key'
              /\ served (tabletManager om') key'
                 = served (tabletManager om) key').
  { destruct (writeObject_outcome _ _ _ _ _ _ _ _ _ _ _ W)
      as [(_ & _ & -> & _) | [(_ & _ & _ & _ & ->) |
          [(_ & _ & _ & _ & _ & ->) | (_ & _ & _ & _ & _ & ->)]]].
    - split; [apply lookup_noted | rewrite Pt; reflexivity].
    - split; [apply lookup_noted | rewrite Pt; reflexivity].
    - split; [apply Vo | rewrite Vt; reflexivity].
    - split;
        [exact (proj2 (stored_lookup om key value now later) WF key' NE) |].
      apply stored_served. }
  destruct E as [L S].
  split; [exact L |].
  intros rules wantVersion; apply readObject_depends; assumption.
Qed.

(** X3.  A writeObject that returns STATUS_OK never syncs the log and
    counts one write for the tablet.  The index then refers to the new
    object, which carries the key, the value and the first reading of the
    clock.  The key was not indexed as a tombstone.  If it was indexed as an
    object of a version other than VERSION_NONEXISTENT, the log receives the
    new object followed by a tombstone for the old one (made from the old
    object, the segment id of its reference and the second reading of the
    clock), and the old reference is freed; otherwise (key absent, or
    indexed object of version 0) the log receives the new object only and
    nothing is freed. *)
Theorem writeObject_log_effects (om om' : ObjectManager) (key : Key)
  (value : string) (rejectRules : option RejectRules) (outVersion : bool)
  (now later : Z) (logHasSpace : bool) (out : option Z) :
  writeObject om key value rejectRules outVersion now later logHasSpace
  = Done (STATUS_OK, out, om') ->
  exists newObj : Object.t,
    lookup om' key = FoundObject (List.length (Log.memory (log om))) newObj
    /\ Object.getKey newObj = key
    /\ Object.data newObj = value
    /\ Object.getTimestamp newObj = now
    /\ Log.syncCount (log om') = Log.syncCount (log om)
    /\ tabletManager om'
       = TabletManager.incrementWriteCount key (tabletManager om)
    /\ (forall r t, lookup om key <> FoundTombstone r t)
    /\ match lookup om key with
       | FoundObject r o =>
           if Object.getVersion o =? VERSION_NONEXISTENT
           then Log.memory (log om')
                = Log.memory (log om) ++ [(MAIN_LOG, EntryObject newObj)]
                /\ Log.freed (log om') = Log.freed (log om)
           else Log.memory (log om')
                = Log.memory (log om)
                  ++ [(MAIN_LOG, EntryObject newObj);
                      (MAIN_LOG,
                       EntryTombstone
                         (newTombstone o (getSegmentId r) later))]
                /\ Log.freed (log om') = Log.freed (log om) ++ [(MAIN_LOG, r)]
       | _ =>
           Log.memory (log om')
           = Log.memory (log om) ++ [(MAIN_LOG, EntryObject newObj)]
           /\ Log.freed (log om') = Log.freed (log om)
       end.
Proof.
  intros W.
  assert (NT : forall r t, lookup om key <> FoundTombstone r t)
    by (apply (writeObject_no_tombstone _ _ _ _ _ _ _ _ _ _ _ W);
        discriminate).
  destruct (writeObject_outcome _ _ _ _ _ _ _ _ _ _ _ W)
    as [(E & _) | [(_ & _ & E & _) | [(_ & _ & E & _) |
        (_ & _ & _ & _ & _ & ->)]]]; try congruence.
  destruct (stored_fields om key value now later)
    as (St & _ & Ss & Sm & Sf & _).
  exists (newObject key value (nextVersion om key) now).
  split; [exact (proj1 (stored_lookup om key value now later)) |].
  split; [apply newObject_key |].
  split; [reflexivity |].
  split; [reflexivity |].
  split; [exact Ss |].
  split; [exact St |].
  split; [exact NT |].
  rewrite Sm, Sf; unfold superseded, currentVersionOf.
  destruct (lookup om key) as [r o | r t |]; rewrite ?app_nil_r; auto.
  destruct (Object.getVersion o =? VERSION_NONEXISTENT);
    cbn [negb]; rewrite ?app_nil_r; auto.
Qed.

(** X4.  A writeObject that returns a status other than STATUS_OK leaves
    the log, the hash table and the tablet registry as they were, so every
    key is found as before.  STATUS_RETRY and STATUS_UNKNOWN_TABLET store
    nothing through outVersion; any other status is the verdict of the
    reject rules on the current version, which is what outVersion receives.
    The version floor moves in one case only: a write to a key without
    current version that fails with STATUS_RETRY has already taken a
    version from the allocator. *)
Theorem writeObject_failed (om om' : ObjectManager) (key : Key)
  (value : string) (rejectRules : option RejectRules) (outVersion : bool)
  (now later : Z) (logHasSpace : bool) (status : Status) (out : option Z) :
  writeObject om key value rejectRules outVersion now later logHasSpace
  = Done (status, out, om') ->
  status <> STATUS_OK ->
  log om' = log om
  /\ objectMap om' = objectMap om
  /\ tabletManager om' = tabletManager om
  /\ (forall k : Key, lookup om' k = lookup om k)
  /\ (status = STATUS_RETRY \/ status = STATUS_UNKNOWN_TABLET ->
      out = None)
  /\ (status <> STATUS_RETRY -> status <> STATUS_UNKNOWN_TABLET ->
      status = applyRejectRules rejectRules (currentVersionOf om key)
      /\ out = store outVersion (currentVersionOf om key))
  /\ safeVersion om'
     = (if Status_eqb status STATUS_RETRY
           && (currentVersionOf om key =? VERSION_NONEXISTENT)
        then wrap64 (safeVersion om + 1)
        else safeVersion om).
Proof.
  intros W NOK.
  destruct (noted_fields om) as (Pl & Pt & Ps & Pm & _).
  destruct (versioned_fields om key) as (Vl & Vt & Vm & Vo & Vs).
  destruct (writeObject_outcome _ _ _ _ _ _ _ _ _ _ _ W)
    as [(-> & -> & -> & _) | [(_ & E & _ & -> & ->) |
        [(_ & _ & -> & _ & -> & ->) | (_ & _ & E & _)]]];
    [| | | congruence].
  - cbn [Status_eqb andb].
    repeat split; auto; try congruence.
    intros k; apply lookup_noted.
  - destruct (applyRejectRules_known rejectRules (currentVersionOf om key))
      as [NU NR].
    rewrite E.
    replace (Status_eqb _ STATUS_RETRY) with false
      by (symmetry; destruct (Status_eqb _ STATUS_RETRY) eqn:X;
          [apply Status_eqb_eq in X; congruence | reflexivity]).
    cbn [andb].
    repeat split; auto.
    + intros k; apply lookup_noted.
    + intros [X | X]; congruence.
  - cbn [Status_eqb andb].
    repeat split; auto; congruence.
Qed.

(** X5.  Two writes of the same key in a row that both return STATUS_OK:
    the second gives the object the version of the first plus one (in
    uint64_t; if the first version is VERSION_NONEXISTENT it asks the
    allocator instead), the index refers to the second object, and, the
    first version not being VERSION_NONEXISTENT, the second write appends a
    tombstone for the first object after the new object and frees the
    reference of the first.  Each object carries the first reading that its
    write took of the clock, the tombstone the second reading of the second
    write. *)
Theorem writeObject_twice (om om1 om2 : ObjectManager) (key : Key)
  (value1 value2 : string) (rules1 rules2 : option RejectRules)
  (outVersion1 outVersion2 : bool) (now1 later1 now2 later2 : Z)
  (space1 space2 : bool) (out1 out2 : option Z) :
  writeObject om key value1 rules1 outVersion1 now1 later1 space1
  = Done (STATUS_OK, out1, om1) ->
  writeObject om1 key value2 rules2 outVersion2 now2 later2 space2
  = Done (STATUS_OK, out2, om2) ->
  exists version1 version2 : Z,
    out1 = store outVersion1 version1
    /\ out2 = store outVersion2 version2
    /\ version2
       = (if version1 =? VERSION_NONEXISTENT
          then safeVersion om1 else wrap64 (version1 + 1))
    /\ (0 < version1 < UINT64_MAX -> version2 = version1 + 1)
    /\ lookup om2 key
       = FoundObject (List.length (Log.memory (log om1)))
           (newObject key value2 version2 now2)
    /\ (version1 <> VERSION_NONEXISTENT ->
        Log.memory (log om2)
        = Log.memory (log om1)
          ++ [(MAIN_LOG, EntryObject (newObject key value2 version2 now2));
              (MAIN_LOG,
               EntryTombstone
                 (newTombstone (newObject key value1 version1 now1)
                    (getSegmentId (List.length (Log.memory (log om))))
                    later2))]
        /\ Log.freed (log om2)
           = Log.freed (log om1)
             ++ [(MAIN_LOG, List.length (Log.memory (log om)))]).
Proof.
  intros W1 W2.
  destruct (writeObject_outcome _ _ _ _ _ _ _ _ _ _ _ W1)
    as [(E & _) | [(_ & _ & E & _) | [(_ & _ & E & _) |
        (_ & _ & _ & _ & O1 & E1)]]]; try congruence.
  destruct (writeObject_outcome _ _ _ _ _ _ _ _ _ _ _ W2)
    as [(E & _) | [(_ & _ & E & _) | [(_ & _ & E & _) |
        (_ & _ & _ & _ & O2 & E2)]]]; try congruence.
  pose proof (proj1 (stored_lookup om key value1 now1 later1)) as L1.
  rewrite <- E1 in L1.
  destruct (stored_fields om1 key value2 now2 later2)
    as (_ & _ & _ & Sm & Sf & _).
  rewrite <- E2 in Sm, Sf.
  pose proof (proj1 (stored_lookup om1 key value2 now2 later2)) as L2.
  rewrite <- E2 in L2.
  assert (CV : currentVersionOf om1 key = nextVersion om key)
    by (unfold currentVersionOf; rewrite L1; reflexivity).
  assert (NV : nextVersion om1 key
               = if nextVersion om key =? VERSION_NONEXISTENT
                 then safeVersion om1 else wrap64 (nextVersion om key + 1))
    by (unfold nextVersion at 1; rewrite CV; reflexivity).
  exists (nextVersion om key), (nextVersion om1 key).
  split; [exact O1 | split; [exact O2 | split; [exact NV |]]].
  split; [| split; [exact L2 |]].
  - intros R; rewrite NV.
    destruct (Z.eqb_spec (nextVersion om key) VERSION_NONEXISTENT) as [Z0 | _];
      [unfold VERSION_NONEXISTENT in Z0; lia |].
    apply wrap64_small; lia.
  - intros NZ; rewrite Sm, Sf; unfold superseded.
    rewrite L1, CV.
    destruct (Z.eqb_spec (nextVersion om key) VERSION_NONEXISTENT);
      [contradiction |].
    split; reflexivity.
Qed.

(** ** Removing and reading *)

Lemma removeObject_served (om : ObjectManager) (key : Key)
  (rejectRules : option RejectRules) (outVersion : bool) (now : Z)
  (logHasSpace : bool) :
  removeObject om key rejectRules outVersion now logHasSpace
  = if served (tabletManager om) key then
      match lookup om key with
      | FoundObject reference object =>
          let version := Object.getVersion object in
          if negb (Status_eqb (applyRejectRules rejectRules version)
                     STATUS_OK)
          then (applyRejectRules rejectRules version,
                store outVersion version, om)
          else if negb logHasSpace
          then (STATUS_RETRY, store outVersion version, om)
          else
            (STATUS_OK, store outVersion version,
             snd (remove
                    (setLog
                       (Log.free MAIN_LOG reference
                          (Log.sync
                             (snd (Log.append MAIN_LOG
                                     (EntryTombstone
                                        (newTombstone object
                                           (getSegmentId reference) now))
                                     (log om)))))
                       (setSafeVersion
                          (Z.max (safeVersion om) (wrap64 (version + 1)))
                          om))
                    key))
      | _ =>
          (match rejectRules with
           | Some rules =>
               if doesntExist rules
               then STATUS_OBJECT_DOESNT_EXIST else STATUS_OK
           | None => STATUS_OK
           end, None, om)
      end
    else (STATUS_UNKNOWN_TABLET, None, om).
Proof.
  unfold removeObject, served.
  destruct (TabletManager.getTablet (tabletManager om) key) as [tablet |];
    [| reflexivity].
  destruct (TabletManager.state tablet);
    cbn [TabletManager.TabletState_eqb negb]; [| reflexivity].
  destruct (lookup om key) as [r o | r t |].
  2,3: destruct rejectRules as [rules |]; reflexivity.
  cbv zeta.
  destruct (negb (Status_eqb _ STATUS_OK)); [reflexivity |].
  destruct (negb logHasSpace); [reflexivity |].
  do 2 f_equal.
  unfold raiseSafeVersion; cbn [log setLog safeVersion].
  destruct (Z.ltb_spec (safeVersion om) (wrap64 (Object.getVersion o + 1)));
    cbn [snd log setLog setSafeVersion].
  - rewrite Z.max_r by lia; reflexivity.
  - rewrite Z.max_l by lia.
    destruct om; reflexivity.
Qed.

(** remove after appends to the log: the key is gone, the others stay. *)
Lemma lookup_remove_extended (om om0 : ObjectManager) (key : Key)
  (more : list (LogId * LogEntry)) :
  wellFormed om = true ->
  objectMap om0 = objectMap om ->
  Log.memory (log om0) = Log.memory (log om) ++ more ->
  lookup (snd (remove om0 key)) key = NotFound
  /\ forall key', key' <> key ->
       lookup (snd (remove om0 key)) key' = lookup om key'.
Proof.
  intros W Em Mem.
  destruct (indexInvariant_keys om (wellFormed_indexInvariant om W))
    as [RR ND].
  pose proof (agreeOn_extended _ _ _ _ Mem RR) as A.
  split.
  - apply lookup_remove; rewrite Em.
    rewrite (indexedKeys_agree (log om) (log om0)); assumption.
  - intros key' NE; rewrite lookup_remove_other by exact NE.
    unfold lookup; rewrite Em; apply lookupIn_agree; exact A.
Qed.

(** The outcomes of removeObject. *)
Lemma removeObject_outcome (om om' : ObjectManager) (key : Key)
  (rejectRules : option RejectRules) (outVersion : bool) (now : Z)
  (logHasSpace : bool) (status : Status) (out : option Z) :
  removeObject om key rejectRules outVersion now logHasSpace
  = (status, out, om') ->
  om' = om
  \/ exists (r : Reference) (o : Object.t) (om0 : ObjectManager),
       status = STATUS_OK
       /\ served (tabletManager om) key = true
       /\ lookup om key = FoundObject r o
       /\ out = store outVersion (Object.getVersion o)
       /\ om' = snd (remove om0 key)
       /\ objectMap om0 = objectMap om
       /\ tabletManager om0 = tabletManager om
       /\ Log.memory (log om0)
          = Log.memory (log om)
            ++ [(MAIN_LOG,
                 EntryTombstone (newTombstone o (getSegmentId r) now))].
Proof.
  rewrite removeObject_served.
  destruct (served (tabletManager om) key); [| left; congruence].
  destruct (lookup om key) as [r o | r t |]; [| left; congruence ..].
  cbv zeta.
  destruct (negb (Status_eqb _ STATUS_OK)); [left; congruence |].
  destruct (negb logHasSpace); [left; congruence |].
  intros E; injection E as <- <- <-.
  right; exists r, o; eexists.
  repeat split; reflexivity.
Qed.

(** X6.  removeObject of a key of a NORMAL tablet that is not indexed as
    an object (absent, or indexed as a tombstone): the object manager is
    left as it was, nothing is stored through outVersion, and the status is
    STATUS_OK unless the reject rules have doesntExist set, which gives
    STATUS_OBJECT_DOESNT_EXIST; no other reject rule is consulted, and NULL
    rules stand for rules that reject nothing. *)
Theorem removeObject_absent (om : ObjectManager) (key : Key)
  (rejectRules : option RejectRules) (outVersion : bool) (now : Z)
  (logHasSpace : bool) (tablet : TabletManager.Tablet) :
  TabletManager.getTablet (tabletManager om) key = Some tablet ->
  TabletManager.state tablet = TabletManager.NORMAL ->
  (forall (r : Reference) (o : Object.t), lookup om key <> FoundObject r o) ->
  removeObject om key rejectRules outVersion now logHasSpace
  = (match rejectRules with
     | Some rules =>
         if doesntExist rules then STATUS_OBJECT_DOESNT_EXIST else STATUS_OK
     | None => STATUS_OK
     end, None, om).
Proof.
  intros S N A.
  rewrite removeObject_served; unfold served; rewrite S, N.
  cbn [TabletManager.TabletState_eqb].
  destruct (lookup om key) as [r o | r t |] eqn:L; try reflexivity.
  elim (A r o); reflexivity.
Qed.

(** X7.  On a well-formed index, a removeObject that has returned
    STATUS_OK, followed by a second removeObject of the same key: the second
    finds no object, leaves the object manager as it is, stores nothing
    through outVersion, and returns STATUS_OK unless its reject rules have
    doesntExist set. *)
Theorem removeObject_twice (om om1 : ObjectManager) (key : Key)
  (rules1 rules2 : option RejectRules) (outVersion1 outVersion2 : bool)
  (now1 now2 : Z) (space1 space2 : bool) (out1 : option Z) :
  wellFormed om = true ->
  removeObject om key rules1 outVersion1 now1 space1
  = (STATUS_OK, out1, om1) ->
  removeObject om1 key rules2 outVersion2 now2 space2
  = (match rules2 with
     | Some rules =>
         if doesntExist rules then STATUS_OBJECT_DOESNT_EXIST else STATUS_OK
     | None => STATUS_OK
     end, None, om1).
Proof.
  intros W R1.
  assert (S : served (tabletManager om) key = true).
  { rewrite removeObject_served in R1.
    destruct (served (tabletManager om) key); [reflexivity | discriminate]. }
  assert (A : served (tabletManager om1) key = true
              /\ forall r o, lookup om1 key <> FoundObject r o).
  { destruct (lookup om key) as [r o | r t |] eqn:L.
    - destruct (removeObject_outcome _ _ _ _ _ _ _ _ _ R1)
        as [-> | (r' & o' & om0 & _ & _ & _ & _ & -> & Em & Et & Mem)].
      + exfalso.
        rewrite removeObject_served, S, L in R1; cbv zeta in R1.
        destruct (Status_eqb _ STATUS_OK) eqn:X; cbn [negb] in R1.
        * destruct space1; cbn [negb] in R1; [| discriminate].
          injection R1 as _ R1.
          match type of R1 with
          | snd (remove ?x key) = _ =>
              pose proof (proj1 (lookup_remove_extended om x key
                            [(MAIN_LOG,
                              EntryTombstone
                                (newTombstone o (getSegmentId r) now1))]
                            W eq_refl eq_refl)) as G
          end.
          rewrite R1, L in G; discriminate.
        * injection R1 as R1 _; rewrite R1 in X; discriminate.
      + destruct (remove_fields om0 key) as (_ & -> & _).
        rewrite Et; split; [exact S |].
        intros r1 o1.
        rewrite (proj1 (lookup_remove_extended om om0 key _ W Em Mem)).
        discriminate.
    - rewrite removeObject_served, S, L in R1.
      injection R1 as _ _ <-.
      split; [exact S | rewrite L; discriminate].
    - rewrite removeObject_served, S, L in R1.
      injection R1 as _ _ <-.
      split; [exact S | rewrite L; discriminate]. }
  destruct A as [S1 A].
  rewrite removeObject_served, S1.
  destruct (lookup om1 key) as [r o | r t |] eqn:L; try reflexivity.
  elim (A r o); reflexivity.
Qed.

(** X8.  A removeObject on a well-formed index, whatever its outcome,
    leaves what lookup finds for every other key, and so the status,
    version and data that a readObject of any other key returns. *)
Theorem removeObject_other_keys (om om' : ObjectManager) (key key' : Key)
  (rejectRules : option RejectRules) (outVersion : bool) (now : Z)
  (logHasSpace : bool) (status : Status) (out : option Z) :
  wellFormed om = true ->
  key' <> key ->
  removeObject om key rejectRules outVersion now logHasSpace
  = (status, out, om') ->
  lookup om' key' = lookup om key'
  /\ forall (rules : option RejectRules) (wantVersion : bool),
       fst (readObject om' key' rules wantVersion)
       = fst (readObject om key' rules wantVersion).
Proof.
  intros W NE R.
  assert (E : lookup om' key' = lookup om key'
              /\ tabletManager om' = tabletManager om).
  { destruct (removeObject_outcome _ _ _ _ _ _ _ _ _ R)
      as [-> | (r & o & om0 & _ & _ & _ & _ & -> & Em & Et & Mem)];
      [auto |].
    destruct (remove_fields om0 key) as (_ & -> & _).
    split; [| exact Et].
    exact (proj2 (lookup_remove_extended om om0 key _ W Em Mem) key' NE). }
  destruct E as [L T].
  split; [exact L |].
  intros rules wantVersion; apply readObject_depends;
    [rewrite T; reflexivity | exact L].
Qed.

(** X9.  A readObject or a removeObject that does not return STATUS_OK
    leaves the object manager exactly as it was (a removeObject that hits a
    full log has appended nothing, synced nothing and kept the index); the
    failed read yields no data. *)
Theorem failed_read_remove_unchanged (om om' : ObjectManager) (key : Key)
  (rejectRules : option RejectRules) (outVersion : bool) (status : Status)
  (out : option Z) :
  status <> STATUS_OK ->
  (forall data : option string,
     readObject om key rejectRules outVersion = (status, out, data, om') ->
     om' = om /\ data = None)
  /\ (forall (now : Z) (logHasSpace : bool),
        removeObject om key rejectRules outVersion now logHasSpace
        = (status, out, om') ->
        om' = om).
Proof.
  intros NOK; split.
  - intros data; rewrite readObject_served.
    destruct (served (tabletManager om) key);
      [| intros E; injection E as _ _ <- <-; auto].
    destruct (lookup om key) as [r o | r t |];
      try (intros E; injection E as _ _ <- <-; auto).
    cbv zeta; destruct (negb (Status_eqb _ STATUS_OK));
      intros E; injection E as E _ E1 E2; subst; auto; congruence.
  - intros now logHasSpace R.
    destruct (removeObject_outcome _ _ _ _ _ _ _ _ _ R)
      as [-> | (r & o & om0 & E & _)]; [reflexivity | congruence].
Qed.

(** X10.  A readObject, whatever its outcome, leaves the log, the hash
    table and the version floor as they were, and changes nothing in the
    status, version and data that a later readObject, of any key,
    returns. *)
Theorem readObject_transparent (om : ObjectManager) (key : Key)
  (rejectRules : option RejectRules) (outVersion : bool) :
  let om' := snd (readObject om key rejectRules outVersion) in
  log om' = log om
  /\ objectMap om' = objectMap om
  /\ safeVersion om' = safeVersion om
  /\ forall (key' : Key) (rules : option RejectRules) (wantVersion : bool),
       fst (readObject om' key' rules wantVersion)
       = fst (readObject om key' rules wantVersion).
Proof.
  intros om'.
  assert (E : log om' = log om /\ objectMap om' = objectMap om
              /\ safeVersion om' = safeVersion om
              /\ forall key', served (tabletManager om') key'
                              = served (tabletManager om) key').
  { subst om'; rewrite readObject_served.
    destruct (served (tabletManager om) key); [| auto].
    destruct (lookup om key) as [r o | r t |]; auto.
    cbv zeta; destruct (negb (Status_eqb _ STATUS_OK)); auto.
    cbn [snd log objectMap safeVersion tabletManager setTabletManager].
    repeat split.
    intros key'; apply served_state, covers_incrementReadCount. }
  destruct E as (El & Em & Es & Et).
  repeat split; auto.
  intros key' rules wantVersion; apply readObject_depends; [apply Et |].
  apply lookup_same_index; [rewrite El; reflexivity | exact Em].
Qed.

(** ** Replay: what an entry leaves behind *)

(** Installing a freshly appended entry under its key leaves the other
    keys of a well-formed index alone. *)
Lemma install_entry_other (om : ObjectManager) (which : LogId) (e : LogEntry)
  (key key' : Key) :
  wellFormed om = true ->
  entryKey e = Some key ->
  key' <> key ->
  lookup
    (snd (replace (setLog (snd (Log.append which e (log om))) om) key
            (List.length (Log.memory (log om))))) key'
  = lookup om key'.
Proof.
  intros W K NE.
  rewrite (lookup_replace_other _ key key' _ e);
    [| exact (getEntry_append_new which e (log om)) | exact K | exact NE].
  unfold lookup; cbn [log objectMap setLog].
  apply lookupIn_agree.
  apply (agreeOn_extended _ _ [(which, e)]); [reflexivity |].
  exact (proj1 (indexInvariant_keys om (wellFormed_indexInvariant om W))).
Qed.

Lemma replayEntry_syncCount (om : ObjectManager) (e : LogEntry) :
  Log.syncCount (log (replayEntry om e)) = Log.syncCount (log om).
Proof.
  unfold replayEntry, raiseSafeVersion, Log.append.
  destruct e as [o | t | s];
    repeat match goal with
      | |- context [if ?b then _ else _] => destruct b; cbv beta iota
      | |- context [let '(_, _) := ?p in _] => destruct p; cbv beta iota
      end;
    try match goal with
      | |- context [snd (replace ?a ?k ?r)] =>
          rewrite (replace_setObjectMap a k r)
      end;
    reflexivity.
Qed.

Lemma replayEntry_safeVersion (om : ObjectManager) (e : LogEntry) :
  safeVersion (replayEntry om e)
  = match e with
    | EntrySafeVersion s =>
        Z.max (safeVersion om) (ObjectSafeVersion.getSafeVersion s)
    | _ => safeVersion om
    end.
Proof.
  unfold replayEntry, raiseSafeVersion, Log.append.
  destruct e as [o | t | s].
  1,2: repeat match goal with
      | |- context [if ?b then _ else _] => destruct b; cbv beta iota
      | |- context [let '(_, _) := ?p in _] => destruct p; cbv beta iota
      end;
    try match goal with
      | |- context [snd (replace ?a ?k ?r)] =>
          rewrite (replace_setObjectMap a k r)
      end;
    reflexivity.
  cbv zeta.
  match goal with
  | |- context [if negb ?b then _ else _] => destruct (negb b)
  end;
    cbn [safeVersion setLog LOG_WARNING count setMetrics];
    destruct (Z.ltb_spec (safeVersion om) (ObjectSafeVersion.getSafeVersion s));
    cbn [safeVersion setSafeVersion count setMetrics setLog LOG_WARNING]; lia.
Qed.

Lemma replay_safeVersion (om : ObjectManager) (s : ObjectSafeVersion.t) :
  let om' := replayEntry om (EntrySafeVersion s) in
  objectMap om' = objectMap om
  /\ Log.memory (log om')
     = Log.memory (log om) ++ [(SIDE_LOG, EntrySafeVersion s)]
  /\ Log.freed (log om') = Log.freed (log om).
Proof.
  unfold replayEntry, raiseSafeVersion, Log.append; cbv zeta.
  repeat match goal with
      | |- context [if ?b then _ else _] => destruct b; cbv beta iota
      end; repeat split; reflexivity.
Qed.

Lemma replaySegment_state (om : ObjectManager) (it : list LogEntry) :
  completionState (replaySegment om it)
  = DelayedIncrementer_destroy (replayLoop om it).
Proof. reflexivity. Qed.

(** The log under one replayed entry: at most the entry itself is
    appended, through the SideLog; at most one reference is freed, through
    the SideLog; nothing is synced. *)
Lemma replayEntry_log (om : ObjectManager) (e : LogEntry) :
  exists (kept : list LogEntry) (freedRefs : list Reference),
    Log.memory (log (replayEntry om e))
    = Log.memory (log om) ++ map (pair SIDE_LOG) kept
    /\ (kept = [] \/ kept = [e])
    /\ Log.freed (log (replayEntry om e))
       = Log.freed (log om) ++ map (pair SIDE_LOG) freedRefs
    /\ Log.syncCount (log (replayEntry om e)) = Log.syncCount (log om).
Proof.
  pose proof (replayEntry_syncCount om e) as Sy.
  destruct e as [o | t | s].
  - pose proof (replay_object om o) as R; cbv zeta in R.
    destruct (_ <=? _).
    + destruct R as (_ & _ & M & F).
      exists [EntryObject o].
      exists (if snd (objectMinSuccessor (lookup om (Object.getKey o)))
              then [foundReference (lookup om (Object.getKey o))] else []).
      rewrite M, F; repeat split; auto.
      destruct (snd _); reflexivity.
    + destruct R as (_ & ->).
      exists [], []; cbn [map]; rewrite !app_nil_r; auto.
  - pose proof (replay_tombstone om t) as R; cbv zeta in R.
    destruct (_ <=? _).
    + destruct R as (_ & _ & M & F).
      exists [EntryTombstone t].
      exists (if snd (tombstoneMinSuccessor
                        (lookup om (ObjectTombstone.getKey t)))
              then [foundReference (lookup om (ObjectTombstone.getKey t))]
              else []).
      rewrite M, F; repeat split; auto.
      destruct (snd _); reflexivity.
    + destruct R as (_ & ->).
      exists [], []; cbn [map]; rewrite !app_nil_r; auto.
  - destruct (replay_safeVersion om s) as (_ & M & F).
    exists [EntrySafeVersion s], []; rewrite M, F.
    cbn [map]; rewrite app_nil_r; auto.
Qed.

(** X11.  replaySegment writes through the SideLog only and never syncs:
    the log grows by entries of the segment, no more of them than the
    segment has, each appended through the SideLog; what is freed is freed
    through the SideLog; the tablet registry is not touched. *)
Theorem replaySegment_uses_side_log (it : list LogEntry)
  (om : ObjectManager) :
  let om' := completionState (replaySegment om it) in
  exists (kept : list LogEntry) (freedRefs : list Reference),
    Log.memory (log om') = Log.memory (log om) ++ map (pair SIDE_LOG) kept
    /\ (forall e, In e kept -> In e it)
    /\ (List.length kept <= List.length it)%nat
    /\ Log.freed (log om')
       = Log.freed (log om) ++ map (pair SIDE_LOG) freedRefs
    /\ Log.syncCount (log om') = Log.syncCount (log om)
    /\ tabletManager om' = tabletManager om.
Proof.
  intros om'; subst om'; rewrite replaySegment_state.
  cbn [log tabletManager DelayedIncrementer_destroy
       setReplaySegmentReturnCount].
  revert om; induction it as [| e rest IH]; intros om; cbn [replayLoop].
  - exists [], []; cbn [map]; rewrite !app_nil_r.
    repeat split; auto; intros e [].
  - destruct (IH (replayEntry om e)) as (kept & freedRefs & M & I & N & F & Sy & T).
    destruct (replayEntry_log om e) as (kept0 & freed0 & M0 & K0 & F0 & Sy0).
    destruct (replayEntry_frame om e) as (T0 & _).
    exists (kept0 ++ kept), (freed0 ++ freedRefs).
    rewrite M, M0, F, F0, Sy, Sy0, T, T0, !map_app, <- !app_assoc.
    repeat split; auto.
    + intros e' X; apply in_app_or in X; destruct X as [X | X].
      * destruct K0 as [-> | ->]; [destruct X |].
        destruct X as [<- | []]; left; reflexivity.
      * right; exact (I e' X).
    + rewrite length_app; destruct K0 as [-> | ->]; simpl; lia.
Qed.

(** X12.  replaySegment never lowers the version floor: afterwards
    safeVersion is at least what it was and at least every safe version of
    the segment, and it is one of those values. *)
Theorem replaySegment_raises_safeVersion (it : list LogEntry)
  (om : ObjectManager) :
  let om' := completionState (replaySegment om it) in
  safeVersion om <= safeVersion om'
  /\ (forall s : ObjectSafeVersion.t,
        In (EntrySafeVersion s) it ->
        ObjectSafeVersion.getSafeVersion s <= safeVersion om')
  /\ (safeVersion om' = safeVersion om
      \/ exists s : ObjectSafeVersion.t,
           In (EntrySafeVersion s) it
           /\ safeVersion om' = ObjectSafeVersion.getSafeVersion s).
Proof.
  intros om'; subst om'; rewrite replaySegment_state.
  cbn [safeVersion DelayedIncrementer_destroy setReplaySegmentReturnCount].
  revert om; induction it as [| e rest IH]; intros om; cbn [replayLoop].
  - repeat split; [lia | intros s [] | left; reflexivity].
  - destruct (IH (replayEntry om e)) as (Le & Ge & Eq).
    pose proof (replayEntry_safeVersion om e) as Sv.
    assert (Mono : safeVersion om <= safeVersion (replayEntry om e))
      by (rewrite Sv; destruct e; lia).
    split; [lia | split].
    + intros s [-> | I]; [| exact (Ge s I)].
      rewrite Sv in Le; lia.
    + destruct Eq as [Eq | (s & I & Eq)].
      * rewrite Eq, Sv.
        destruct e as [o | t | s]; [left; reflexivity .. |].
        destruct (Z.max_spec (safeVersion om)
                    (ObjectSafeVersion.getSafeVersion s)) as [[_ ->] | [_ ->]];
          [right; exists s; split; [left |]; reflexivity | left; reflexivity].
      * right; exists s; split; [right; exact I | exact Eq].
Qed.

(** ** Replay: the counters *)

Lemma wrap64_shift (a b k : Z) : a = b + k * 2 ^ 64 -> wrap64 a = wrap64 b.
Proof. intros ->; unfold wrap64; apply Z_mod_plus_full. Qed.

Lemma wrap64_eq (z : Z) : wrap64 z = z - 2 ^ 64 * (z / 2 ^ 64).
Proof. unfold wrap64; apply Z.mod_eq; lia. Qed.

Lemma wrap64_add_l (a b : Z) : wrap64 (wrap64 a + b) = wrap64 (a + b).
Proof.
  apply (wrap64_shift _ _ (- (a / 2 ^ 64))); rewrite wrap64_eq; ring.
Qed.

Lemma replayEntry_metrics (om : ObjectManager) (e : LogEntry) :
  recoverySegmentEntryCount (metrics (replayEntry om e))
  = wrap64 (recoverySegmentEntryCount (metrics om) + 1)
  /\ wrap64 (settled (metrics (replayEntry om e)))
     = wrap64 (settled (metrics om) + 1).
Proof.
  unfold replayEntry, raiseSafeVersion, Log.append.
  destruct e as [o | t | s];
    repeat match goal with
      | |- context [if ?b then _ else _] => destruct b; cbv beta iota
      | |- context [let '(_, _) := ?p in _] => destruct p; cbv beta iota
      end;
    try match goal with
      | |- context [snd (replace ?a ?k ?r)] =>
          rewrite (replace_setObjectMap a k r)
      end;
    cbn [metrics setLog setObjectMap setSafeVersion LOG_WARNING count
         setMetrics];
    destruct (metrics om) as [m1 m2 m3 m4 m5 m6 m7 m8];
    cbn [increment recoverySegmentEntryCount]; unfold settled;
    cbn [objectAppendCount objectDiscardCount tombstoneAppendCount
         tombstoneDiscardCount safeVersionRecoveryCount
         safeVersionNonRecoveryCount];
    (split; [reflexivity |]).
  all: match goal with
       | |- context [wrap64 (?x + 1)] =>
           apply (wrap64_shift _ _ (- ((x + 1) / 2 ^ 64)));
           rewrite (wrap64_eq (x + 1)); ring
       end.
Qed.

(** X13.  The counters of replaySegment add up, in uint64_t: the call
    counts every entry of the segment once in recoverySegmentEntryCount, and
    the counters objectAppendCount, objectDiscardCount,
    tombstoneAppendCount, tombstoneDiscardCount, safeVersionRecoveryCount
    and safeVersionNonRecoveryCount together grow by the number of entries
    of the segment: every entry is accounted for as appended or
    discarded. *)
Theorem replaySegment_accounts (it : list LogEntry) (om : ObjectManager) :
  let m := metrics om in
  let m' := metrics (completionState (replaySegment om it)) in
  wrap64 (recoverySegmentEntryCount m')
  = wrap64 (recoverySegmentEntryCount m + Z.of_nat (List.length it))
  /\ wrap64 (settled m')
     = wrap64 (settled m + Z.of_nat (List.length it)).
Proof.
  cbv zeta; rewrite replaySegment_state.
  cbn [metrics DelayedIncrementer_destroy setReplaySegmentReturnCount].
  revert om; induction it as [| e rest IH]; intros om.
  - cbn [replayLoop List.length Z.of_nat]; rewrite !Z.add_0_r; auto.
  - cbn [replayLoop]; destruct (IH (replayEntry om e)) as [A B].
    destruct (replayEntry_metrics om e) as [A0 B0].
    rewrite A, B, A0.
    replace (Z.of_nat (List.length (e :: rest)))
      with (1 + Z.of_nat (List.length rest))
      by (cbn [List.length]; lia).
    split.
    + rewrite wrap64_add_l; f_equal; ring.
    + rewrite <- wrap64_add_l, B0, wrap64_add_l; f_equal; ring.
Qed.

(** ** Replay: what the index holds afterwards *)

Lemma Key_eqb_neq (a b : Key) : Key_eqb a b = false -> a <> b.
Proof. intros E ->; rewrite Key_eqb_refl in E; discriminate. Qed.

(** What lookup finds for any key after one replayed entry. *)
Lemma replayEntry_lookup (om : ObjectManager) (e : LogEntry) (key' : Key) :
  wellFormed om = true ->
  lookup (replayEntry om e) key'
  = match e with
    | EntryObject o =>
        if Key_eqb key' (Object.getKey o)
           && (fst (objectMinSuccessor (lookup om (Object.getKey o)))
               <=? Object.version o)
        then FoundObject (List.length (Log.memory (log om))) o
        else lookup om key'
    | EntryTombstone t =>
        if Key_eqb key' (ObjectTombstone.getKey t)
           && (fst (tombstoneMinSuccessor
                      (lookup om (ObjectTombstone.getKey t)))
               <=? ObjectTombstone.getObjectVersion t)
        then FoundTombstone (List.length (Log.memory (log om))) t
        else lookup om key'
    | EntrySafeVersion _ => lookup om key'
    end.
Proof.
  intros W.
  destruct e as [o | t | s].
  - pose proof (replay_object om o) as R; cbv zeta in R.
    destruct (_ <=? _).
    + destruct R as (L & M & Mem & _).
      destruct (Key_eqb key' (Object.getKey o)) eqn:E; cbn [andb].
      * apply Key_eqb_eq in E; subst key'; exact L.
      * rewrite <- (install_entry_other om SIDE_LOG (EntryObject o)
                      (Object.getKey o) key' W eq_refl (Key_eqb_neq _ _ E)).
        apply lookup_same_index; [| exact M].
        rewrite Mem.
        destruct (replace_log
                    (setLog (snd (Log.append SIDE_LOG (EntryObject o) (log om)))
                       om) (Object.getKey o)
                    (List.length (Log.memory (log om)))) as (-> & _).
        reflexivity.
    + destruct R as (M & L); rewrite andb_false_r.
      apply lookup_same_index; [rewrite L; reflexivity | exact M].
  - pose proof (replay_tombstone om t) as R; cbv zeta in R.
    destruct (_ <=? _).
    + destruct R as (L & M & Mem & _).
      destruct (Key_eqb key' (ObjectTombstone.getKey t)) eqn:E; cbn [andb].
      * apply Key_eqb_eq in E; subst key'; exact L.
      * rewrite <- (install_entry_other om SIDE_LOG (EntryTombstone t)
                      (ObjectTombstone.getKey t) key' W eq_refl
                      (Key_eqb_neq _ _ E)).
        apply lookup_same_index; [| exact M].
        rewrite Mem.
        destruct (replace_log
                    (setLog
                       (snd (Log.append SIDE_LOG (EntryTombstone t) (log om)))
                       om) (ObjectTombstone.getKey t)
                    (List.length (Log.memory (log om)))) as (-> & _).
        reflexivity.
    + destruct R as (M & L); rewrite andb_false_r.
      apply lookup_same_index; [rewrite L; reflexivity | exact M].
  - destruct (replay_safeVersion om s) as (M & Mem & _).
    unfold lookup; rewrite M.
    apply lookupIn_agree.
    apply (agreeOn_extended _ _ _ _ Mem).
    exact (proj1 (indexInvariant_keys om (wellFormed_indexInvariant om W))).
Qed.

(** X14.  An object and a tombstone of the same key whose version is at
    least the object's, both below 2^64 - 1, replayed into an index that
    does not hold the key: in either order the index ends up referring to
    the tombstone.  Object first, both are appended to the SideLog and the
    object's reference is freed; tombstone first, only the tombstone is
    appended and the object is discarded. *)
Theorem replay_tombstone_wins (om : ObjectManager) (o : Object.t)
  (t : ObjectTombstone.t) :
  ObjectTombstone.getKey t = Object.getKey o ->
  lookup om (Object.getKey o) = NotFound ->
  0 <= Object.version o <= ObjectTombstone.getObjectVersion t ->
  ObjectTombstone.getObjectVersion t < UINT64_MAX ->
  let key := Object.getKey o in
  let n := List.length (Log.memory (log om)) in
  let objectFirst :=
    completionState (replaySegment om [EntryObject o; EntryTombstone t]) in
  let tombstoneFirst :=
    completionState (replaySegment om [EntryTombstone t; EntryObject o]) in
  lookup objectFirst key = FoundTombstone (S n) t
  /\ Log.memory (log objectFirst)
     = Log.memory (log om)
       ++ [(SIDE_LOG, EntryObject o); (SIDE_LOG, EntryTombstone t)]
  /\ Log.freed (log objectFirst) = Log.freed (log om) ++ [(SIDE_LOG, n)]
  /\ lookup tombstoneFirst key = FoundTombstone n t
  /\ Log.memory (log tombstoneFirst)
     = Log.memory (log om) ++ [(SIDE_LOG, EntryTombstone t)]
  /\ Log.freed (log tombstoneFirst) = Log.freed (log om).
Proof.
  intros K L Vo Vt key n objectFirst tombstoneFirst.
  subst objectFirst tombstoneFirst key n; rewrite !replaySegment_state.
  cbn [replayLoop].
  assert (D : forall x k, lookup (DelayedIncrementer_destroy x) k
                          = lookup x k) by reflexivity.
  rewrite !D; cbn [log DelayedIncrementer_destroy
                   setReplaySegmentReturnCount].
  (* object, then tombstone *)
  pose proof (replay_object om o) as R1; cbv zeta in R1.
  rewrite L in R1; cbn [objectMinSuccessor fst snd] in R1.
  destruct (Z.leb_spec 0 (Object.version o)); [| lia].
  destruct R1 as (L1 & _ & M1 & F1).
  pose proof (replay_tombstone (replayEntry om (EntryObject o)) t) as R2.
  cbv zeta in R2; rewrite K, L1 in R2.
  cbn [tombstoneMinSuccessor fst snd foundReference] in R2.
  destruct (Z.leb_spec (Object.getVersion o)
              (ObjectTombstone.getObjectVersion t));
    [| unfold Object.getVersion in *; lia].
  destruct R2 as (L2 & _ & M2 & F2).
  (* tombstone, then object *)
  pose proof (replay_tombstone om t) as R3; cbv zeta in R3.
  rewrite K, L in R3; cbn [tombstoneMinSuccessor fst snd] in R3.
  destruct (Z.leb_spec 0 (ObjectTombstone.getObjectVersion t)); [| lia].
  destruct R3 as (L3 & _ & M3 & F3).
  pose proof (replay_object (replayEntry om (EntryTombstone t)) o) as R4.
  cbv zeta in R4; rewrite L3 in R4.
  cbn [objectMinSuccessor fst snd] in R4.
  rewrite wrap64_small in R4 by (unfold UINT64_MAX in *; lia).
  destruct (Z.leb_spec (ObjectTombstone.getObjectVersion t + 1)
              (Object.version o)); [lia |].
  destruct R4 as (M4 & L4).
  split; [| split; [| split; [| split; [| split]]]].
  - rewrite L2, M1, length_app; cbn [List.length].
    f_equal; lia.
  - rewrite M2, M1, <- app_assoc; reflexivity.
  - rewrite F2, F1, app_nil_r; reflexivity.
  - rewrite <- L3; apply lookup_same_index;
      [rewrite L4; reflexivity | exact M4].
  - rewrite L4; exact M3.
  - rewrite L4, F3, app_nil_r; reflexivity.
Qed.

(** ** Replay: a segment replayed again *)

Lemma lookupIn_slot_of (l : Log.t) (h : HashTable.t) (key : Key)
  (slots : list (Z * Reference)) :
  lookupIn l h key slots = NotFound
  \/ exists slot e,
       In slot slots /\ Log.getEntry l (snd slot) = Some e
       /\ fst slot = HashTable.bucketOf h key
       /\ entryKey e = Some key
       /\ lookupIn l h key slots = foundAt (snd slot) e.
Proof.
  induction slots as [| c rest IH]; [left; reflexivity |].
  cbn [lookupIn].
  destruct (examine_cases l h key c) as [N | (e & B & G & K & E & NN)].
  - rewrite N; destruct IH as [IH | (slot & e & I & G & B & K & L)];
      [left; exact IH | right; exists slot, e; simpl; auto 6].
  - right; exists c, e; rewrite E.
    split; [left; reflexivity | split; [exact G | split; [exact B |
      split; [exact K |]]]].
    apply found_or_next; exact NN.
Qed.

Lemma indexInRange_lookups (om : ObjectManager) :
  indexInRange om = true -> lookupsInRange om.
Proof.
  unfold indexInRange; rewrite forallb_forall; intros R key.
  unfold lookup.
  destruct (lookupIn_slot_of (log om) (objectMap om) key
              (HashTable.slots (objectMap om)))
    as [-> | (slot & e & I & G & _ & _ & ->)];
    [unfold UINT64_MAX; simpl; lia |].
  specialize (R slot I); rewrite G in R.
  destruct e as [o | t | s]; cbn [foundAt foundVersion entryInRange] in *;
    [| | unfold UINT64_MAX; lia];
    unfold versionInRange in R; apply andb_true_iff in R;
    destruct R as [R1 R2]; apply Z.leb_le in R1; apply Z.ltb_lt in R2;
    auto.
Qed.

(** The two thresholds that replaySegment derives from what the index
    holds for a key. *)
Lemma minSuccessor_floors (current : LookupResult) :
  0 <= foundVersion current < UINT64_MAX ->
  let objectFloor := fst (objectMinSuccessor current) in
  let tombstoneFloor := fst (tombstoneMinSuccessor current) in
  0 <= tombstoneFloor <= objectFloor /\ objectFloor <= tombstoneFloor + 1.
Proof.
  destruct current as [r o | r t |];
    cbn [foundVersion objectMinSuccessor tombstoneMinSuccessor fst];
    intros R; rewrite ?wrap64_small by lia; lia.
Qed.

Lemma stale_noop (om : ObjectManager) (e : LogEntry) :
  wellFormed om = true ->
  stale om e = true ->
  (forall key, lookup (replayEntry om e) key = lookup om key)
  /\ objectMap (replayEntry om e) = objectMap om
  /\ Log.freed (log (replayEntry om e)) = Log.freed (log om)
  /\ safeVersion (replayEntry om e) = safeVersion om.
Proof.
  intros W S.
  split; [| split; [| split]].
  - intros key; rewrite replayEntry_lookup by exact W.
    destruct e as [o | t | s]; cbn [stale] in S; try reflexivity;
      apply negb_true_iff in S; rewrite S, andb_false_r; reflexivity.
  - destruct e as [o | t | s]; cbn [stale] in S.
    + pose proof (replay_object om o) as R; cbv zeta in R.
      apply negb_true_iff in S; rewrite S in R; exact (proj1 R).
    + pose proof (replay_tombstone om t) as R; cbv zeta in R.
      apply negb_true_iff in S; rewrite S in R; exact (proj1 R).
    + exact (proj1 (replay_safeVersion om s)).
  - destruct e as [o | t | s]; cbn [stale] in S.
    + pose proof (replay_object om o) as R; cbv zeta in R.
      apply negb_true_iff in S; rewrite S in R.
      rewrite (proj2 R); reflexivity.
    + pose proof (replay_tombstone om t) as R; cbv zeta in R.
      apply negb_true_iff in S; rewrite S in R.
      rewrite (proj2 R); reflexivity.
    + exact (proj2 (proj2 (replay_safeVersion om s))).
  - rewrite replayEntry_safeVersion.
    destruct e as [o | t | s]; cbn [stale] in S; try reflexivity.
    apply Z.leb_le in S; lia.
Qed.

Lemma entryInRange_version (v : Z) :
  versionInRange v = true -> 0 <= v < UINT64_MAX.
Proof.
  unfold versionInRange; rewrite andb_true_iff, Z.leb_le, Z.ltb_lt; auto.
Qed.

Lemma replay_lookupsInRange (om : ObjectManager) (e : LogEntry) :
  wellFormed om = true ->
  lookupsInRange om ->
  entryInRange e = true ->
  lookupsInRange (replayEntry om e).
Proof.
  intros W R E key; rewrite replayEntry_lookup by exact W.
  destruct e as [o | t | s]; cbn [entryInRange] in E;
    try apply entryInRange_version in E;
    try destruct (_ && _); cbn [foundVersion]; auto; apply R.
Qed.

Lemma replay_stale_mono (om : ObjectManager) (e e' : LogEntry) :
  wellFormed om = true ->
  lookupsInRange om ->
  entryInRange e = true ->
  stale om e' = true ->
  stale (replayEntry om e) e' = true.
Proof.
  intros W R E S.
  destruct e' as [o' | t' | s']; cbn [stale] in *.
  3:{ rewrite replayEntry_safeVersion; apply Z.leb_le in S; apply Z.leb_le.
      destruct e; lia. }
  - rewrite replayEntry_lookup by exact W.
    destruct e as [o | t | s]; [| | exact S].
    + destruct (Key_eqb (Object.getKey o') (Object.getKey o)) eqn:K;
        [| exact S].
      apply Key_eqb_eq in K; rewrite K in S |- *; cbn [andb].
      destruct (Z.leb_spec
                  (fst (objectMinSuccessor (lookup om (Object.getKey o))))
                  (Object.version o)); [| exact S].
      apply negb_true_iff, Z.leb_gt in S.
      apply entryInRange_version in E.
      cbn [objectMinSuccessor fst]; unfold Object.getVersion.
      rewrite wrap64_small by lia.
      apply negb_true_iff, Z.leb_gt; lia.
    + destruct (Key_eqb (Object.getKey o') (ObjectTombstone.getKey t)) eqn:K;
        [| exact S].
      apply Key_eqb_eq in K; rewrite K in S |- *; cbn [andb].
      destruct (Z.leb_spec
                  (fst (tombstoneMinSuccessor
                          (lookup om (ObjectTombstone.getKey t))))
                  (ObjectTombstone.getObjectVersion t)); [| exact S].
      apply negb_true_iff, Z.leb_gt in S.
      apply entryInRange_version in E.
      pose proof (minSuccessor_floors _ (R (ObjectTombstone.getKey t))) as F.
      cbv zeta in F.
      cbn [objectMinSuccessor fst].
      rewrite wrap64_small by lia.
      apply negb_true_iff, Z.leb_gt; lia.
  - rewrite replayEntry_lookup by exact W.
    destruct e as [o | t | s]; [| | exact S].
    + destruct (Key_eqb (ObjectTombstone.getKey t') (Object.getKey o)) eqn:K;
        [| exact S].
      apply Key_eqb_eq in K; rewrite K in S |- *; cbn [andb].
      destruct (Z.leb_spec
                  (fst (objectMinSuccessor (lookup om (Object.getKey o))))
                  (Object.version o)); [| exact S].
      apply negb_true_iff, Z.leb_gt in S.
      pose proof (minSuccessor_floors _ (R (Object.getKey o))) as F.
      cbv zeta in F.
      cbn [tombstoneMinSuccessor fst]; unfold Object.getVersion.
      apply negb_true_iff, Z.leb_gt; lia.
    + destruct (Key_eqb (ObjectTombstone.getKey t')
                  (ObjectTombstone.getKey t)) eqn:K; [| exact S].
      apply Key_eqb_eq in K; rewrite K in S |- *; cbn [andb].
      destruct (Z.leb_spec
                  (fst (tombstoneMinSuccessor
                          (lookup om (ObjectTombstone.getKey t))))
                  (ObjectTombstone.getObjectVersion t)); [| exact S].
      apply negb_true_iff, Z.leb_gt in S.
      apply entryInRange_version in E.
      cbn [tombstoneMinSuccessor fst].
      rewrite wrap64_small by lia.
      apply negb_true_iff, Z.leb_gt; lia.
Qed.

Lemma replay_stale_self (om : ObjectManager) (e : LogEntry) :
  wellFormed om = true ->
  lookupsInRange om ->
  entryInRange e = true ->
  stale (replayEntry om e) e = true.
Proof.
  intros W R E.
  destruct e as [o | t | s]; cbn [stale].
  3:{ rewrite replayEntry_safeVersion; apply Z.leb_le; lia. }
  - rewrite replayEntry_lookup by exact W.
    rewrite Key_eqb_refl; cbn [andb].
    destruct (Z.leb_spec
                (fst (objectMinSuccessor (lookup om (Object.getKey o))))
                (Object.version o)) as [Le | Gt].
    + apply entryInRange_version in E.
      cbn [objectMinSuccessor fst]; unfold Object.getVersion.
      rewrite wrap64_small by lia.
      apply negb_true_iff, Z.leb_gt; lia.
    + apply negb_true_iff, Z.leb_gt; exact Gt.
  - rewrite replayEntry_lookup by exact W.
    rewrite Key_eqb_refl; cbn [andb].
    destruct (Z.leb_spec
                (fst (tombstoneMinSuccessor
                        (lookup om (ObjectTombstone.getKey t))))
                (ObjectTombstone.getObjectVersion t)) as [Le | Gt].
    + apply entryInRange_version in E.
      cbn [tombstoneMinSuccessor fst].
      rewrite wrap64_small by lia.
      apply negb_true_iff, Z.leb_gt; lia.
    + apply negb_true_iff, Z.leb_gt; exact Gt.
Qed.

Lemma replayLoop_covers (it : list LogEntry) (om : ObjectManager) :
  wellFormed om = true ->
  lookupsInRange om ->
  forallb entryInRange it = true ->
  wellFormed (replayLoop om it) = true
  /\ lookupsInRange (replayLoop om it)
  /\ (forall e', stale om e' = true -> stale (replayLoop om it) e' = true)
  /\ (forall e, In e it -> stale (replayLoop om it) e = true).
Proof.
  revert om; induction it as [| e rest IH]; intros om W R E;
    cbn [replayLoop].
  - split; [| split; [| split]]; auto; intros e [].
  - cbn [forallb] in E; apply andb_true_iff in E; destruct E as [E Er].
    destruct (IH (replayEntry om e) (wellFormed_replayEntry om e W)
                (replay_lookupsInRange om e W R E) Er)
      as (W' & R' & Mono & Self).
    split; [| split; [| split]]; auto.
    + intros e' S; apply Mono, replay_stale_mono; assumption.
    + intros e' [<- | I]; [| exact (Self e' I)].
      apply Mono, replay_stale_self; assumption.
Qed.

Lemma replayLoop_noop (it : list LogEntry) (om : ObjectManager) :
  wellFormed om = true ->
  lookupsInRange om ->
  forallb entryInRange it = true ->
  (forall e, In e it -> stale om e = true) ->
  (forall key, lookup (replayLoop om it) key = lookup om key)
  /\ objectMap (replayLoop om it) = objectMap om
  /\ Log.freed (log (replayLoop om it)) = Log.freed (log om)
  /\ safeVersion (replayLoop om it) = safeVersion om.
Proof.
  revert om; induction it as [| e rest IH]; intros om W R E S;
    cbn [replayLoop]; [auto |].
  cbn [forallb] in E; apply andb_true_iff in E; destruct E as [E Er].
  destruct (stale_noop om e W (S e (or_introl eq_refl)))
    as (L0 & M0 & F0 & S0).
  assert (S' : forall e', In e' rest -> stale (replayEntry om e) e' = true).
  { intros e' I; apply replay_stale_mono; auto.
    apply S; right; exact I. }
  destruct (IH (replayEntry om e) (wellFormed_replayEntry om e W)
              (replay_lookupsInRange om e W R E) Er S') as (L & M & F & Sv).
  split; [intros key; rewrite L; apply L0 | split; [| split]]; congruence.
Qed.

(** X15.  On a well-formed index whose versions, like those of the
    segment, are below 2^64 - 1: replaying a segment a second time changes
    nothing in the index.  Every key is found as after the first replay, the
    hash table is the same, no reference is freed and the version floor
    stays. *)
Theorem replaySegment_again (it : list LogEntry) (om : ObjectManager) :
  wellFormed om = true ->
  indexInRange om = true ->
  forallb entryInRange it = true ->
  let om1 := completionState (replaySegment om it) in
  let om2 := completionState (replaySegment om1 it) in
  (forall key, lookup om2 key = lookup om1 key)
  /\ objectMap om2 = objectMap om1
  /\ Log.freed (log om2) = Log.freed (log om1)
  /\ safeVersion om2 = safeVersion om1.
Proof.
  intros W R E om1 om2; subst om2 om1; rewrite !replaySegment_state.
  destruct (replayLoop_covers it om W (indexInRange_lookups om R) E)
    as (W1 & R1 & _ & S1).
  set (om1 := replayLoop om it) in *.
  assert (D : forall x,
             (forall k, lookup (DelayedIncrementer_destroy x) k = lookup x k)
             /\ wellFormed (DelayedIncrementer_destroy x) = wellFormed x
             /\ (forall e, stale (DelayedIncrementer_destroy x) e = stale x e))
    by (intros x; repeat split; intros; reflexivity).
  destruct (D om1) as (Dl & Dw & Ds).
  assert (N : (forall key,
                 lookup (replayLoop (DelayedIncrementer_destroy om1) it) key
                 = lookup (DelayedIncrementer_destroy om1) key)
              /\ objectMap (replayLoop (DelayedIncrementer_destroy om1) it)
                 = objectMap (DelayedIncrementer_destroy om1)
              /\ Log.freed (log (replayLoop (DelayedIncrementer_destroy om1)
                                   it))
                 = Log.freed (log (DelayedIncrementer_destroy om1))
              /\ safeVersion (replayLoop (DelayedIncrementer_destroy om1) it)
                 = safeVersion (DelayedIncrementer_destroy om1)).
  { apply replayLoop_noop.
    - rewrite Dw; exact W1.
    - intros key; rewrite Dl; apply R1.
    - exact E.
    - intros e I; rewrite Ds; exact (S1 e I). }
  exact N.
Qed.

(** ** Sweeping the hash table *)

Lemma sameExceptIndex_refl (om : ObjectManager) : sameExceptIndex om om.
Proof. repeat split. Qed.

Lemma sameExceptIndex_trans (a b c : ObjectManager) :
  sameExceptIndex a b -> sameExceptIndex b c -> sameExceptIndex a c.
Proof.
  unfold sameExceptIndex; intros (A1 & A2 & A3 & A4 & A5 & A6 & A7 & A8)
    (B1 & B2 & B3 & B4 & B5 & B6 & B7 & B8).
  repeat split; congruence.
Qed.

Lemma foundAt_entryOf (r : Reference) (e : LogEntry) (key : Key) :
  entryKey e = Some key ->
  entryOf (foundAt r e) = Some e /\ foundAt r e <> NotFound
  /\ forall r' e', foundAt r' e' = foundAt r e -> r' = r.
Proof.
  destruct e as [o | t | s]; cbn [entryKey foundAt entryOf];
    [| | discriminate]; intros _; repeat split; try discriminate;
    intros r' [o' | t' | s']; cbn [foundAt]; congruence.
Qed.

Section Sweep.
Variable callback : Reference -> ObjectManager -> Exec ObjectManager.
Variable drop : TabletManager.t -> LogEntry -> bool.
Variable frees : bool.

Hypothesis callback_keeps :
  forall om r, dropped drop om r = false -> callback r om = Done om.

Hypothesis callback_drops :
  forall om r e key,
    wellFormed om = true ->
    Log.getEntry (log om) r = Some e ->
    entryKey e = Some key ->
    lookup om key = foundAt r e ->
    drop (tabletManager om) e = true ->
    exists om1, callback r om = Done om1 /\ sweptOut frees om om1 key r.

Hypothesis drop_keyed :
  forall tm e, drop tm e = true -> entryKey e <> None.

Lemma swept_same (om om1 : ObjectManager) (key : Key) :
  lookup om1 key = lookup om key ->
  tabletManager om1 = tabletManager om ->
  swept drop om1 key = swept drop om key.
Proof. unfold swept; intros -> ->; reflexivity. Qed.

Lemma visits_same (l l1 : Log.t) (references : list Reference) (key : Key) :
  Log.memory l1 = Log.memory l ->
  visits l1 references key = visits l references key.
Proof.
  intros M; unfold visits, keyAt, Log.getEntry; rewrite M; reflexivity.
Qed.

Lemma dropped_same (om om1 : ObjectManager) (r : Reference) :
  sameExceptIndex om om1 -> dropped drop om1 r = dropped drop om r.
Proof.
  intros (M & _ & T & _); unfold dropped, Log.getEntry; rewrite M, T.
  reflexivity.
Qed.

Lemma forEach_sweeps (references : list Reference) :
  forall om,
    wellFormed om = true ->
    NoDup references ->
    visitable om references ->
    exists om' gone,
      forEach callback references om = Done om'
      /\ wellFormed om' = true
      /\ sameExceptIndex om om'
      /\ Log.freed (log om')
         = Log.freed (log om)
           ++ (if frees then map (pair MAIN_LOG) gone else [])
      /\ (forall r, In r gone <-> In r references /\ dropped drop om r = true)
      /\ forall key,
           lookup om' key
           = if visits (log om) references key
             then swept drop om key else lookup om key.
Proof.
  induction references as [| r rest IH]; intros om W ND V.
  - exists om, []; cbn [forEach visits existsb map].
    split; [reflexivity | split; [exact W | split;
      [apply sameExceptIndex_refl | split; [| split]]]].
    + destruct frees; rewrite app_nil_r; reflexivity.
    + intros r; cbn [In]; tauto.
    + reflexivity.
  - inversion ND as [| ? ? NI ND']; subst.
    assert (V' : visitable om rest)
      by (intros r' e' k' I; apply V; right; exact I).
    cbn [forEach].
    destruct (dropped drop om r) eqn:D.
    + (* the callback removes the entry at r *)
      unfold dropped in D.
      destruct (Log.getEntry (log om) r) as [e |] eqn:G; [| discriminate].
      destruct (entryKey e) as [key0 |] eqn:K;
        [| elim (drop_keyed _ _ D); exact K].
      pose proof (V r e key0 (or_introl eq_refl) G K) as L.
      destruct (callback_drops om r e key0 W G K L D)
        as (om1 & C & Gone & Other & W1 & Same & Freed).
      destruct (foundAt_entryOf r e key0 K) as (EO & NN & Inj).
      assert (Mem : Log.memory (log om1) = Log.memory (log om))
        by exact (proj1 Same).
      assert (V1 : visitable om1 rest).
      { intros r' e' k' I G' K'.
        assert (G0 : Log.getEntry (log om) r' = Some e')
          by (unfold Log.getEntry in *; rewrite <- Mem; exact G').
        pose proof (V' r' e' k' I G0 K') as L'.
        destruct (Key_eqb k' key0) eqn:E.
        - apply Key_eqb_eq in E; subst k'.
          rewrite L in L'; symmetry in L'.
          apply Inj in L'; subst r'; contradiction.
        - rewrite Other by (apply Key_eqb_neq; exact E); exact L'. }
      destruct (IH om1 W1 ND' V1)
        as (om' & gone & F & W' & Same' & Freed' & In' & L').
      exists om', (r :: gone).
      rewrite C; cbn [bind].
      split; [exact F | split; [exact W' | split]];
        [exact (sameExceptIndex_trans _ _ _ Same Same') | split; [| split]].
      * rewrite Freed', Freed; destruct frees; cbn [map];
          rewrite <- ?app_assoc; reflexivity.
      * intros r'; cbn [In]; rewrite In', (dropped_same om om1 r' Same).
        split.
        -- intros [<- | [I Dr]]; [| auto].
           split; [left; reflexivity |].
           unfold dropped; rewrite G; exact D.
        -- intros [[<- | I] Dr]; auto.
      * intros key; rewrite L', (visits_same _ _ _ _ Mem).
        cbn [visits existsb]; unfold keyAt at 1; rewrite G, K.
        fold (visits (log om) rest key).
        destruct (Key_eqb key key0) eqn:E; cbn [orb].
        -- apply Key_eqb_eq in E; subst key.
           assert (S0 : swept drop om key0 = NotFound)
             by (unfold swept; rewrite L, EO, D; reflexivity).
           assert (S1 : swept drop om1 key0 = NotFound)
             by (unfold swept; rewrite Gone; reflexivity).
           rewrite S0, S1, Gone; destruct (visits _ _ _); reflexivity.
        -- apply Key_eqb_neq in E.
           rewrite (swept_same om om1 key (Other key E)
                      (proj1 (proj2 (proj2 Same)))).
           rewrite (Other key E); reflexivity.
    + (* the callback leaves the entry at r *)
      rewrite (callback_keeps om r D); cbn [bind].
      destruct (IH om W ND' V')
        as (om' & gone & F & W' & Same' & Freed' & In' & L').
      exists om', gone.
      split; [exact F | split; [exact W' | split; [exact Same' |
        split; [exact Freed' | split]]]].
      * intros r'; cbn [In]; rewrite In'.
        split; [intros [I Dr]; auto |].
        intros [[<- | I] Dr]; [congruence | auto].
      * intros key; rewrite L'.
        cbn [visits existsb]; fold (visits (log om) rest key).
        unfold keyAt at 1.
        destruct (Log.getEntry (log om) r) as [e |] eqn:G;
          [| reflexivity].
        destruct (entryKey e) as [key0 |] eqn:K; [| reflexivity].
        destruct (Key_eqb key key0) eqn:E; cbn [orb]; [| reflexivity].
        apply Key_eqb_eq in E; subst key.
        pose proof (V r e key0 (or_introl eq_refl) G K) as L.
        destruct (foundAt_entryOf r e key0 K) as (EO & _).
        assert (S0 : swept drop om key0 = lookup om key0).
        { unfold swept; rewrite L, EO.
          unfold dropped in D; rewrite G in D; rewrite D; reflexivity. }
        rewrite S0; destruct (visits _ _ _); reflexivity.
Qed.

Lemma wellPlaced_NoDup (l : Log.t) (h : HashTable.t)
  (slots : list (Z * Reference)) :
  forallb (slotWellPlaced l h) slots = true ->
  noDuplicateKey (indexedKeys l slots) = true ->
  NoDup (map snd slots).
Proof.
  induction slots as [| c rest IH]; intros P ND; [constructor |].
  cbn [forallb] in P; apply andb_true_iff in P; destruct P as [Pc Pr].
  pose proof (noDuplicateKey_tail l c rest ND) as NDr.
  rewrite indexedKeys_cons in ND.
  unfold slotWellPlaced in Pc.
  destruct (slotKey l c) as [k |] eqn:K; [| discriminate].
  cbn [noDuplicateKey] in ND; apply andb_true_iff in ND.
  destruct ND as [Fresh _]; apply negb_true_iff in Fresh.
  cbn [map]; constructor; [| exact (IH Pr NDr)].
  intros I; apply in_map_iff in I; destruct I as (slot & E & I).
  assert (K' : slotKey l slot = Some k)
    by (unfold slotKey in *; rewrite E; exact K).
  rewrite (indexedKeys_member l rest slot k I K') in Fresh; discriminate.
Qed.

(** The references that forEachInBucket visits are distinct when the
    slots of the table are. *)
Lemma inBucket_NoDup (h : HashTable.t) (i : Z) :
  NoDup (map snd (HashTable.slots h)) -> NoDup (HashTable.inBucket h i).
Proof.
  unfold HashTable.inBucket.
  induction (HashTable.slots h) as [| slot rest IH]; intros Distinct;
    [constructor |].
  inversion Distinct as [| ? ? Fresh Distinct']; subst.
  cbn [filter]; destruct (fst slot =? i); [| exact (IH Distinct')].
  cbn [map]; constructor; [| exact (IH Distinct')].
  intros Visited; apply Fresh.
  apply in_map_iff in Visited; destruct Visited as (slot' & E & I).
  apply filter_In in I; apply in_map_iff; exists slot'; tauto.
Qed.

Lemma inBucket_slot (h : HashTable.t) (i : Z) (r : Reference) :
  In r (HashTable.inBucket h i) <-> In (i, r) (HashTable.slots h).
Proof.
  unfold HashTable.inBucket; rewrite in_map_iff; split.
  - intros ([b r'] & E & I); apply filter_In in I; destruct I as [I B].
    cbn [fst snd] in *; apply Z.eqb_eq in B; subst; exact I.
  - intros I; exists (i, r); split; [reflexivity |].
    apply filter_In; split; [exact I | apply Z.eqb_refl].
Qed.

Lemma slot_bucket (om : ObjectManager) (i : Z) (r : Reference)
  (e : LogEntry) (key : Key) :
  wellFormed om = true ->
  In (i, r) (HashTable.slots (objectMap om)) ->
  Log.getEntry (log om) r = Some e ->
  entryKey e = Some key ->
  i = HashTable.bucketOf (objectMap om) key.
Proof.
  intros W I G K.
  destruct (wellFormed_slots om W) as [P _].
  rewrite forallb_forall in P; specialize (P _ I).
  unfold slotWellPlaced in P.
  rewrite (slotKey_hit (log om) i r e key G K) in P.
  apply Z.eqb_eq in P; exact P.
Qed.

Lemma lookup_slot_of (om : ObjectManager) (key : Key) :
  lookup om key = NotFound
  \/ exists r e,
       In (HashTable.bucketOf (objectMap om) key, r)
         (HashTable.slots (objectMap om))
       /\ Log.getEntry (log om) r = Some e
       /\ entryKey e = Some key
       /\ lookup om key = foundAt r e.
Proof.
  unfold lookup.
  destruct (lookupIn_slot_of (log om) (objectMap om) key
              (HashTable.slots (objectMap om)))
    as [N | ([b r] & e & I & G & B & K & L)]; [left; exact N |].
  cbn [fst snd] in *; subst b.
  right; exists r, e; auto.
Qed.

(** One bucket swept. *)
Lemma bucket_sweeps (i : Z) (om : ObjectManager) :
  wellFormed om = true ->
  exists om' gone,
    forEach callback (HashTable.inBucket (objectMap om) i) om = Done om'
    /\ wellFormed om' = true
    /\ sameExceptIndex om om'
    /\ Log.freed (log om')
       = Log.freed (log om)
         ++ (if frees then map (pair MAIN_LOG) gone else [])
    /\ (forall r,
          In r gone
          <-> exists e key,
                Log.getEntry (log om) r = Some e
                /\ entryKey e = Some key
                /\ lookup om key = foundAt r e
                /\ drop (tabletManager om) e = true
                /\ HashTable.bucketOf (objectMap om) key = i)
    /\ forall key,
         lookup om' key
         = if HashTable.bucketOf (objectMap om) key =? i
           then swept drop om key else lookup om key.
Proof.
  intros W.
  destruct (wellFormed_slots om W) as [P ND].
  assert (V : visitable om (HashTable.inBucket (objectMap om) i))
    by (intros r e key I G K; exact (visited_is_indexed om i r e key W I G K)).
  destruct (forEach_sweeps (HashTable.inBucket (objectMap om) i) om W
              (inBucket_NoDup _ i (wellPlaced_NoDup _ _ _ P ND)) V)
    as (om' & gone & F & W' & Same & Freed & In' & L).
  exists om', gone.
  split; [exact F | split; [exact W' | split; [exact Same |
    split; [exact Freed | split]]]].
  - intros r; rewrite In'; unfold dropped; split.
    + intros [I D].
      destruct (Log.getEntry (log om) r) as [e |] eqn:G; [| discriminate].
      destruct (entryKey e) as [key |] eqn:K;
        [| elim (drop_keyed _ _ D); exact K].
      exists e, key; repeat split; auto.
      symmetry; apply (slot_bucket om i r e key W); auto.
      apply inBucket_slot; exact I.
    + intros (e & key & G & K & Lk & D & B).
      rewrite G; split; [| exact D].
      destruct (lookup_slot_of om key) as [N | (r' & e' & I & G' & K' & L')].
      * destruct (foundAt_entryOf r e key K) as (_ & NN & _); congruence.
      * destruct (foundAt_entryOf r e key K) as (_ & _ & Inj).
        rewrite Lk in L'; symmetry in L'; apply Inj in L'; subst r'.
        apply inBucket_slot; rewrite <- B; exact I.
  - intros key; rewrite L.
    destruct (visits (log om) (HashTable.inBucket (objectMap om) i) key)
      eqn:Vs.
    + unfold visits in Vs; apply existsb_exists in Vs.
      destruct Vs as (r & I & Kr); unfold keyAt in Kr.
      destruct (Log.getEntry (log om) r) as [e |] eqn:G; [| discriminate].
      destruct (entryKey e) as [k |] eqn:K; [| discriminate].
      apply Key_eqb_eq in Kr; subst k.
      apply inBucket_slot in I.
      rewrite <- (slot_bucket om i r e key W I G K), Z.eqb_refl.
      reflexivity.
    + destruct (Z.eqb_spec (HashTable.bucketOf (objectMap om) key) i)
        as [B |]; [| reflexivity].
      destruct (lookup_slot_of om key) as [N | (r & e & I & G & K & Lk)].
      * unfold swept; rewrite N; reflexivity.
      * exfalso.
        assert (Vt : visits (log om) (HashTable.inBucket (objectMap om) i)
                       key = true).
        { unfold visits; apply existsb_exists; exists r; split.
          - apply inBucket_slot; rewrite <- B; exact I.
          - unfold keyAt; rewrite G, K; apply Key_eqb_refl. }
        congruence.
Qed.

(** The buckets [i], ..., [i + n - 1] swept. *)
Lemma forBuckets_sweeps (n : nat) :
  forall (i : Z) (om : ObjectManager),
    wellFormed om = true ->
    0 <= i ->
    i + Z.of_nat n <= UINT64_MAX ->
    exists om' gone,
      forBuckets
        (fun i om => forEach callback (HashTable.inBucket (objectMap om) i) om)
        i n om = Done om'
      /\ wellFormed om' = true
      /\ sameExceptIndex om om'
      /\ Log.freed (log om')
         = Log.freed (log om)
           ++ (if frees then map (pair MAIN_LOG) gone else [])
      /\ (forall r,
            In r gone
            <-> exists e key,
                  Log.getEntry (log om) r = Some e
                  /\ entryKey e = Some key
                  /\ lookup om key = foundAt r e
                  /\ drop (tabletManager om) e = true
                  /\ i <= HashTable.bucketOf (objectMap om) key
                     < i + Z.of_nat n)
      /\ forall key,
           lookup om' key
           = if (i <=? HashTable.bucketOf (objectMap om) key)
                && (HashTable.bucketOf (objectMap om) key <? i + Z.of_nat n)
             then swept drop om key else lookup om key.
Proof.
  induction n as [| n IH]; intros i om W I0 Bound.
  - exists om, []; cbn [forBuckets].
    split; [reflexivity | split; [exact W | split;
      [apply sameExceptIndex_refl | split; [| split]]]].
    + destruct frees; rewrite app_nil_r; reflexivity.
    + intros r; cbn [In]; split; [tauto |].
      intros (e & key & _ & _ & _ & _ & B); lia.
    + intros key.
      destruct (Z.leb_spec i (HashTable.bucketOf (objectMap om) key));
        destruct (Z.ltb_spec (HashTable.bucketOf (objectMap om) key)
                    (i + Z.of_nat 0)); cbn [andb]; try reflexivity; lia.
  - cbn [forBuckets].
    destruct (bucket_sweeps i om W)
      as (om1 & gone1 & F1 & W1 & Same1 & Freed1 & In1 & L1).
    rewrite F1; cbn [bind].
    rewrite wrap64_small by (unfold UINT64_MAX in *; lia).
    destruct (IH (i + 1) om1 W1) as (om' & gone & F & W' & Same & Freed & In' & L);
      [lia | lia |].
    assert (B1 : forall key,
               HashTable.bucketOf (objectMap om1) key
               = HashTable.bucketOf (objectMap om) key)
      by (intros key; unfold HashTable.bucketOf;
          rewrite (proj2 (proj2 (proj2 (proj2 (proj2 (proj2 (proj2 Same1)))))));
          reflexivity).
    assert (M1 : forall r, Log.getEntry (log om1) r = Log.getEntry (log om) r)
      by (intros r; unfold Log.getEntry; rewrite (proj1 Same1); reflexivity).
    assert (T1 : tabletManager om1 = tabletManager om)
      by exact (proj1 (proj2 (proj2 Same1))).
    exists om', (gone1 ++ gone).
    split; [exact F | split; [exact W' | split;
      [exact (sameExceptIndex_trans _ _ _ Same1 Same) | split; [| split]]]].
    + rewrite Freed, Freed1; destruct frees;
        rewrite ?map_app, <- ?app_assoc; reflexivity.
    + intros r; rewrite in_app_iff, In1, In'; split.
      * intros [(e & key & G & K & Lk & D & B)
               | (e & key & G & K & Lk & D & B)].
        -- exists e, key; repeat split; auto; lia.
        -- rewrite B1 in B; rewrite M1 in G; rewrite T1 in D.
           rewrite L1 in Lk.
           destruct (Z.eqb_spec (HashTable.bucketOf (objectMap om) key) i);
             [lia |].
           exists e, key; repeat split; auto; lia.
      * intros (e & key & G & K & Lk & D & B).
        destruct (Z.eq_dec (HashTable.bucketOf (objectMap om) key) i)
          as [E | NE].
        -- left; exists e, key; auto 6.
        -- right; exists e, key.
           rewrite B1, M1, T1, L1.
           destruct (Z.eqb_spec (HashTable.bucketOf (objectMap om) key) i);
             [contradiction |].
           repeat split; auto; lia.
    + intros key; rewrite L, B1, L1.
      destruct (Z.eqb_spec (HashTable.bucketOf (objectMap om) key) i)
        as [E | NE].
      * rewrite E.
        destruct (Z.leb_spec (i + 1) i); [lia |]; cbn [andb].
        destruct (Z.leb_spec i i); [| lia].
        destruct (Z.ltb_spec i (i + Z.of_nat (S n))); [| lia].
        reflexivity.
      * assert (Lk : lookup om1 key = lookup om key).
        { rewrite L1.
          destruct (Z.eqb_spec (HashTable.bucketOf (objectMap om) key) i);
            [contradiction | reflexivity]. }
        rewrite (swept_same om om1 key Lk T1).
        replace ((i + 1 <=? HashTable.bucketOf (objectMap om) key)
                 && (HashTable.bucketOf (objectMap om) key
                     <? i + 1 + Z.of_nat n))
          with ((i <=? HashTable.bucketOf (objectMap om) key)
                && (HashTable.bucketOf (objectMap om) key
                    <? i + Z.of_nat (S n))); [reflexivity |].
        destruct (Z.leb_spec (i + 1) (HashTable.bucketOf (objectMap om) key));
          destruct (Z.leb_spec i (HashTable.bucketOf (objectMap om) key));
          destruct (Z.ltb_spec (HashTable.bucketOf (objectMap om) key)
                      (i + 1 + Z.of_nat n));
          destruct (Z.ltb_spec (HashTable.bucketOf (objectMap om) key)
                      (i + Z.of_nat (S n)));
          cbn [andb]; try reflexivity; lia.
Qed.

(** The whole table swept. *)
Lemma table_sweeps (om : ObjectManager) :
  wellFormed om = true ->
  0 < HashTable.numBuckets (objectMap om) <= UINT64_MAX ->
  exists om' gone,
    forBuckets
      (fun i om => forEach callback (HashTable.inBucket (objectMap om) i) om)
      0 (Z.to_nat (HashTable.getNumBuckets (objectMap om))) om = Done om'
    /\ wellFormed om' = true
    /\ sameExceptIndex om om'
    /\ Log.freed (log om')
       = Log.freed (log om)
         ++ (if frees then map (pair MAIN_LOG) gone else [])
    /\ (forall r,
          In r gone
          <-> exists e key,
                Log.getEntry (log om) r = Some e
                /\ entryKey e = Some key
                /\ lookup om key = foundAt r e
                /\ drop (tabletManager om) e = true)
    /\ forall key, lookup om' key = swept drop om key.
Proof.
  intros W N; unfold HashTable.getNumBuckets.
  assert (B : forall key,
             0 <= HashTable.bucketOf (objectMap om) key
             < 0 + Z.of_nat (Z.to_nat (HashTable.numBuckets (objectMap om)))).
  { intros key; unfold HashTable.bucketOf.
    rewrite Z2Nat.id by lia.
    pose proof (Z.mod_pos_bound (keyHash key)
                  (HashTable.numBuckets (objectMap om))); lia. }
  destruct (forBuckets_sweeps
              (Z.to_nat (HashTable.numBuckets (objectMap om))) 0 om W)
    as (om' & gone & F & W' & Same & Freed & In' & L);
    [lia | rewrite Z2Nat.id by lia; lia |].
  exists om', gone.
  split; [exact F | split; [exact W' | split; [exact Same |
    split; [exact Freed | split]]]].
  - intros r; rewrite In'; split.
    + intros (e & key & G & K & Lk & D & _); exists e, key; auto.
    + intros (e & key & G & K & Lk & D); exists e, key.
      repeat split; auto; apply B.
  - intros key; rewrite L.
    destruct (B key) as [B0 B1].
    destruct (Z.leb_spec 0 (HashTable.bucketOf (objectMap om) key)); [| lia].
    destruct (Z.ltb_spec (HashTable.bucketOf (objectMap om) key)
                (0 + Z.of_nat (Z.to_nat (HashTable.numBuckets (objectMap om)))));
      [reflexivity | lia].
Qed.

End Sweep.

(** ** The tombstone reaper over the whole table *)

Lemma forBuckets_ext (body body' : Z -> ObjectManager -> Exec ObjectManager)
  (n : nat) :
  (forall i om, body i om = body' i om) ->
  forall i om, forBuckets body i n om = forBuckets body' i n om.
Proof.
  intros E; induction n as [| n IH]; intros i om; cbn [forBuckets];
    [reflexivity |].
  rewrite E; destruct (body' i om); cbn [bind]; auto.
Qed.

Lemma forEachRemoveIfTombstone_forEach (references : list Reference)
  (om : ObjectManager) :
  forEachRemoveIfTombstone references om
  = forEach removeIfTombstone references om.
Proof.
  revert om; induction references as [| r rest IH]; intros om;
    cbn [forEachRemoveIfTombstone forEach]; [reflexivity |].
  destruct (removeIfTombstone r om); cbn [bind]; auto.
Qed.

Lemma remove_sameExceptIndex (om : ObjectManager) (key : Key) :
  sameExceptIndex om (snd (remove om key))
  /\ Log.freed (log (snd (remove om key))) = Log.freed (log om).
Proof.
  destruct (remove_fields om key) as (_ & _ & _ & N).
  rewrite remove_setObjectMap in *.
  unfold sameExceptIndex; cbn [log tabletManager safeVersion anyWrites
    replaySegmentReturnCount tombstoneRemover setObjectMap objectMap] in *.
  repeat split; exact N.
Qed.

Lemma removeIfTombstone_keeps (om : ObjectManager) (r : Reference) :
  dropped dropsTombstone om r = false -> removeIfTombstone r om = Done om.
Proof.
  unfold dropped, dropsTombstone, discardable, removeIfTombstone.
  destruct (Log.getEntry (log om) r) as [[o | t | s] |]; try reflexivity.
  intros ->; reflexivity.
Qed.

Lemma removeIfTombstone_drops (om : ObjectManager) (r : Reference)
  (e : LogEntry) (key : Key) :
  wellFormed om = true ->
  Log.getEntry (log om) r = Some e ->
  entryKey e = Some key ->
  lookup om key = foundAt r e ->
  dropsTombstone (tabletManager om) e = true ->
  exists om1,
    removeIfTombstone r om = Done om1
    /\ sweptOut false om om1 key r.
Proof.
  intros W G K L D.
  destruct e as [o | t | s]; cbn [dropsTombstone] in D; try discriminate.
  cbn [entryKey] in K; injection K as K.
  unfold removeIfTombstone; rewrite G.
  unfold discardable in D; rewrite D; cbv zeta.
  rewrite K.
  destruct (discard_indexed_tombstone om key) as (E & Gone & Other & _).
  { rewrite L; discriminate. }
  { exact (wellFormed_indexInvariant om W). }
  exists (snd (remove om key)); split; [exact E |].
  destruct (remove_sameExceptIndex om key) as [Same Freed].
  unfold sweptOut; rewrite Freed, app_nil_r.
  repeat split; auto using wellFormed_remove; apply Same.
Qed.

Lemma dropsTombstone_keyed (tm : TabletManager.t) (e : LogEntry) :
  dropsTombstone tm e = true -> entryKey e <> None.
Proof. destruct e; cbn; congruence. Qed.

Lemma log_eq (l l' : Log.t) :
  Log.memory l' = Log.memory l ->
  Log.freed l' = Log.freed l ->
  Log.syncCount l' = Log.syncCount l ->
  l' = l.
Proof. destruct l, l'; simpl; congruence. Qed.

(** X16.  removeTombstones on a well-formed index with at least one
    bucket: the call completes (no assertion fails), and afterwards the
    index holds no tombstone whose tablet is missing or not RECOVERING;
    objects, and tombstones of RECOVERING tablets, are found as before; the
    log (nothing is freed) and the tablet registry are untouched, and the
    index is still well formed. *)
Theorem removeTombstones_purges (om : ObjectManager) :
  wellFormed om = true ->
  0 < HashTable.numBuckets (objectMap om) <= UINT64_MAX ->
  exists om',
    removeTombstones om = Done om'
    /\ (forall key,
          lookup om' key
          = match lookup om key with
            | FoundTombstone r t =>
                if discardable (tabletManager om) key
                then NotFound else FoundTombstone r t
            | found => found
            end)
    /\ log om' = log om
    /\ tabletManager om' = tabletManager om
    /\ wellFormed om' = true.
Proof.
  intros W N.
  destruct (table_sweeps removeIfTombstone dropsTombstone false
              removeIfTombstone_keeps removeIfTombstone_drops
              dropsTombstone_keyed om W N)
    as (om' & gone & F & W' & Same & Freed & _ & L).
  exists om'; split; [| split; [| split; [| split]]].
  - unfold removeTombstones; rewrite <- F.
    apply forBuckets_ext; intros i x.
    apply forEachRemoveIfTombstone_forEach.
  - intros key; rewrite L; unfold swept.
    pose proof (lookup_resolves om key) as R.
    destruct (lookup om key) as [r o | r t |]; cbn [entryOf dropsTombstone];
      try reflexivity.
    rewrite (proj2 R); reflexivity.
  - rewrite app_nil_r in Freed.
    destruct Same as (M & Sy & _); apply log_eq; assumption.
  - exact (proj1 (proj2 (proj2 Same))).
  - exact W'.
Qed.

(** ** Orphaned objects *)

Lemma forEachRemoveIfOrphanedObject_forEach (references : list Reference)
  (om : ObjectManager) :
  forEachRemoveIfOrphanedObject references om
  = forEach removeIfOrphanedObject references om.
Proof.
  revert om; induction references as [| r rest IH]; intros om;
    cbn [forEachRemoveIfOrphanedObject forEach]; [reflexivity |].
  destruct (removeIfOrphanedObject r om); cbn [bind]; auto.
Qed.

Lemma removeIfOrphanedObject_keeps (om : ObjectManager) (r : Reference) :
  dropped dropsOrphan om r = false -> removeIfOrphanedObject r om = Done om.
Proof.
  unfold dropped, dropsOrphan, removeIfOrphanedObject.
  destruct (Log.getEntry (log om) r) as [[o | t | s] |]; try reflexivity.
  cbv zeta.
  destruct (TabletManager.getTablet (tabletManager om) (Object.getKey o));
    [reflexivity | discriminate].
Qed.

Lemma removeIfOrphanedObject_drops (om : ObjectManager) (r : Reference)
  (e : LogEntry) (key : Key) :
  wellFormed om = true ->
  Log.getEntry (log om) r = Some e ->
  entryKey e = Some key ->
  lookup om key = foundAt r e ->
  dropsOrphan (tabletManager om) e = true ->
  exists om1,
    removeIfOrphanedObject r om = Done om1
    /\ sweptOut true om om1 key r.
Proof.
  intros W G K L D.
  destruct e as [o | t | s]; cbn [dropsOrphan] in D; try discriminate.
  cbn [entryKey] in K; injection K as K.
  unfold removeIfOrphanedObject; rewrite G; cbv zeta.
  destruct (TabletManager.getTablet (tabletManager om) (Object.getKey o));
    [discriminate |].
  rewrite K.
  assert (F : fst (remove om key) = true)
    by (apply remove_found; rewrite L; discriminate).
  destruct (remove_sameExceptIndex om key) as [Same Freed].
  pose proof (wellFormed_remove om key W) as W1.
  pose proof (lookup_remove om key (proj2 (wellFormed_slots om W))) as Gone.
  pose proof (lookup_remove_other om key) as Other.
  destruct (remove om key) as [b om']; cbn [fst snd] in *; subst b.
  cbn [assert bind].
  eexists; split; [reflexivity |].
  unfold sweptOut; cbn [log setLog Log.free Log.freed].
  split; [| split; [| split; [| split]]].
  - rewrite <- Gone; apply lookup_same_index; reflexivity.
  - intros key' NE; rewrite <- (Other key' NE).
    apply lookup_same_index; reflexivity.
  - rewrite <- W1; apply wellFormed_same; reflexivity.
  - exact Same.
  - rewrite Freed; reflexivity.
Qed.

Lemma dropsOrphan_keyed (tm : TabletManager.t) (e : LogEntry) :
  dropsOrphan tm e = true -> entryKey e <> None.
Proof. destruct e; cbn; congruence. Qed.

(** X17.  removeOrphanedObjects on a well-formed index with at least one
    bucket: the call completes; afterwards the index holds no object whose
    tablet is missing from the registry, and the references freed in the
    main log are exactly those of these objects; tombstones, and objects of
    tablets in the registry, are found as before, and nothing is appended to
    the log. *)
Theorem removeOrphanedObjects_purges (om : ObjectManager) :
  wellFormed om = true ->
  0 < HashTable.numBuckets (objectMap om) <= UINT64_MAX ->
  exists (om' : ObjectManager) (gone : list Reference),
    removeOrphanedObjects om = Done om'
    /\ (forall key,
          lookup om' key
          = match lookup om key with
            | FoundObject r o =>
                match TabletManager.getTablet (tabletManager om) key with
                | None => NotFound
                | Some _ => FoundObject r o
                end
            | found => found
            end)
    /\ Log.memory (log om') = Log.memory (log om)
    /\ Log.freed (log om') = Log.freed (log om) ++ map (pair MAIN_LOG) gone
    /\ (forall r,
          In r gone
          <-> exists o : Object.t,
                lookup om (Object.getKey o) = FoundObject r o
                /\ TabletManager.getTablet (tabletManager om)
                     (Object.getKey o) = None)
    /\ tabletManager om' = tabletManager om
    /\ wellFormed om' = true.
Proof.
  intros W N.
  destruct (table_sweeps removeIfOrphanedObject dropsOrphan true
              removeIfOrphanedObject_keeps removeIfOrphanedObject_drops
              dropsOrphan_keyed om W N)
    as (om' & gone & F & W' & Same & Freed & In' & L).
  exists om', gone; split; [| split; [| split; [| split; [| split;
    [| split]]]]].
  - unfold removeOrphanedObjects; rewrite <- F.
    apply forBuckets_ext; intros i x.
    apply forEachRemoveIfOrphanedObject_forEach.
  - intros key; rewrite L; unfold swept.
    pose proof (lookup_resolves om key) as R.
    destruct (lookup om key) as [r o | r t |]; cbn [entryOf dropsOrphan];
      try reflexivity.
    rewrite (proj2 R).
    destruct (TabletManager.getTablet (tabletManager om) key); reflexivity.
  - exact (proj1 Same).
  - exact Freed.
  - intros r; rewrite In'; split.
    + intros (e & key & G & K & Lk & D).
      destruct e as [o | t | s]; cbn [dropsOrphan] in D; try discriminate.
      cbn [entryKey] in K; injection K as K.
      exists o; rewrite K; split; [exact Lk |].
      rewrite K in D.
      destruct (TabletManager.getTablet (tabletManager om) key);
        [discriminate | reflexivity].
    + intros (o & Lk & T).
      pose proof (lookup_resolves om (Object.getKey o)) as R.
      rewrite Lk in R; destruct R as [G _].
      exists (EntryObject o), (Object.getKey o).
      cbn [entryKey foundAt dropsOrphan]; rewrite T; auto.
  - exact (proj1 (proj2 (proj2 Same))).
  - exact W'.
Qed.

(** ** The background reaper *)

Lemma bind_Done {A : Type} (m : Exec A) : (x <- m ;; Done x) = m.
Proof. destruct m; reflexivity. Qed.

Lemma bind_assoc {A B C : Type} (m : Exec A) (f : A -> Exec B)
  (g : B -> Exec C) :
  (y <- (x <- m ;; f x) ;; g y) = (x <- m ;; y <- f x ;; g y).
Proof. destruct m; reflexivity. Qed.

Lemma bind_ext {A B : Type} (m : Exec A) (f g : A -> Exec B) :
  (forall a, m = Done a -> f a = g a) ->
  (x <- m ;; f x) = (x <- m ;; g x).
Proof. destruct m; cbn [bind]; auto. Qed.

Lemma removeIfTombstone_setTombstoneRemover (p : RemoveTombstonePoller)
  (r : Reference) (om : ObjectManager) :
  removeIfTombstone r (setTombstoneRemover p om)
  = om' <- removeIfTombstone r om ;; Done (setTombstoneRemover p om').
Proof.
  unfold removeIfTombstone; cbn [log tabletManager setTombstoneRemover].
  destruct (Log.getEntry (log om) r) as [[o | t | s] |]; try reflexivity.
  cbv zeta.
  destruct (match TabletManager.getTablet (tabletManager om)
                    (ObjectTombstone.getKey t) with
            | Some tablet => _
            | None => true
            end); [| reflexivity].
  unfold remove; cbn [log objectMap setTombstoneRemover].
  destruct (removeIn _ _ _ _) as [[|] slots']; reflexivity.
Qed.

Lemma forEachRemoveIfTombstone_setTombstoneRemover (p : RemoveTombstonePoller)
  (references : list Reference) (om : ObjectManager) :
  forEachRemoveIfTombstone references (setTombstoneRemover p om)
  = om' <- forEachRemoveIfTombstone references om ;;
    Done (setTombstoneRemover p om').
Proof.
  revert om; induction references as [| r rest IH]; intros om;
    cbn [forEachRemoveIfTombstone]; [reflexivity |].
  rewrite removeIfTombstone_setTombstoneRemover, !bind_assoc.
  apply bind_ext; intros om1 _; cbn [bind]; apply IH.
Qed.

Lemma reapBuckets_setTombstoneRemover (p : RemoveTombstonePoller) (n : nat) :
  forall (i : Z) (om : ObjectManager),
    forBuckets reapBucket i n (setTombstoneRemover p om)
    = om' <- forBuckets reapBucket i n om ;;
      Done (setTombstoneRemover p om').
Proof.
  induction n as [| n IH]; intros i om; cbn [forBuckets]; [reflexivity |].
  unfold reapBucket at 1 3; cbn [objectMap setTombstoneRemover].
  rewrite forEachRemoveIfTombstone_setTombstoneRemover, !bind_assoc.
  apply bind_ext; intros om1 _; cbn [bind]; apply IH.
Qed.

(** The reaper changes the hash table and nothing else, and keeps the
    number of buckets. *)
Lemma removeIfTombstone_frame (r : Reference) (om om' : ObjectManager) :
  removeIfTombstone r om = Done om' ->
  om' = setObjectMap (objectMap om') om
  /\ HashTable.numBuckets (objectMap om')
     = HashTable.numBuckets (objectMap om).
Proof.
  unfold removeIfTombstone.
  assert (Id : forall x, x = setObjectMap (objectMap x) x)
    by (intros []; reflexivity).
  destruct (Log.getEntry (log om) r) as [[o | t | s] |];
    try (intros E; injection E as <-; auto).
  cbv zeta.
  destruct (match TabletManager.getTablet (tabletManager om)
                    (ObjectTombstone.getKey t) with
            | Some tablet => _
            | None => true
            end); [| intros E; injection E as <-; auto].
  destruct (remove_fields om (ObjectTombstone.getKey t)) as (_ & _ & _ & N).
  pose proof (remove_setObjectMap om (ObjectTombstone.getKey t)) as S.
  destruct (remove om (ObjectTombstone.getKey t)) as [[|] om1];
    cbn [assert bind snd] in *; [| discriminate].
  intros E; injection E as <-; auto.
Qed.

Lemma forEachRemoveIfTombstone_frame (references : list Reference) :
  forall om om',
    forEachRemoveIfTombstone references om = Done om' ->
    om' = setObjectMap (objectMap om') om
    /\ HashTable.numBuckets (objectMap om')
       = HashTable.numBuckets (objectMap om).
Proof.
  induction references as [| r rest IH]; intros om om';
    cbn [forEachRemoveIfTombstone].
  - intros E; injection E as <-; destruct om; auto.
  - destruct (removeIfTombstone r om) as [om1 | |] eqn:R; [| discriminate ..].
    cbn [bind]; intros F.
    destruct (removeIfTombstone_frame r om om1 R) as [E1 N1].
    destruct (IH om1 om' F) as [E N].
    split; [| congruence].
    rewrite E, E1; reflexivity.
Qed.

Lemma reapBuckets_frame (n : nat) :
  forall i om om',
    forBuckets reapBucket i n om = Done om' ->
    om' = setObjectMap (objectMap om') om
    /\ HashTable.numBuckets (objectMap om')
       = HashTable.numBuckets (objectMap om).
Proof.
  induction n as [| n IH]; intros i om om'; cbn [forBuckets].
  - intros E; injection E as <-; destruct om; auto.
  - destruct (reapBucket i om) as [om1 | |] eqn:R; [| discriminate ..].
    cbn [bind]; intros F.
    destruct (forEachRemoveIfTombstone_frame _ om om1 R) as [E1 N1].
    destruct (IH _ om1 om' F) as [E N].
    split; [| congruence].
    rewrite E, E1; reflexivity.
Qed.

Lemma poll_step (om : ObjectManager) :
  let p := tombstoneRemover om in
  (currentBucket p = 0 ->
   lastReplaySegmentCount p <> replaySegmentReturnCount om) ->
  poll om
  = om' <- reapBucket (currentBucket p) om ;;
    Done (setTombstoneRemover
            (advanced p (replaySegmentReturnCount om)
               (wrap64 (currentBucket p + 1))
               (HashTable.numBuckets (objectMap om))) om').
Proof.
  intros p Busy; unfold poll; fold p.
  assert (Go : (lastReplaySegmentCount p =? replaySegmentReturnCount om)
               && (currentBucket p =? 0) = false).
  { destruct (Z.eqb_spec (currentBucket p) 0) as [Z0 |];
      [| apply andb_false_r].
    apply andb_false_iff; left; apply Z.eqb_neq; auto. }
  rewrite Go.
  replace (currentBucket
             (if currentBucket p =? 0
              then mkPoller (currentBucket p) (passes p)
                     (replaySegmentReturnCount om)
              else p))
    with (currentBucket p) by (destruct (_ =? 0); reflexivity).
  unfold reapBucket.
  apply bind_ext; intros om1 F.
  destruct (forEachRemoveIfTombstone_frame _ om om1 F) as [_ N].
  unfold HashTable.getNumBuckets, advanced; rewrite N.
  destruct (currentBucket p =? 0);
    cbn [currentBucket passes lastReplaySegmentCount]; reflexivity.
Qed.

Lemma polls_are_buckets (n : nat) :
  forall (i : Z) (om : ObjectManager),
    let p := tombstoneRemover om in
    let buckets := HashTable.numBuckets (objectMap om) in
    0 <= i ->
    i + Z.of_nat (S n) <= buckets <= UINT64_MAX ->
    currentBucket p = i ->
    (i = 0 -> lastReplaySegmentCount p <> replaySegmentReturnCount om) ->
    pollTimes (S n) om
    = om' <- forBuckets reapBucket i (S n) om ;;
      Done (setTombstoneRemover
              (advanced p (replaySegmentReturnCount om)
                 (i + Z.of_nat (S n)) buckets) om').
Proof.
  induction n as [| n IH]; intros i om p buckets I0 Bound Cur Busy.
  - cbn [pollTimes forBuckets].
    rewrite bind_Done, poll_step by (fold p; rewrite Cur; exact Busy).
    fold p; rewrite Cur, !bind_assoc.
    rewrite wrap64_small by (unfold UINT64_MAX in *; lia).
    apply bind_ext; intros om1 _; cbn [bind].
    replace (i + Z.of_nat 1) with (i + 1) by lia; reflexivity.
  - change (pollTimes (S (S n)) om)
      with (om' <- poll om ;; pollTimes (S n) om').
    change (forBuckets reapBucket i (S (S n)) om)
      with (om' <- reapBucket i om ;;
            forBuckets reapBucket (wrap64 (i + 1)) (S n) om').
    rewrite poll_step by (fold p; rewrite Cur; exact Busy).
    fold p; rewrite Cur, !bind_assoc.
    rewrite wrap64_small by (unfold UINT64_MAX in *; lia).
    apply bind_ext; intros om1 F; cbn [bind].
    destruct (forEachRemoveIfTombstone_frame _ om om1 F) as [E1 N1].
    set (p1 := advanced p (replaySegmentReturnCount om) (i + 1)
                 (HashTable.numBuckets (objectMap om))).
    assert (P1 : p1 = mkPoller (i + 1) (passes p)
                        (if currentBucket p =? 0
                         then replaySegmentReturnCount om
                         else lastReplaySegmentCount p)).
    { subst p1; unfold advanced; cbv zeta.
      destruct (Z.eqb_spec (i + 1) (HashTable.numBuckets (objectMap om)));
        [fold buckets in e; lia | reflexivity]. }
    rewrite (IH (i + 1) (setTombstoneRemover p1 om1));
      cbn [tombstoneRemover objectMap setTombstoneRemover
           replaySegmentReturnCount];
      [| lia | rewrite N1; fold buckets; lia | rewrite P1; reflexivity
       | lia].
    rewrite reapBuckets_setTombstoneRemover, bind_assoc.
    apply bind_ext; intros om2 _; cbn [bind].
    f_equal.
    rewrite N1; fold buckets.
    replace (replaySegmentReturnCount om1) with (replaySegmentReturnCount om)
      by (rewrite E1; reflexivity).
    replace (i + 1 + Z.of_nat (S n)) with (i + Z.of_nat (S (S n))) by lia.
    rewrite P1; unfold advanced;
      cbn [currentBucket passes lastReplaySegmentCount].
    destruct (Z.eqb_spec (i + 1) 0); [lia |].
    destruct (_ =? buckets); destruct om2; reflexivity.
Qed.

(** X18.  A full pass of the background reaper, that is, as many calls of
    poll as the hash table has buckets, started at bucket 0 after a
    replaySegment has returned: it does to the object manager what
    removeTombstones does (and fails an assertion exactly when that does),
    and leaves the poller at bucket 0 with one more pass counted and the
    return count of replaySegment recorded.  A poll that follows finds
    nothing to do. *)
Theorem poll_pass_is_removeTombstones (om : ObjectManager) :
  let p := tombstoneRemover om in
  let buckets := HashTable.numBuckets (objectMap om) in
  0 < buckets <= UINT64_MAX ->
  currentBucket p = 0 ->
  lastReplaySegmentCount p <> replaySegmentReturnCount om ->
  pollTimes (Z.to_nat buckets) om
  = om' <- removeTombstones om ;;
    Done (setTombstoneRemover
            (mkPoller 0 (wrap64 (passes p + 1))
               (replaySegmentReturnCount om)) om')
  /\ forall om',
       pollTimes (Z.to_nat buckets) om = Done om' -> poll om' = Done om'.
Proof.
  intros p buckets N Cur Busy.
  assert (E : pollTimes (Z.to_nat buckets) om
              = om' <- removeTombstones om ;;
                Done (setTombstoneRemover
                        (mkPoller 0 (wrap64 (passes p + 1))
                           (replaySegmentReturnCount om)) om')).
  { destruct (Z.to_nat buckets) as [| n] eqn:Nn; [lia |].
    rewrite (polls_are_buckets n 0 om); fold p buckets; auto; try lia.
    unfold removeTombstones, HashTable.getNumBuckets; fold buckets.
    rewrite Nn.
    apply bind_ext; intros om' _; f_equal; f_equal.
    unfold advanced; rewrite Cur; cbn [Z.eqb].
    replace (0 + Z.of_nat (S n)) with buckets by lia.
    rewrite Z.eqb_refl; reflexivity. }
  split; [exact E |].
  intros om' F; rewrite E in F.
  destruct (removeTombstones om) as [om1 | |] eqn:R; [| discriminate ..].
  cbn [bind] in F; injection F as <-.
  destruct (reapBuckets_frame _ _ _ _ R) as [E1 _].
  unfold poll;
    cbn [tombstoneRemover setTombstoneRemover replaySegmentReturnCount
         lastReplaySegmentCount currentBucket].
  rewrite E1; cbn [replaySegmentReturnCount setObjectMap].
  rewrite Z.eqb_refl; reflexivity.
Qed.

(** ** The private helpers as a map from keys to references *)



(** X20.  remove(key) on a well-formed index: afterwards lookup does not
    find the key, every other key is found as before, the log is untouched,
    the result is true exactly when the key was in the hash table, and if
    it was not, nothing has changed. *)
Theorem remove_then_lookup (om : ObjectManager) (key : Key) :
  wellFormed om = true ->
  let result := remove om key in
  (fst result = true <-> lookup om key <> NotFound)
  /\ lookup (snd result) key = NotFound
  /\ (forall key', key' <> key -> lookup (snd result) key' = lookup om key')
  /\ log (snd result) = log om
  /\ (lookup om key = NotFound -> snd result = om)
  /\ wellFormed (snd result) = true.
Proof.
  intros W result; subst result.
  split; [| split; [| split; [| split; [| split]]]].
  - split; [| apply remove_found].
    intros F N.
    unfold remove, lookup in *.
    rewrite (removeIn_not_found _ _ _ _ N) in F; discriminate.
  - exact (lookup_remove om key (proj2 (wellFormed_slots om W))).
  - intros key' NE; exact (lookup_remove_other om key key' NE).
  - exact (proj1 (remove_fields om key)).
  - intros N; unfold remove, lookup in *.
    rewrite (removeIn_not_found _ _ _ _ N).
    destruct om as [? ? [n slots] ? ? ? ? ? ?]; reflexivity.
  - exact (wellFormed_remove om key W).
Qed.

(** ** The cleaner's other callbacks *)

(** X21.  relocate on a tombstone asks the relocator to append exactly
    when log.segmentExists answers true for the segment id of the
    tombstone; the tombstone is copied if the relocator also has memory.
    The hash table, the tablet registry and the freed references are left
    alone, and on a well-formed index every key is found as before.
    relocate on an entry that is neither an object nor a tombstone does
    nothing at all. *)
Theorem relocate_tombstone (segmentExists : Z -> bool) (om : ObjectManager)
  (oldStart : Reference) (relocator : LogEntryRelocator.t) :
  (forall s : ObjectSafeVersion.t,
     relocate segmentExists om oldStart (EntrySafeVersion s) relocator
     = Done (relocator, om))
  /\
  (forall oldTomb : ObjectTombstone.t,
     let keep := segmentExists (ObjectTombstone.getSegmentId oldTomb) in
     exists relocator' om',
       relocate segmentExists om oldStart (EntryTombstone oldTomb) relocator
       = Done (relocator', om')
       /\ LogEntryRelocator.appendCalls relocator'
          = (if keep then S (LogEntryRelocator.appendCalls relocator)
             else LogEntryRelocator.appendCalls relocator)
       /\ Log.memory (log om')
          = Log.memory (log om)
            ++ (if keep && LogEntryRelocator.hasMemory relocator
                then [(MAIN_LOG, EntryTombstone oldTomb)] else [])
       /\ Log.freed (log om') = Log.freed (log om)
       /\ objectMap om' = objectMap om
       /\ tabletManager om' = tabletManager om
       /\ (wellFormed om = true ->
           wellFormed om' = true
           /\ forall key, lookup om' key = lookup om key)).
Proof.
  split; [reflexivity |].
  intros oldTomb keep.
  unfold relocate, relocateTombstone; fold keep.
  destruct keep; cbn [andb].
  2:{ exists relocator, om; rewrite app_nil_r; repeat split; auto. }
  unfold LogEntryRelocator.append.
  destruct (LogEntryRelocator.hasMemory relocator).
  - cbn [Log.append]; eexists; eexists; split; [reflexivity |].
    cbn [LogEntryRelocator.appendCalls log setLog Log.memory Log.freed
         objectMap tabletManager].
    do 5 (split; [reflexivity |]).
    intros W; split.
    + match goal with
      | |- wellFormed (setLog ?l _) = true =>
          apply (wellFormed_extend om l
                   [(MAIN_LOG, EntryTombstone oldTomb)]);
            [reflexivity | exact W]
      end.
    + intros key; unfold lookup; cbn [log objectMap setLog].
      apply lookupIn_agree.
      apply (agreeOn_extended _ _ [(MAIN_LOG, EntryTombstone oldTomb)]);
        [reflexivity |].
      exact (proj1 (indexInvariant_keys om
                      (wellFormed_indexInvariant om W))).
  - eexists; eexists; split; [reflexivity |].
    cbn [LogEntryRelocator.appendCalls log setLog Log.memory Log.freed
         objectMap tabletManager].
    rewrite app_nil_r, setLog_id; repeat split; auto.
Qed.

(** X22.  Every entry that a successful writeObject appends goes through
    the main log and is, as getType and getTimestamp report it to the log,
    either an object that carries the first reading of the clock or a
    tombstone that carries the second; the write appends at least one
    entry.  What a successful removeObject appends is a tombstone that
    carries the one reading that removeObject takes. *)
Theorem getTimestamp_of_appended (om om' : ObjectManager) (key : Key)
  (rejectRules : option RejectRules) (outVersion : bool) (now later : Z)
  (logHasSpace : bool) (out : option Z) :
  (forall value : string,
     writeObject om key value rejectRules outVersion now later logHasSpace
     = Done (STATUS_OK, out, om') ->
     exists more,
       Log.memory (log om') = Log.memory (log om) ++ more
       /\ more <> []
       /\ forall which e,
            In (which, e) more ->
            which = MAIN_LOG
            /\ (getType e = LOG_ENTRY_TYPE_OBJ /\ getTimestamp e = now
                \/ getType e = LOG_ENTRY_TYPE_OBJTOMB
                   /\ getTimestamp e = later))
  /\
  (removeObject om key rejectRules outVersion now logHasSpace
   = (STATUS_OK, out, om') ->
   exists more,
     Log.memory (log om') = Log.memory (log om) ++ more
     /\ forall which e,
          In (which, e) more ->
          which = MAIN_LOG /\ getTimestamp e = now
          /\ getType e = LOG_ENTRY_TYPE_OBJTOMB).
Proof.
  split.
  - intros value W.
    destruct (writeObject_outcome _ _ _ _ _ _ _ _ _ _ _ W)
      as [(E & _) | [(_ & _ & E & _) | [(_ & _ & E & _) |
          (_ & _ & _ & _ & _ & ->)]]]; try congruence.
    destruct (stored_fields om key value now later) as (_ & _ & _ & Sm & _).
    eexists; split; [exact Sm | split; [discriminate |]].
    intros which e I.
    destruct I as [I | I]; [injection I as <- <-; auto |].
    destruct (superseded om key later) as [[r tomb] |] eqn:Sp; [| destruct I].
    destruct I as [I | []]; injection I as <- <-.
    split; [reflexivity | right; split; [reflexivity |]].
    unfold superseded in Sp.
    destruct (lookup om key) as [r0 o0 | |]; try discriminate.
    destruct (negb _); [| discriminate].
    injection Sp as _ <-; reflexivity.
  - intros R.
    destruct (removeObject_outcome _ _ _ _ _ _ _ _ _ R)
      as [-> | (r & o & om0 & _ & _ & _ & _ & -> & _ & _ & Mem)].
    + exists []; rewrite app_nil_r; split; [reflexivity | intros ? ? []].
    + destruct (remove_fields om0 key) as (-> & _).
      eexists; split; [exact Mem |].
      intros which e [I | []]; injection I as <- <-.
      repeat split.
Qed.

(** ** The invariant of the index, for every operation *)

Lemma wellFormed_removeIfOrphanedObject (r : Reference)
  (om om' : ObjectManager) :
  wellFormed om = true ->
  removeIfOrphanedObject r om = Done om' ->
  wellFormed om' = true.
Proof.
  intros W; unfold removeIfOrphanedObject.
  destruct (Log.getEntry (log om) r) as [[o | t | s] |];
    try (intros E; injection E as <-; exact W).
  cbv zeta.
  destruct (TabletManager.getTablet (tabletManager om) (Object.getKey o));
    [intros E; injection E as <-; exact W |].
  pose proof (wellFormed_remove om (Object.getKey o) W) as W1.
  destruct (remove om (Object.getKey o)) as [[|] om1];
    cbn [assert bind snd] in *; [| discriminate].
  intros E; injection E as <-.
  rewrite <- W1; apply wellFormed_same; reflexivity.
Qed.

Lemma wellFormed_forEachRemoveIfOrphanedObject (references : list Reference) :
  forall om om',
    wellFormed om = true ->
    forEachRemoveIfOrphanedObject references om = Done om' ->
    wellFormed om' = true.
Proof.
  induction references as [| r rest IH]; intros om om' W;
    cbn [forEachRemoveIfOrphanedObject].
  - intros E; injection E as <-; exact W.
  - destruct (removeIfOrphanedObject r om) as [om1 | |] eqn:R;
      [| discriminate ..].
    cbn [bind]; apply IH.
    exact (wellFormed_removeIfOrphanedObject r om om1 W R).
Qed.

Lemma wellFormed_forBuckets
  (body : Z -> ObjectManager -> Exec ObjectManager) (n : nat) :
  (forall i om om',
     wellFormed om = true -> body i om = Done om' -> wellFormed om' = true) ->
  forall i om om',
    wellFormed om = true ->
    forBuckets body i n om = Done om' ->
    wellFormed om' = true.
Proof.
  intros B; induction n as [| n IH]; intros i om om' W; cbn [forBuckets].
  - intros E; injection E as <-; exact W.
  - destruct (body i om) as [om1 | |] eqn:R; [| discriminate ..].
    cbn [bind]; apply IH.
    exact (B i om om1 W R).
Qed.

(** X23.  The constructor leaves a well-formed index, and every operation
    of the object manager that completes keeps it well formed: every slot of
    the hash table refers to an object or a tombstone in the log and sits
    in the bucket of its key, and no key is indexed twice. *)
Theorem wellFormed_is_invariant :
  (forall tablets buckets, wellFormed (construct tablets buckets) = true)
  /\
  forall om : ObjectManager,
    wellFormed om = true ->
    (forall key value rejectRules outVersion now later logHasSpace status out
       om',
       writeObject om key value rejectRules outVersion now later logHasSpace
       = Done (status, out, om') ->
       wellFormed om' = true)
    /\ wellFormed (syncWrites om) = true
    /\ (forall key rejectRules outVersion,
          wellFormed (snd (readObject om key rejectRules outVersion)) = true)
    /\ (forall key rejectRules outVersion now logHasSpace,
          wellFormed
            (snd (removeObject om key rejectRules outVersion now logHasSpace))
          = true)
    /\ (forall it,
          wellFormed (completionState (replaySegment om it)) = true)
    /\ (forall segmentExists oldStart e relocator relocator' om',
          relocate segmentExists om oldStart e relocator
          = Done (relocator', om') ->
          wellFormed om' = true)
    /\ (forall om', poll om = Done om' -> wellFormed om' = true)
    /\ (forall om', removeTombstones om = Done om' -> wellFormed om' = true)
    /\ (forall om',
          removeOrphanedObjects om = Done om' -> wellFormed om' = true).
Proof.
  split; [exact wellFormed_construct |].
  intros om W.
  split; [| split; [| split; [| split; [| split; [| split; [| split;
    [| split]]]]]]].
  - intros key value rejectRules outVersion now later logHasSpace status out
      om'.
    apply wellFormed_writeObject; exact W.
  - rewrite <- W; apply wellFormed_same; reflexivity.
  - intros key rejectRules outVersion.
    apply wellFormed_readObject; exact W.
  - intros key rejectRules outVersion now logHasSpace.
    apply wellFormed_removeObject; exact W.
  - intros it; apply wellFormed_replaySegment; exact W.
  - intros segmentExists oldStart e relocator relocator' om'.
    destruct e as [o | t | s]; cbn [relocate].
    + apply wellFormed_relocateObject; exact W.
    + unfold relocateTombstone.
      destruct (segmentExists _); [| intros E; injection E as _ <-; exact W].
      unfold LogEntryRelocator.append.
      destruct (LogEntryRelocator.hasMemory relocator);
        cbn [Log.append]; intros E; injection E as _ <-.
      * match goal with
        | |- wellFormed (setLog ?l _) = true =>
            apply (wellFormed_extend om l [(MAIN_LOG, EntryTombstone t)]);
              [reflexivity | exact W]
        end.
      * rewrite setLog_id; exact W.
    + intros E; injection E as _ <-; exact W.
  - intros om'; apply wellFormed_poll; exact W.
  - intros om'; unfold removeTombstones.
    apply wellFormed_forBuckets; [| exact W].
    intros i x x'; apply wellFormed_forEachRemoveIfTombstone.
  - intros om'; unfold removeOrphanedObjects.
    apply wellFormed_forBuckets; [| exact W].
    intros i x x'; apply wellFormed_forEachRemoveIfOrphanedObject.
Qed.

(** ** The cleaner is invisible to readers *)

Lemma readObject_depends_entry (om om' : ObjectManager) (key : Key)
  (rejectRules : option RejectRules) (outVersion : bool) :
  served (tabletManager om') key = served (tabletManager om) key ->
  entryOf (lookup om' key) = entryOf (lookup om key) ->
  fst (readObject om' key rejectRules outVersion)
  = fst (readObject om key rejectRules outVersion).
Proof.
  intros S L; rewrite !readObject_served, S.
  destruct (served (tabletManager om) key); [| reflexivity].
  destruct (lookup om key) as [r o | r t |],
    (lookup om' key) as [r' o' | r' t' |]; cbn [entryOf] in L;
    try discriminate; try reflexivity.
  injection L as ->.
  cbv zeta; destruct (negb _); reflexivity.
Qed.

Lemma relocate_tombstone_effect (segmentExists : Z -> bool)
  (om : ObjectManager) (oldTomb : ObjectTombstone.t)
  (relocator : LogEntryRelocator.t) :
  let om' := snd (relocateTombstone segmentExists om oldTomb relocator) in
  tabletManager om' = tabletManager om
  /\ (wellFormed om = true -> forall key, lookup om' key = lookup om key).
Proof.
  unfold relocateTombstone.
  destruct (segmentExists _); [| cbn [snd]; auto].
  unfold LogEntryRelocator.append.
  destruct (LogEntryRelocator.hasMemory relocator); cbn [Log.append snd].
  - split; [reflexivity |].
    intros W key; unfold lookup; cbn [log objectMap setLog].
    apply lookupIn_agree.
    apply (agreeOn_extended _ _ [(MAIN_LOG, EntryTombstone oldTomb)]);
      [reflexivity |].
    exact (proj1 (indexInvariant_keys om (wellFormed_indexInvariant om W))).
  - rewrite setLog_id; auto.
Qed.

Lemma readObject_unserved (om : ObjectManager) (key : Key)
  (rejectRules : option RejectRules) (outVersion : bool) :
  served (tabletManager om) key = false ->
  fst (readObject om key rejectRules outVersion)
  = (STATUS_UNKNOWN_TABLET, None, None).
Proof. intros S; rewrite readObject_served, S; reflexivity. Qed.

(** X24.  The cleaner is invisible to readers.  On a well-formed index,
    for oldBuffer the entry that the log holds at its address: if relocate
    completes, the tablet registry is as before and every readObject
    returns the status, version and data it returned before, whether the
    entry was relocated, found dead, or dropped from the index with its
    tablet. *)
Theorem relocate_transparent (segmentExists : Z -> bool)
  (om om' : ObjectManager) (oldStart : Reference) (e : LogEntry)
  (relocator relocator' : LogEntryRelocator.t) :
  wellFormed om = true ->
  Log.getEntry (log om) oldStart = Some e ->
  relocate segmentExists om oldStart e relocator = Done (relocator', om') ->
  tabletManager om' = tabletManager om
  /\ forall (key : Key) (rejectRules : option RejectRules)
       (outVersion : bool),
       fst (readObject om' key rejectRules outVersion)
       = fst (readObject om key rejectRules outVersion).
Proof.
  intros W G R.
  destruct e as [o | t | s]; cbn [relocate] in R.
  - (* an object *)
    unfold relocateObject in R.
    destruct (TabletManager.getTablet (tabletManager om) (Object.getKey o))
      as [tablet |] eqn:T.
    + pose proof (lookup_resolves om (Object.getKey o)) as Res.
      destruct (lookup om (Object.getKey o)) as [r o0 | r t0 |] eqn:L;
        cbn [assert bind foundReference] in R; [| discriminate |].
      2:{ injection R as _ <-; auto. }
      destruct (Nat.eqb_spec r oldStart) as [-> | NE];
        [| injection R as _ <-; auto].
      destruct Res as [G0 _]; rewrite G in G0; injection G0 as <-.
      unfold LogEntryRelocator.append in R.
      destruct (LogEntryRelocator.hasMemory relocator);
        cbn [Log.append negb LogEntryRelocator.getNewReference
             LogEntryRelocator.newReference] in R;
        injection R as _ <-.
      * match goal with
        | |- context [replace ?x ?k ?rf] =>
            destruct (replace_log x k rf) as (_ & Et & _);
            pose proof (install_entry x (log om) MAIN_LOG (EntryObject o)
                          (Object.getKey o) eq_refl eq_refl) as I;
            pose proof (fun key' =>
                          install_entry_other om MAIN_LOG (EntryObject o)
                            (Object.getKey o) key' W eq_refl) as Other
        end.
        cbv zeta in I; destruct I as [I _].
        cbn [Log.append snd tabletManager setLog] in *.
        split; [exact Et |].
        intros key rejectRules outVersion.
        apply readObject_depends_entry; [rewrite Et; reflexivity |].
        destruct (Key_eqb key (Object.getKey o)) eqn:E.
        -- apply Key_eqb_eq in E; subst key.
           rewrite L, I; reflexivity.
        -- rewrite (Other key (Key_eqb_neq _ _ E)); reflexivity.
      * rewrite setLog_id; auto.
    + injection R as _ <-.
      destruct (remove_fields om (Object.getKey o)) as (_ & Et & _).
      split; [exact Et |].
      intros key rejectRules outVersion.
      destruct (Key_eqb key (Object.getKey o)) eqn:E.
      * apply Key_eqb_eq in E; subst key.
        rewrite !readObject_unserved; [reflexivity | |];
          unfold served; rewrite ?Et, T; reflexivity.
      * apply readObject_depends; [rewrite Et; reflexivity |].
        apply lookup_remove_other, Key_eqb_neq; exact E.
  - (* a tombstone *)
    destruct (relocate_tombstone_effect segmentExists om t relocator)
      as (Et & Lk).
    injection R as R; rewrite R in Et, Lk; cbn [snd] in Et, Lk.
    split; [exact Et |].
    intros key rejectRules outVersion.
    apply readObject_depends; [rewrite Et; reflexivity | exact (Lk W key)].
  - injection R as _ <-; auto.
Qed.

(** ** Tablets that are not served *)

(** X25.  A key whose tablet is missing from the registry or is not
    NORMAL: writeObject, readObject and removeObject all return
    STATUS_UNKNOWN_TABLET and store nothing through outVersion; read and
    remove leave the object manager as it was, write only notes that a
    write was attempted (anyWrites). *)
Theorem unknown_tablet (om : ObjectManager) (key : Key) :
  (TabletManager.getTablet (tabletManager om) key = None
   \/ exists tablet,
        TabletManager.getTablet (tabletManager om) key = Some tablet
        /\ TabletManager.state tablet <> TabletManager.NORMAL) ->
  (forall value rejectRules outVersion now later logHasSpace,
     exists om',
       writeObject om key value rejectRules outVersion now later logHasSpace
       = Done (STATUS_UNKNOWN_TABLET, None, om')
       /\ anyWrites om' = true
       /\ setAnyWrites (anyWrites om) om' = om)
  /\ (forall rejectRules outVersion,
        readObject om key rejectRules outVersion
        = (STATUS_UNKNOWN_TABLET, None, None, om))
  /\ (forall rejectRules outVersion now logHasSpace,
        removeObject om key rejectRules outVersion now logHasSpace
        = (STATUS_UNKNOWN_TABLET, None, om)).
Proof.
  intros U.
  assert (S : served (tabletManager om) key = false).
  { unfold served; destruct U as [-> | (tablet & -> & N)]; [reflexivity |].
    destruct (TabletManager.state tablet); [contradiction | reflexivity]. }
  split; [| split].
  - intros value rejectRules outVersion now later logHasSpace.
    exists (noted om); rewrite writeObject_unserved by exact S.
    split; [reflexivity |].
    unfold noted; destruct om as [? ? ? ? [|] ? ? ? ?]; split; reflexivity.
  - intros rejectRules outVersion; rewrite readObject_served, S; reflexivity.
  - intros rejectRules outVersion now logHasSpace.
    rewrite removeObject_served, S; reflexivity.
Qed.

(** ** Recovery, then reading *)

(** X26.  What replaySegment keeps is what a read meets once the tablet
    is NORMAL: after the replay of an object whose version reaches the
    minSuccessor of what the index held for its key, readObject returns
    STATUS_OK with that version and that data; after the replay of such a
    tombstone, readObject returns STATUS_OBJECT_DOESNT_EXIST. *)
Theorem replayed_entry_is_read (om : ObjectManager)
  (tablets : TabletManager.t) (tablet : TabletManager.Tablet) :
  TabletManager.state tablet = TabletManager.NORMAL ->
  (forall o : Object.t,
     let key := Object.getKey o in
     let om' :=
       setTabletManager tablets
         (completionState (replaySegment om [EntryObject o])) in
     TabletManager.getTablet tablets key = Some tablet ->
     fst (objectMinSuccessor (lookup om key)) <= Object.version o ->
     forall wantVersion : bool,
       fst (readObject om' key None wantVersion)
       = (STATUS_OK, store wantVersion (Object.version o),
          Some (Object.data o)))
  /\
  (forall t : ObjectTombstone.t,
     let key := ObjectTombstone.getKey t in
     let om' :=
       setTabletManager tablets
         (completionState (replaySegment om [EntryTombstone t])) in
     TabletManager.getTablet tablets key = Some tablet ->
     fst (tombstoneMinSuccessor (lookup om key))
     <= ObjectTombstone.getObjectVersion t ->
     forall (rejectRules : option RejectRules) (wantVersion : bool),
       fst (readObject om' key rejectRules wantVersion)
       = (STATUS_OBJECT_DOESNT_EXIST, None, None)).
Proof.
  intros N; split.
  - intros o key om' T V wantVersion.
    pose proof (replay_object om o) as R; cbv zeta in R.
    fold key in R.
    destruct (Z.leb_spec (fst (objectMinSuccessor (lookup om key)))
                (Object.version o)); [| lia].
    destruct R as (L & _).
    rewrite readObject_served.
    subst om'; cbn [tabletManager setTabletManager].
    unfold served; rewrite T, N; cbn [TabletManager.TabletState_eqb].
    change (lookup (setTabletManager tablets
                      (completionState (replaySegment om [EntryObject o])))
              key)
      with (lookup (replayEntry om (EntryObject o)) key).
    rewrite L; reflexivity.
  - intros t key om' T V rejectRules wantVersion.
    pose proof (replay_tombstone om t) as R; cbv zeta in R.
    fold key in R.
    destruct (Z.leb_spec (fst (tombstoneMinSuccessor (lookup om key)))
                (ObjectTombstone.getObjectVersion t)); [| lia].
    destruct R as (L & _).
    rewrite readObject_served.
    subst om'; cbn [tabletManager setTabletManager].
    unfold served; rewrite T, N; cbn [TabletManager.TabletState_eqb].
    change (lookup (setTabletManager tablets
                      (completionState
                         (replaySegment om [EntryTombstone t])))
              key)
      with (lookup (replayEntry om (EntryTombstone t)) key).
    rewrite L; reflexivity.
Qed.

(** ** lookup against the hash table *)


End Further.

(** * The further theorems at concrete inputs *)

(** A write into the fresh manager, then a read: the value and version 1
    come back. *)
Lemma writeObject_then_readObject_witness :
  fst (@readObject Example.collaborators Scenario.written Example.k None true)
  = (STATUS_OK, Some 1, Some "v"%string).
Proof.
  assert (W : @writeObject Example.collaborators Example.normal Example.k
                "v" None true 0 1 true
              = Done (STATUS_OK, Some 1, Scenario.written))
    by (vm_compute; reflexivity).
  destruct (@writeObject_then_readObject Example.collaborators _ _ _ _ _ _
              _ _ _ _ W) as (version & O & R).
  injection O as <-.
  rewrite (R true); reflexivity.
Defined.

(** Writing k2 leaves the object of k where it was. *)
Lemma writeObject_other_keys_witness :
  @lookup Example.collaborators Scenario.two Example.k
  = @lookup Example.collaborators (Example.holding 5) Example.k.
Proof.
  assert (WF : @wellFormed Example.collaborators (Example.holding 5) = true)
    by (vm_compute; reflexivity).
  assert (NE : Example.k <> Example.k2)
    by (intros E; vm_compute in E; discriminate E).
  assert (W : @writeObject Example.collaborators (Example.holding 5)
                Example.k2 "w" None false 0 1 true
              = Done (STATUS_OK, None, Scenario.two))
    by (vm_compute; reflexivity).
  exact (proj1 (@writeObject_other_keys Example.collaborators _ _ _ _ _ _ _
                  _ _ _ _ _ WF NE W)).
Defined.

(** Overwriting the object of k at reference 0, with the clock at 0 and
    then at 1: the new object of time 0 and the tombstone of time 1 are
    appended, and reference 0 is freed. *)
Lemma writeObject_log_effects_witness :
  Log.memory (log (Example.afterWrite (Example.holding 5) Example.k "new"))
  = Log.memory (log (Example.holding 5))
    ++ [(MAIN_LOG,
         EntryObject (@newObject Example.collaborators Example.k "new" 6 0));
        (MAIN_LOG,
         EntryTombstone
           (@newTombstone Example.collaborators (Example.object 5 "old") 0
              1))]
  /\ Log.freed
       (log (Example.afterWrite (Example.holding 5) Example.k "new"))
     = Log.freed (log (Example.holding 5)) ++ [(MAIN_LOG, 0%nat)].
Proof.
  assert (W : @writeObject Example.collaborators (Example.holding 5)
                Example.k "new" None false 0 1 true
              = Done (STATUS_OK, None,
                      Example.afterWrite (Example.holding 5) Example.k "new"))
    by (vm_compute; reflexivity).
  assert (L : @lookup Example.collaborators (Example.holding 5) Example.k
              = FoundObject 0%nat (Example.object 5 "old"))
    by (vm_compute; reflexivity).
  assert (L' : @lookup Example.collaborators
                 (Example.afterWrite (Example.holding 5) Example.k "new")
                 Example.k
               = FoundObject 1%nat
                   (@newObject Example.collaborators Example.k "new" 6 0))
    by (vm_compute; reflexivity).
  destruct (@writeObject_log_effects Example.collaborators _ _ _ _ _ _ _ _ _
              _ W) as (newObj & N & _ & _ & _ & _ & _ & _ & M).
  rewrite L' in N; injection N as <-.
  rewrite L in M; exact M.
Defined.

(** A write that the reject rules refuse, because the object exists:
    nothing is appended and the object of k stays indexed. *)
Lemma writeObject_failed_witness :
  exists om' : ObjectManager,
    @writeObject Example.collaborators (Example.holding 5) Example.k "new"
      (Some (mkRejectRules 0 false true false false)) true 0 1 true
    = Done (STATUS_OBJECT_EXISTS, Some 5, om')
    /\ log om' = log (Example.holding 5)
    /\ @lookup Example.collaborators om' Example.k
       = FoundObject 0%nat (Example.object 5 "old").
Proof.
  assert (W : @writeObject Example.collaborators (Example.holding 5)
                Example.k "new"
                (Some (mkRejectRules 0 false true false false)) true 0 1 true
              = Done (STATUS_OBJECT_EXISTS, Some 5,
                      setAnyWrites true (Example.holding 5)))
    by (vm_compute; reflexivity).
  assert (NOK : STATUS_OBJECT_EXISTS <> STATUS_OK) by discriminate.
  destruct (@writeObject_failed Example.collaborators _ _ _ _ _ _ _ _ _ _
              _ W NOK) as (L & _ & _ & K & _).
  exists (setAnyWrites true (Example.holding 5)).
  split; [exact W | split; [exact L |]].
  rewrite (K Example.k); vm_compute; reflexivity.
Defined.

(** Two writes of k into the fresh manager: versions 1 and 2. *)
Lemma writeObject_twice_witness :
  @lookup Example.collaborators
    (Example.afterWrite Scenario.written Example.k "w") Example.k
  = FoundObject 1%nat (@newObject Example.collaborators Example.k "w" 2 0).
Proof.
  assert (W1 : @writeObject Example.collaborators Example.normal Example.k
                 "v" None true 0 1 true
               = Done (STATUS_OK, Some 1, Scenario.written))
    by (vm_compute; reflexivity).
  assert (W2 : @writeObject Example.collaborators Scenario.written Example.k
                 "w" None true 0 1 true
               = Done (STATUS_OK, Some 2,
                       Example.afterWrite Scenario.written Example.k "w"))
    by (vm_compute; reflexivity).
  destruct (@writeObject_twice Example.collaborators _ _ _ _ _ _ _ _ _ _ _ _
              _ _ _ _ _ _ W1 W2)
    as (version1 & version2 & O1 & O2 & _ & _ & L & _).
  injection O2 as <-.
  exact L.
Defined.

(** Removing k from the fresh manager succeeds and changes nothing. *)
Lemma removeObject_absent_witness :
  @removeObject Example.collaborators Example.normal Example.k None true 0
    true
  = (STATUS_OK, None, Example.normal).
Proof.
  assert (S : @TabletManager.getTablet Example.collaborators
                (tabletManager Example.normal) Example.k
              = Some (Example.tablet TabletManager.NORMAL))
    by (vm_compute; reflexivity).
  assert (A : forall (r : Reference) (o : Object.t),
                @lookup Example.collaborators Example.normal Example.k
                <> FoundObject r o)
    by (intros r o E; vm_compute in E; discriminate E).
  exact (@removeObject_absent Example.collaborators Example.normal Example.k
           None true 0 true (Example.tablet TabletManager.NORMAL) S eq_refl
           A).
Defined.

(** Removing k a second time, now asking for it to exist. *)
Lemma removeObject_twice_witness :
  fst (@removeObject Example.collaborators
         (snd (@removeObject Example.collaborators (Example.holding 5)
                 Example.k None true 0 true))
         Example.k (Some (mkRejectRules 0 true false false false)) true 0
         true)
  = (STATUS_OBJECT_DOESNT_EXIST, None).
Proof.
  assert (WF : @wellFormed Example.collaborators (Example.holding 5) = true)
    by (vm_compute; reflexivity).
  assert (R1 : @removeObject Example.collaborators (Example.holding 5)
                 Example.k None true 0 true
               = (STATUS_OK, Some 5,
                  snd (@removeObject Example.collaborators
                         (Example.holding 5) Example.k None true 0 true)))
    by (vm_compute; reflexivity).
  rewrite (@removeObject_twice Example.collaborators _ _ Example.k None
             (Some (mkRejectRules 0 true false false false)) true true 0 0
             true true (Some 5) WF R1).
  reflexivity.
Defined.

(** Removing k leaves the object of k2 where it was. *)
Lemma removeObject_other_keys_witness :
  @lookup Example.collaborators
    (snd (@removeObject Example.collaborators Scenario.two Example.k None
            true 0 true))
    Example.k2
  = @lookup Example.collaborators Scenario.two Example.k2.
Proof.
  assert (WF : @wellFormed Example.collaborators Scenario.two = true)
    by (vm_compute; reflexivity).
  assert (NE : Example.k2 <> Example.k)
    by (intros E; vm_compute in E; discriminate E).
  assert (R : @removeObject Example.collaborators Scenario.two Example.k
                None true 0 true
              = (STATUS_OK, Some 5,
                 snd (@removeObject Example.collaborators Scenario.two
                        Example.k None true 0 true)))
    by (vm_compute; reflexivity).
  exact (proj1 (@removeObject_other_keys Example.collaborators _ _ _ _ _ _ _
                  _ _ _ WF NE R)).
Defined.

(** A read that finds no object. *)
Lemma failed_read_remove_unchanged_witness :
  snd (@readObject Example.collaborators Example.normal Example.k None true)
  = Example.normal.
Proof.
  assert (NOK : STATUS_OBJECT_DOESNT_EXIST <> STATUS_OK) by discriminate.
  assert (R : @readObject Example.collaborators Example.normal Example.k
                None true
              = (STATUS_OBJECT_DOESNT_EXIST, None, None,
                 snd (@readObject Example.collaborators Example.normal
                        Example.k None true)))
    by (vm_compute; reflexivity).
  exact (proj1 (proj1 (@failed_read_remove_unchanged Example.collaborators
                         Example.normal _ Example.k None true
                         STATUS_OBJECT_DOESNT_EXIST None NOK) None R)).
Defined.

(** Reading a key of a RECOVERING tablet. *)
Lemma unknown_tablet_witness :
  @readObject Example.collaborators Example.recovering Example.k None true
  = (STATUS_UNKNOWN_TABLET, None, None, Example.recovering).
Proof.
  assert (U : @TabletManager.getTablet Example.collaborators
                (tabletManager Example.recovering) Example.k = None
              \/ exists tablet,
                   @TabletManager.getTablet Example.collaborators
                     (tabletManager Example.recovering) Example.k
                   = Some tablet
                   /\ TabletManager.state tablet <> TabletManager.NORMAL).
  { right; exists (Example.tablet TabletManager.RECOVERING); split;
      [vm_compute; reflexivity | discriminate]. }
  exact (proj1 (proj2 (@unknown_tablet Example.collaborators
                         Example.recovering Example.k U)) None true).
Defined.

(** The object of version 1 and the tombstone that deletes it, replayed in
    either order into the empty index of a RECOVERING tablet. *)
Lemma replay_tombstone_wins_witness :
  @lookup Example.collaborators
    (completionState
       (@replaySegment Example.collaborators Example.recovering
          [EntryObject (Example.object 1 "old");
           EntryTombstone (Example.tombstone 1)]))
    Example.k
  = FoundTombstone 1%nat (Example.tombstone 1)
  /\ @lookup Example.collaborators
       (completionState
          (@replaySegment Example.collaborators Example.recovering
             [EntryTombstone (Example.tombstone 1);
              EntryObject (Example.object 1 "old")]))
       Example.k
     = FoundTombstone 0%nat (Example.tombstone 1).
Proof.
  assert (L : @lookup Example.collaborators Example.recovering
                (Object.getKey (Example.object 1 "old")) = NotFound)
    by (vm_compute; reflexivity).
  assert (Vo : 0 <= Object.version (Example.object 1 "old")
               <= ObjectTombstone.getObjectVersion (Example.tombstone 1))
    by (simpl; lia).
  assert (Vt : ObjectTombstone.getObjectVersion (Example.tombstone 1)
               < UINT64_MAX)
    by (unfold UINT64_MAX; simpl; lia).
  destruct (@replay_tombstone_wins Example.collaborators Example.recovering
              (Example.object 1 "old") (Example.tombstone 1) eq_refl L Vo Vt)
    as (A & _ & _ & B & _).
  split; [exact A | exact B].
Defined.

(** The segment of C3 replayed twice: the second replay frees nothing. *)
Lemma replaySegment_again_witness :
  Log.freed
    (log (completionState
            (@replaySegment Example.collaborators
               (completionState
                  (@replaySegment Example.collaborators Example.recovering
                     [EntryObject (Example.object 5 "a");
                      EntryObject (Example.object 3 "b");
                      EntryTombstone (Example.tombstone 4)]))
               [EntryObject (Example.object 5 "a");
                EntryObject (Example.object 3 "b");
                EntryTombstone (Example.tombstone 4)])))
  = Log.freed
      (log (completionState
              (@replaySegment Example.collaborators Example.recovering
                 [EntryObject (Example.object 5 "a");
                  EntryObject (Example.object 3 "b");
                  EntryTombstone (Example.tombstone 4)]))).
Proof.
  assert (WF : @wellFormed Example.collaborators Example.recovering = true)
    by (vm_compute; reflexivity).
  assert (R : indexInRange Example.recovering = true)
    by (vm_compute; reflexivity).
  assert (E : forallb entryInRange
                [EntryObject (Example.object 5 "a");
                 EntryObject (Example.object 3 "b");
                 EntryTombstone (Example.tombstone 4)] = true)
    by (vm_compute; reflexivity).
  exact (proj1 (proj2 (proj2 (@replaySegment_again Example.collaborators _
                                Example.recovering WF R E)))).
Defined.

(** The object replayed into the empty index is read back once the tablet
    is NORMAL. *)
Lemma replayed_entry_is_read_witness :
  fst (@readObject Example.collaborators
         (setTabletManager [Example.tablet TabletManager.NORMAL]
            (completionState
               (@replaySegment Example.collaborators Example.recovering
                  [EntryObject (Example.object 5 "old")])))
         Example.k None true)
  = (STATUS_OK, Some 5, Some "old"%string).
Proof.
  assert (T : @TabletManager.getTablet Example.collaborators
                [Example.tablet TabletManager.NORMAL]
                (Object.getKey (Example.object 5 "old"))
              = Some (Example.tablet TabletManager.NORMAL))
    by (vm_compute; reflexivity).
  assert (V : fst (objectMinSuccessor
                     (@lookup Example.collaborators Example.recovering
                        (Object.getKey (Example.object 5 "old"))))
              <= Object.version (Example.object 5 "old"))
    by (vm_compute; discriminate).
  exact (proj1 (@replayed_entry_is_read Example.collaborators
                  Example.recovering [Example.tablet TabletManager.NORMAL]
                  (Example.tablet TabletManager.NORMAL) eq_refl)
           (Example.object 5 "old") T V true).
Defined.

(** The tombstone that recovery left behind is purged. *)
Lemma removeTombstones_purges_witness :
  exists om' : ObjectManager,
    @removeTombstones Example.collaborators Scenario.recovered = Done om'
    /\ @lookup Example.collaborators om' Example.k = NotFound.
Proof.
  assert (WF : @wellFormed Example.collaborators Scenario.recovered = true)
    by (vm_compute; reflexivity).
  assert (N : 0 < HashTable.numBuckets (objectMap Scenario.recovered)
              <= UINT64_MAX)
    by (vm_compute; split; [reflexivity | discriminate]).
  assert (L : @lookup Example.collaborators Scenario.recovered Example.k
              = FoundTombstone 1%nat (Example.tombstone 1))
    by (vm_compute; reflexivity).
  assert (D : @discardable Example.collaborators
                (tabletManager Scenario.recovered) Example.k = true)
    by (vm_compute; reflexivity).
  destruct (@removeTombstones_purges Example.collaborators
              Scenario.recovered WF N) as (om' & R & Lk & _).
  exists om'; split; [exact R |].
  rewrite (Lk Example.k), L, D; reflexivity.
Defined.

(** Eight polls over the eight buckets after recovery. *)
Lemma poll_pass_is_removeTombstones_witness :
  @pollTimes Example.collaborators 8 Scenario.recovered
  = bind (@removeTombstones Example.collaborators Scenario.recovered)
      (fun om' => Done (setTombstoneRemover (mkPoller 0 1 1) om')).
Proof.
  assert (N : 0 < HashTable.numBuckets (objectMap Scenario.recovered)
              <= UINT64_MAX)
    by (vm_compute; split; [reflexivity | discriminate]).
  assert (C : currentBucket (tombstoneRemover Scenario.recovered) = 0)
    by (vm_compute; reflexivity).
  assert (B : lastReplaySegmentCount (tombstoneRemover Scenario.recovered)
              <> replaySegmentReturnCount Scenario.recovered)
    by (vm_compute; discriminate).
  exact (proj1 (@poll_pass_is_removeTombstones Example.collaborators
                  Scenario.recovered N C B)).
Defined.

(** The object whose tablet has left the registry is purged and freed. *)
Lemma removeOrphanedObjects_purges_witness :
  exists (om' : ObjectManager) (gone : list Reference),
    @removeOrphanedObjects Example.collaborators Scenario.orphaned = Done om'
    /\ @lookup Example.collaborators om' Example.k = NotFound
    /\ In 0%nat gone.
Proof.
  assert (WF : @wellFormed Example.collaborators Scenario.orphaned = true)
    by (vm_compute; reflexivity).
  assert (N : 0 < HashTable.numBuckets (objectMap Scenario.orphaned)
              <= UINT64_MAX)
    by (vm_compute; split; [reflexivity | discriminate]).
  assert (L : @lookup Example.collaborators Scenario.orphaned Example.k
              = FoundObject 0%nat (Example.object 5 "old"))
    by (vm_compute; reflexivity).
  assert (T : @TabletManager.getTablet Example.collaborators
                (tabletManager Scenario.orphaned) Example.k = None)
    by (vm_compute; reflexivity).
  destruct (@removeOrphanedObjects_purges Example.collaborators
              Scenario.orphaned WF N) as (om' & gone & R & Lk & _ & _ & G & _).
  exists om', gone; split; [exact R | split].
  - rewrite (Lk Example.k), L, T; reflexivity.
  - apply G; exists (Example.object 5 "old"); split; [exact L | exact T].
Defined.

(** The cleaner relocates the live object of k: a read returns what it
    returned before. *)
Lemma relocate_transparent_witness :
  fst (@readObject Example.collaborators Scenario.cleaned Example.k None true)
  = fst (@readObject Example.collaborators (Example.holding 5) Example.k None
           true).
Proof.
  assert (WF : @wellFormed Example.collaborators (Example.holding 5) = true)
    by (vm_compute; reflexivity).
  assert (G : Log.getEntry (log (Example.holding 5)) 0%nat
              = Some (EntryObject (Example.object 5 "old")))
    by (vm_compute; reflexivity).
  assert (R : @relocate Example.collaborators (fun _ => true)
                (Example.holding 5) 0%nat
                (EntryObject (Example.object 5 "old"))
                (LogEntryRelocator.fresh true)
              = Done (LogEntryRelocator.mk true 1 (Some 1%nat),
                      Scenario.cleaned))
    by (vm_compute; reflexivity).
  exact (proj2 (@relocate_transparent Example.collaborators (fun _ => true)
                  (Example.holding 5) Scenario.cleaned 0%nat
                  (EntryObject (Example.object 5 "old"))
                  (LogEntryRelocator.fresh true)
                  (LogEntryRelocator.mk true 1 (Some 1%nat)) WF G R)
           Example.k None true).
Defined.


(** remove of the indexed key k. *)
Lemma remove_then_lookup_witness :
  @lookup Example.collaborators
    (snd (@remove Example.collaborators (Example.holding 5) Example.k))
    Example.k
  = NotFound.
Proof.
  assert (WF : @wellFormed Example.collaborators (Example.holding 5) = true)
    by (vm_compute; reflexivity).
  exact (proj1 (proj2 (@remove_then_lookup Example.collaborators
                         (Example.holding 5) Example.k WF))).
Defined.


(** The cleaner meets the tombstone that recovery left in the index, in a
    segment that still exists: it asks for one append and k is found as
    before. *)
Lemma relocate_tombstone_witness :
  exists (relocator' : LogEntryRelocator.t) (om' : ObjectManager),
    @relocate Example.collaborators (fun _ => true) Scenario.recovered 1%nat
      (EntryTombstone (Example.tombstone 1)) (LogEntryRelocator.fresh true)
    = Done (relocator', om')
    /\ LogEntryRelocator.appendCalls relocator' = 1%nat
    /\ @lookup Example.collaborators om' Example.k
       = @lookup Example.collaborators Scenario.recovered Example.k.
Proof.
  assert (WF : @wellFormed Example.collaborators Scenario.recovered = true)
    by (vm_compute; reflexivity).
  destruct (proj2 (@relocate_tombstone Example.collaborators (fun _ => true)
                     Scenario.recovered 1%nat (LogEntryRelocator.fresh true))
              (Example.tombstone 1))
    as (relocator' & om' & R & A & _ & _ & _ & _ & K).
  exists relocator', om'; split; [exact R | split].
  - exact A.
  - exact (proj2 (K WF) Example.k).
Defined.

(** Overwriting the object of k, with the clock at 0 and then at 1,
    appends to the main log only: an object of time 0 and a tombstone of
    time 1. *)
Lemma getTimestamp_of_appended_witness :
  exists more : list (LogId * LogEntry),
    Log.memory (log (Example.afterWrite (Example.holding 5) Example.k "new"))
    = Log.memory (log (Example.holding 5)) ++ more
    /\ more <> []
    /\ forall which e,
         In (which, e) more ->
         which = MAIN_LOG
         /\ (getType e = LOG_ENTRY_TYPE_OBJ /\ getTimestamp e = 0
             \/ getType e = LOG_ENTRY_TYPE_OBJTOMB /\ getTimestamp e = 1).
Proof.
  assert (W : @writeObject Example.collaborators (Example.holding 5)
                Example.k "new" None false 0 1 true
              = Done (STATUS_OK, None,
                      Example.afterWrite (Example.holding 5) Example.k "new"))
    by (vm_compute; reflexivity).
  exact (proj1 (@getTimestamp_of_appended Example.collaborators
                  (Example.holding 5)
                  (Example.afterWrite (Example.holding 5) Example.k "new")
                  Example.k None false 0 1 true None) "new"%string W).
Defined.

(** The index is well formed after the first write, and still after the
    removal of what was written. *)
Lemma wellFormed_is_invariant_witness :
  @wellFormed Example.collaborators Scenario.written = true
  /\ @wellFormed Example.collaborators
       (snd (@removeObject Example.collaborators Scenario.written Example.k
               None true 0 true))
     = true.
Proof.
  assert (W : @writeObject Example.collaborators Example.normal Example.k
                "v" None true 0 1 true
              = Done (STATUS_OK, Some 1, Scenario.written))
    by (vm_compute; reflexivity).
  pose proof (@wellFormed_is_invariant Example.collaborators) as (C & I).
  assert (WF : @wellFormed Example.collaborators Scenario.written = true).
  { destruct (I Example.normal (C _ _)) as (Wr & _).
    exact (Wr _ _ _ _ _ _ _ _ _ _ W). }
  split; [exact WF |].
  destruct (I Scenario.written WF) as (_ & _ & _ & Rm & _).
  exact (Rm Example.k None true 0 true).
Defined.
